(** * es-function-timers: throttle, debounce and clocked

    A shallow embedding of [src/timers/throttle/index.js] and
    [src/timers/clocked/index.js].

    - [JS]       the JavaScript values the wrappers receive, and the helpers
                 both files share ([isFunction], [getSanitizedTarget],
                 [parseInt] with radix 10, the [this] of code that is not
                 in strict mode);
    - [Host]     the host's timer service ([setTimeout], [setInterval],
                 [clearTimeout]) and its single-threaded event loop;
    - [Throttle], [Debounce], [Clocked]
                 the three governors, one closure variable per record field.

    The wrapped callable is opaque: forwarding a call to it appends an entry
    to the world's journal and does not touch the governor. *)

From Stdlib Require Import ZArith List String Ascii Bool Lia.
Import ListNotations.
Local Open Scope Z_scope.

(* ================================================================== *)
(** * JavaScript values                                                 *)
(* ================================================================== *)

Module JS.

(** Numbers.  [Int z] is the number the integer literal [z] denotes: [z]
    itself up to 2^53 in magnitude, the nearest double beyond, an infinity
    beyond the largest double ([normal] below; what [parseInt] returns is in
    that form).  [-0] is identified with [0]: the code only ever tests it
    for truthiness or feeds it to [Math.max(_, 0)], and both treat the two
    zeroes alike.  Doubles with a fractional part are outside the model. *)
Inductive number : Type :=
| NaN
| PosInfinity
| NegInfinity
| Int (z : Z).

(** Values.  A function object carries two flags telling whether its [call]
    and [apply] properties are still functions: [isFunction] looks at both;
    its [toString] is the built-in one.  [VObject] is a plain object.
    [VExotic] is any other object that is not callable (an array, a date,
    an object with a [toString] of its own, an object without a prototype),
    given by what converting it to a string yields, [None] when that
    conversion throws.  [VBoxed p] is the wrapper object of the primitive
    [p], [VGlobal] the global object. *)
Inductive value : Type :=
| VUndefined
| VNull
| VBool (b : bool)
| VNumber (n : number)
| VBigInt (z : Z)
| VString (s : string)
| VSymbol (ref : nat)
| VObject (ref : nat)
| VFunction (ref : nat) (has_call has_apply : bool)
| VExotic (ref : nat) (conversion : option string)
| VBoxed (p : value)
| VGlobal.

Definition MAX_SAFE_INTEGER : Z := 2 ^ 53 - 1.

(** [Number.MAX_VALUE] *)
Definition MAX_VALUE : Z := (2 ^ 53 - 1) * 2 ^ 971.

(** [typeof value === 'function' && typeof value.call === 'function'
     && typeof value.apply === 'function'] *)
Definition isFunction (v : value) : bool :=
  match v with
  | VFunction _ has_call has_apply => has_call && has_apply
  | _ => false
  end.

(** [a ?? b] *)
Definition nullish (v : value) : bool :=
  match v with
  | VUndefined | VNull => true
  | _ => false
  end.

Definition coalesce (a b : value) : value := if nullish a then b else a.

(** [value ?? null] *)
Definition getSanitizedTarget (v : value) : value := coalesce v VNull.

(** ToBoolean *)
Definition truthy (v : value) : bool :=
  match v with
  | VUndefined | VNull => false
  | VBool b => b
  | VNumber NaN => false
  | VNumber (Int z) => negb (z =? 0)
  | VNumber _ => true
  | VBigInt z => negb (z =? 0)
  | VString s => negb (String.eqb s EmptyString)
  | VSymbol _ | VObject _ | VFunction _ _ _ | VExotic _ _ | VBoxed _
  | VGlobal => true
  end.

(** [a || b] *)
Definition or_else (a b : value) : value := if truthy a then a else b.

(** What a function that is not in strict mode finds in [this] when it is
    called on [thisArg]: [undefined] and [null] are replaced by the global
    object, any other primitive by its wrapper object.  [throttle/index.js]
    is such code; [clocked/index.js] starts with ['use strict'] and sees
    [thisArg] itself. *)
Definition sloppy_this (thisArg : value) : value :=
  match thisArg with
  | VUndefined | VNull => VGlobal
  | VBool _ | VNumber _ | VBigInt _ | VString _ | VSymbol _ =>
      VBoxed thisArg
  | VObject _ | VFunction _ _ _ | VExotic _ _ | VBoxed _ | VGlobal => thisArg
  end.

(** ** Decimal numerals *)

Definition code (c : ascii) : Z := Z.of_nat (nat_of_ascii c).

Definition is_digit (c : ascii) : bool := (48 <=? code c) && (code c <=? 57).

Definition digit_value (c : ascii) : Z := code c - 48.

Definition digit_char (d : Z) : ascii := ascii_of_nat (Z.to_nat (48 + d)).

(** White space and line terminators that [parseInt] skips (the code units
    below 256 among them). *)
Definition is_space (c : ascii) : bool :=
  let n := code c in
  (n =? 9) || (n =? 10) || (n =? 11) || (n =? 12) || (n =? 13)
  || (n =? 32) || (n =? 160).

Fixpoint decimal_from (fuel : nat) (n : Z) (acc : string) : string :=
  match fuel with
  | O => acc
  | S fuel' =>
      let acc' := String (digit_char (n mod 10)) acc in
      if n <? 10 then acc' else decimal_from fuel' (n / 10) acc'
  end.

(** The decimal numeral of a natural number. *)
Definition decimal (n : Z) : string :=
  decimal_from (S (Z.to_nat (Z.log2 n))) n EmptyString.

(** ** Integers as doubles *)

(** The double nearest to a natural number, ties to the even significand:
    53 bits hold the number, or it is rounded to 53 bits. *)
Definition round_to_double (a : Z) : Z :=
  if a <? 2 ^ 53 then a
  else
    let e := Z.log2 a - 52 in
    let q := Z.shiftr a e in
    let r := a - Z.shiftl q e in
    let half := Z.shiftl 1 (e - 1) in
    let q' :=
      if (half <? r) || ((r =? half) && Z.odd q) then q + 1 else q in
    Z.shiftl q' e.

(** The number that a sign and a magnitude denote. *)
Definition of_integer (negative : bool) (m : Z) : number :=
  let d := round_to_double m in
  if MAX_VALUE <? d
  then if negative then NegInfinity else PosInfinity
  else Int (if negative then - d else d).

Definition normal (n : number) : number :=
  match n with
  | Int z => of_integer (z <? 0) (Z.abs z)
  | _ => n
  end.

(** The number of digits of a decimal numeral. *)
Definition digits (n : Z) : Z := Z.of_nat (String.length (decimal n)).

(** Number::toString picks the decimal with the fewest significant digits
    that still denotes the double [x], the closest one when several do, the
    even one when two are as close.  [n] is the number of digits of [x],
    [k] the number of significant digits tried; seventeen always do. *)
Fixpoint shortest_from (fuel : nat) (x n k : Z) : Z :=
  match fuel with
  | O => x
  | S fuel' =>
      if n <=? k then x
      else
        let p := 10 ^ (n - k) in
        let lo := x / p * p in
        let hi := lo + p in
        match round_to_double lo =? x, round_to_double hi =? x with
        | true, true =>
            if x - lo <? hi - x then lo
            else if hi - x <? x - lo then hi
            else if Z.even (x / p) then lo else hi
        | true, false => lo
        | false, true => hi
        | false, false => shortest_from fuel' x n (k + 1)
        end
  end.

Definition shortest (x : Z) : Z := shortest_from 17 x (digits x) 1.

Fixpoint strip_zeros (fuel : nat) (c : Z) : Z :=
  match fuel with
  | O => c
  | S fuel' => if c mod 10 =? 0 then strip_zeros fuel' (c / 10) else c
  end.

(** [d.ddde+x]: the significant digits of [c], a point after the first when
    there are more, and the decimal exponent. *)
Definition exponent_notation (c : Z) : string :=
  let e := digits c - 1 in
  match decimal (strip_zeros (Z.to_nat e) c) with
  | String d EmptyString => String d ("e+" ++ decimal e)
  | String d more => String d (String "."%char (more ++ "e+" ++ decimal e))
  | EmptyString => EmptyString
  end%string.

(** Number::toString of a natural number that is a double: every digit up
    to 2^53, the shortest decimal followed by zeros below 10^21, exponent
    notation from 10^21 on. *)
Definition print_magnitude (a : Z) : string :=
  if a <? 2 ^ 53 then decimal a
  else
    let c := shortest a in
    if c <? 10 ^ 21 then decimal c else exponent_notation c.

(** Number::toString *)
Definition number_to_string (n : number) : string :=
  match normal n with
  | NaN => "NaN"%string
  | PosInfinity => "Infinity"%string
  | NegInfinity => "-Infinity"%string
  | Int d =>
      if d <? 0 then String "-"%char (print_magnitude (- d))
      else print_magnitude d
  end.

(** ToString, as [parseInt] applies it to its first argument; [None] is a
    thrown [TypeError] (a symbol, an object whose conversion fails).  A
    function prints as its source text, which starts with a keyword or a
    parenthesis. *)
Fixpoint ToString (v : value) : option string :=
  match v with
  | VUndefined => Some "undefined"
  | VNull => Some "null"
  | VBool true => Some "true"
  | VBool false => Some "false"
  | VNumber n => Some (number_to_string n)
  | VBigInt z =>
      Some (if (z <? 0)%Z then String "-"%char (decimal (- z)%Z)
            else decimal z)
  | VString s => Some s
  | VSymbol _ => None
  | VObject _ => Some "[object Object]"
  | VFunction _ _ _ => Some "function () { [native code] }"
  | VExotic _ conversion => conversion
  | VBoxed p => ToString p
  | VGlobal => Some "[object Window]"
  end%string.

(** The string [ToString] returns, when it returns. *)
Definition to_string (v : value) : string :=
  match ToString v with
  | Some s => s
  | None => EmptyString
  end.

Fixpoint trim_start (s : string) : string :=
  match s with
  | String c rest => if is_space c then trim_start rest else s
  | EmptyString => s
  end.

(** The longest prefix of decimal digits, read as a number; [None] when the
    prefix is empty. *)
Fixpoint scan_digits (s : string) (acc : option Z) : option Z :=
  match s with
  | String c rest =>
      if is_digit c
      then scan_digits rest
             (Some (10 * match acc with Some a => a | None => 0 end
                    + digit_value c))
      else acc
  | EmptyString => acc
  end.

(** [parseInt(v, 10)], once [v] has been converted to a string: skip white
    space, read one optional sign, read the digits; no digit gives [NaN].
    Callers see to [ToString v] first: where it throws, [parseInt(v, 10)]
    throws. *)
Definition parseInt (v : value) : number :=
  let s := trim_start (to_string v) in
  let '(negative, body) :=
    match s with
    | String "-" rest => (true, rest)
    | String "+" rest => (false, rest)
    | _ => (false, s)
    end%char in
  match scan_digits body None with
  | None => NaN
  | Some m => of_integer negative m
  end.

(** [Number.isFinite] *)
Definition isFinite (n : number) : bool :=
  match n with
  | Int _ => true
  | _ => false
  end.

(** [Number.isSafeInteger] *)
Definition isSafeInteger (n : number) : bool :=
  match n with
  | Int z => (- MAX_SAFE_INTEGER <=? z) && (z <=? MAX_SAFE_INTEGER)
  | _ => false
  end.

End JS.


(* ================================================================== *)
(** * The host: timers and the event loop                               *)
(* ================================================================== *)

Module Host.

Section Service.
Context {T : Type}.

(** A registered timer: its handle, the clock reading at which it is due,
    its period when it repeats ([setInterval]) and the callback with the
    arguments that were passed along. *)
Record timer : Type := mkTimer {
  tid : Z;
  due : Z;
  period : option Z;
  job : T
}.

(** [now] is what [Date.now()] returns; handles are positive and never
    reused. *)
Record service : Type := mkService {
  now : Z;
  next_id : Z;
  pending : list timer
}.

Definition boot (t0 : Z) : service :=
  {| now := t0; next_id := 1; pending := [] |}.

Definition arm (per : option Z) (j : T) (delay : Z) (s : service)
  : Z * service :=
  (next_id s,
   {| now := now s;
      next_id := next_id s + 1;
      pending := pending s ++
        [ {| tid := next_id s; due := now s + delay; period := per; job := j |} ]
   |}).

Definition setTimeout (j : T) (delay : Z) : service -> Z * service :=
  arm None j delay.

Definition setInterval (j : T) (delay : Z) : service -> Z * service :=
  arm (Some delay) j delay.

Definition drop (id : Z) (l : list timer) : list timer :=
  filter (fun tm => negb (tid tm =? id)) l.

(** [clearTimeout] and [clearInterval]: a handle that is [undefined],
    [null], stale or already cleared is ignored. *)
Definition clearTimeout (h : option Z) (s : service) : service :=
  match h with
  | None => s
  | Some id =>
      {| now := now s; next_id := next_id s; pending := drop id (pending s) |}
  end.

Definition clearInterval : option Z -> service -> service := clearTimeout.

(** The timer that runs next: the least due time, the oldest registration
    among equals. *)
Fixpoint earliest (l : list timer) : option timer :=
  match l with
  | [] => None
  | tm :: rest =>
      match earliest rest with
      | Some tm' => if due tm' <? due tm then Some tm' else Some tm
      | None => Some tm
      end
  end.

Definition next_due (limit : Z) (s : service) : option timer :=
  match earliest (pending s) with
  | Some tm => if due tm <=? limit then Some tm else None
  | None => None
  end.

(** What the host does with a timer before it runs its callback: the clock
    reads the due time, a one-shot timer is gone, a repeating one is due
    again one period later. *)
Definition rearm (tm : timer) (l : list timer) : list timer :=
  match period tm with
  | None => drop (tid tm) l
  | Some p =>
      map (fun x =>
             if tid x =? tid tm
             then {| tid := tid x; due := due tm + p;
                     period := period x; job := job x |}
             else x) l
  end.

Definition expire (tm : timer) (s : service) : service :=
  {| now := Z.max (now s) (due tm);
     next_id := next_id s;
     pending := rearm tm (pending s) |}.

Definition set_clock (t : Z) (s : service) : service :=
  {| now := Z.max (now s) t; next_id := next_id s; pending := pending s |}.

End Service.

Arguments timer : clear implicits.
Arguments service : clear implicits.

(** A JavaScript variable holding [undefined]/[null] or a number, tested
    with [if (x)]. *)
Definition truthy_num (o : option Z) : bool :=
  match o with
  | Some n => negb (n =? 0)
  | None => false
  end.

(** One governor in its host: the timer service, the governor's closure
    variables and the journal of what reached the outside. *)
Record world (T G E : Type) : Type := mkWorld {
  svc : service T;
  st : G;
  journal : list E
}.

Arguments mkWorld {T G E}.
Arguments svc {T G E}.
Arguments st {T G E}.
Arguments journal {T G E}.

Section Loop.
Context {T G E : Type}.
Variable fire : T -> world T G E -> world T G E.

Definition dispatch (tm : timer T) (w : world T G E) : world T G E :=
  fire (job tm) (mkWorld (expire tm (svc w)) (st w) (journal w)).

(** Run every timer that is due up to [limit], in order.  [None]: the fuel
    ran out before the queue was quiet. *)
Fixpoint drain (fuel : nat) (limit : Z) (w : world T G E)
  : option (world T G E) :=
  match next_due limit (svc w), fuel with
  | None, _ => Some w
  | Some _, O => None
  | Some tm, S fuel' => drain fuel' limit (dispatch tm w)
  end.

Definition tick_clock (t : Z) (w : world T G E) : world T G E :=
  mkWorld (set_clock t (svc w)) (st w) (journal w).

(** Let time pass until the clock reads [t]; timers due at [t] itself run. *)
Definition advance (fuel : nat) (t : Z) (w : world T G E)
  : option (world T G E) :=
  option_map (tick_clock t) (drain fuel t w).

(** The same, except that timers due at [t] itself are still waiting: the
    host took up something else first at that instant. *)
Definition advance_before (fuel : nat) (t : Z) (w : world T G E)
  : option (world T G E) :=
  option_map (tick_clock t) (drain fuel (t - 1) w).

End Loop.

(** How a call of a wrapper ends: it returns a governed callable, it
    returns [v], the [this] it was called on, or a [TypeError] surfaces. *)
Inductive wrapped (G : Type) : Type :=
| Governed (g : G)
| Unchanged (v : JS.value)
| Threw.

Arguments Governed {G}.
Arguments Unchanged {G}.
Arguments Threw {G}.

(** A call that reached the wrapped callable: [proceed.apply(this, args)]
    at clock reading [at_time]. *)
Record call : Type := mkCall {
  at_time : Z;
  this_arg : JS.value;
  arguments : list JS.value
}.

End Host.

(* ================================================================== *)
(** * throttle/index.js                                                 *)
(* ================================================================== *)

Module Timers.
Import JS Host.

Definition DEFAULT_THROTTLE_THRESHOLD : Z := 200.
Definition DEFAULT_DEBOUNCE_DELAY : Z := 100.

(** [(isSafeInteger(number = parseInt(number, 10)) && number) || 0], for a
    [number] that [parseInt] can convert to a string; [throttle] and
    [debounce] see to the other case. *)
Definition getSanitizedInteger (v : value) : Z :=
  let n := parseInt v in
  match n with
  | Int z => if isSafeInteger n && negb (z =? 0) then z else 0
  | _ => 0
  end.

(** [mathMax(getSanitizedInteger(number), 0)] *)
Definition getSanitizedPositiveInteger (v : value) : Z :=
  Z.max (getSanitizedInteger v) 0.

(** [n || fallback] on numbers *)
Definition or_default (n fallback : Z) : Z :=
  if n =? 0 then fallback else n.

(** ** Classes of duration arguments *)

(** The decimal numeral that leads a string, after white space: whether a
    minus sign precedes it, and its value. *)
Definition leading_numeral (s : string) : option (bool * Z) :=
  let t := trim_start s in
  let '(negative, body) :=
    match t with
    | String "-" rest => (true, rest)
    | String "+" rest => (false, rest)
    | _ => (false, t)
    end%char in
  match scan_digits body None with
  | Some m => Some (negative, m)
  | None => None
  end.

Inductive duration_class : Type :=
| Absent
| Zero
| Negative
| NonNumeric
| NonFinite
| PositiveInteger (n : Z)
| PositiveNumeral (n : Z)
| Unconvertible.

Definition class_of_numeral (reading : option (bool * Z)) : duration_class :=
  match reading with
  | None => NonNumeric
  | Some (negative, m) =>
      if m =? 0 then Zero
      else if negative then Negative
      else PositiveNumeral m
  end.

(** A number is classed by its value; anything else by its string form,
    when it has one: no numeral leads it, or one that is zero, negative or
    positive. *)
Definition classify (v : value) : duration_class :=
  match v with
  | VUndefined => Absent
  | VNumber (Int z) =>
      if z =? 0 then Zero
      else if z <? 0 then Negative
      else PositiveInteger z
  | VNumber _ => NonFinite
  | _ =>
      match ToString v with
      | Some s => class_of_numeral (leading_numeral s)
      | None => Unconvertible
      end
  end.

(** The durations the wrappers replace by their default. *)
Definition invalid_duration (v : value) : bool :=
  match classify v with
  | Absent | Zero | Negative | NonNumeric | NonFinite => true
  | PositiveInteger _ | PositiveNumeral _ | Unconvertible => false
  end.

End Timers.

Module Throttle.
Import JS Host Timers.

(** What [throttle] fixes before it returns [throttled]. *)
Record config : Type := mkConfig {
  proceed : value;
  threshold : Z;
  isSuppressTrailingCall : bool;
  target : value
}.

(** The closure variables of [throttle]; [None] is [undefined]. *)
Record state : Type := mkState {
  timeoutId : option Z;
  timeGap : option Z;
  timestampRecent : option Z;
  timestampCurrent : option Z;
  context : value
}.

Definition initial : state :=
  {| timeoutId := None; timeGap := None; timestampRecent := None;
     timestampCurrent := None; context := VUndefined |}.

(** A pending timer carries the arguments handed to [setTimeout] after the
    delay; its callback is always [trigger]. *)
Definition World : Type := world (list value) state call.

Definition start (t0 : Z) : World := mkWorld (boot t0) initial [].

(** [throttle.call(thisArg, threshold, isSuppressTrailingCall, target)].
    The file is not in strict mode, so [const proceed = this] reads
    [sloppy_this thisArg].  The guard comes first; the threshold is
    sanitised after it, and [parseInt] throws where [ToString] does. *)
Definition throttle (thisArg threshold isSuppressTrailingCall target : value)
  : wrapped config :=
  let proceed := sloppy_this thisArg in
  if negb (isFunction proceed) then Unchanged proceed
  else
    match ToString threshold with
    | None => Threw
    | Some _ =>
        Governed
          {| proceed := proceed;
             threshold :=
               or_default (getSanitizedPositiveInteger threshold)
                          DEFAULT_THROTTLE_THRESHOLD;
             isSuppressTrailingCall := truthy isSuppressTrailingCall;
             target := getSanitizedTarget target |}
    end.

(** [Function.throttle(proceed, ...)], which is
    [throttle.call(proceed, ...)] *)
Definition staticThrottle (proceed : value) := throttle proceed.

Section Governor.
Variable cfg : config.

(** [timestampRecent = timestampCurrent; proceed.apply(context, argsArray)] *)
Definition trigger (argsArray : list value) (w : World) : World :=
  let s := st w in
  mkWorld (svc w)
    {| timeoutId := timeoutId s; timeGap := timeGap s;
       timestampRecent := timestampCurrent s;
       timestampCurrent := timestampCurrent s;
       context := context s |}
    (journal w ++
       [ {| at_time := now (svc w); this_arg := context s;
            arguments := argsArray |} ]).

(** [throttled(...argsArray)]; [this] is what the function finds in
    [this]. *)
Definition throttled (this : value) (argsArray : list value) (w : World)
  : World :=
  let s := st w in
  let sv := clearTimeout (timeoutId s) (svc w) in
  let ctx := or_else (target cfg) (getSanitizedTarget this) in
  let current := now sv in
  if truthy_num (timestampRecent s) then
    let gap := current - match timestampRecent s with
                         | Some r => r
                         | None => 0
                         end in
    if isSuppressTrailingCall cfg && (threshold cfg <=? gap) then
      trigger argsArray
        (mkWorld sv
           {| timeoutId := timeoutId s; timeGap := Some gap;
              timestampRecent := timestampRecent s;
              timestampCurrent := Some current; context := ctx |}
           (journal w))
    else
      let '(id, sv') :=
        setTimeout argsArray (Z.max (threshold cfg - gap) 0) sv in
      mkWorld sv'
        {| timeoutId := Some id; timeGap := Some gap;
           timestampRecent := timestampRecent s;
           timestampCurrent := Some current; context := ctx |}
        (journal w)
  else
    trigger argsArray
      (mkWorld sv
         {| timeoutId := timeoutId s; timeGap := timeGap s;
            timestampRecent := timestampRecent s;
            timestampCurrent := Some current; context := ctx |}
         (journal w)).

(** A timed call: let the clock reach [t], then invoke [throttled]. *)
Definition call_at (fuel : nat) (t : Z) (this : value)
  (argsArray : list value) (w : World) : option World :=
  option_map (throttled this argsArray) (advance trigger fuel t w).

(** A sequence of timed calls, then quiet until [horizon]. *)
Fixpoint play (fuel : nat) (calls : list (Z * value * list value))
  (horizon : Z) (w : World) : option World :=
  match calls with
  | [] => advance trigger fuel horizon w
  | (t, this, argsArray) :: rest =>
      match call_at fuel t this argsArray w with
      | Some w' => play fuel rest horizon w'
      | None => None
      end
  end.

(** What can happen to a throttled callable: it is called at some clock
    reading, or the host runs one of its pending timers. *)
Inductive step : World -> World -> Prop :=
| step_call (w : World) (t : Z) (this : value) (argsArray : list value) :
    step w (throttled this argsArray (tick_clock t w))
| step_timer (w : World) (tm : timer (list value)) :
    In tm (pending (svc w)) ->
    step w (dispatch trigger tm w).

Inductive reachable : World -> Prop :=
| reach_start (t0 : Z) : reachable (start t0)
| reach_step (w w' : World) : reachable w -> step w w' -> reachable w'.

(** At most one timer is pending; it is a one-shot timer and [timeoutId]
    is its handle, one the host has handed out. *)
Definition one_pending (w : World) : Prop :=
  pending (svc w) = [] \/
  exists tm, pending (svc w) = [tm] /\ timeoutId (st w) = Some (tid tm)
             /\ period tm = None /\ tid tm < next_id (svc w).

(** The recorded clock readings are readings the clock has shown. *)
Definition clock_sane (w : World) : Prop :=
  (forall r, timestampRecent (st w) = Some r -> r <= now (svc w))
  /\ (forall c, timestampCurrent (st w) = Some c -> c <= now (svc w)).

(** Every forwarded call so far ran on the target fixed by [throttle], and
    so will the one a pending timer makes. *)
Definition context_bound (w : World) : Prop :=
  (pending (svc w) <> [] -> context (st w) = target cfg)
  /\ Forall (fun c => this_arg c = target cfg) (journal w).



End Governor.

End Throttle.

Module Debounce.
Import JS Host Timers.

Record config : Type := mkConfig {
  proceed : value;
  delay : Z;
  isTriggerImmediately : bool;
  target : value
}.

(** The closure variables of [debounce]; [None] is [undefined] or [null]. *)
Record state : Type := mkState {
  timeoutResetId : option Z;
  timeoutId : option Z;
  context : value
}.

(** [debounce] calls [resetTimeoutId()] once before it returns. *)
Definition initial : state :=
  {| timeoutResetId := None; timeoutId := None; context := VUndefined |}.

(** The three functions [debounced] hands to [setTimeout], with the
    arguments passed along. *)
Inductive callback : Type :=
| DebounceTrigger (argsArray : list value)
| ImmediateTrigger (argsArray : list value)
| ResetTimeoutId.

Definition World : Type := world callback state call.

Definition start (t0 : Z) : World := mkWorld (boot t0) initial [].

(** [debounce.call(thisArg, delay, isTriggerImmediately, target)]; as in
    [throttle], [const proceed = this] reads [sloppy_this thisArg], and the
    delay is sanitised after the guard. *)
Definition debounce (thisArg delay isTriggerImmediately target : value)
  : wrapped config :=
  let proceed := sloppy_this thisArg in
  if negb (isFunction proceed) then Unchanged proceed
  else
    match ToString delay with
    | None => Threw
    | Some _ =>
        Governed
          {| proceed := proceed;
             delay :=
               or_default (getSanitizedPositiveInteger delay)
                          DEFAULT_DEBOUNCE_DELAY;
             isTriggerImmediately := truthy isTriggerImmediately;
             target := getSanitizedTarget target |}
    end.

(** [Function.debounce(proceed, ...)], which is
    [debounce.call(proceed, ...)] *)
Definition staticDebounce (proceed : value) := debounce proceed.

Section Governor.
Variable cfg : config.

(** [timeoutId = null] *)
Definition resetTimeoutId (w : World) : World :=
  mkWorld (svc w)
    {| timeoutResetId := timeoutResetId (st w); timeoutId := None;
       context := context (st w) |}
    (journal w).

Definition forward (argsArray : list value) (w : World) : World :=
  mkWorld (svc w) (st w)
    (journal w ++
       [ {| at_time := now (svc w); this_arg := context (st w);
            arguments := argsArray |} ]).

(** [resetTimeoutId(); proceed.apply(context, argsArray)] *)
Definition debounceTrigger (argsArray : list value) (w : World) : World :=
  forward argsArray (resetTimeoutId w).

(** [timeoutResetId = setTimeout(resetTimeoutId, delay);
     proceed.apply(context, argsArray)] *)
Definition immediateTrigger (argsArray : list value) (w : World) : World :=
  let '(id, sv) := setTimeout ResetTimeoutId (delay cfg) (svc w) in
  forward argsArray
    (mkWorld sv
       {| timeoutResetId := Some id; timeoutId := timeoutId (st w);
          context := context (st w) |}
       (journal w)).

Definition fire (cb : callback) (w : World) : World :=
  match cb with
  | DebounceTrigger argsArray => debounceTrigger argsArray w
  | ImmediateTrigger argsArray => immediateTrigger argsArray w
  | ResetTimeoutId => resetTimeoutId w
  end.

(** [debounced(...argsArray)]; [this] is what the function finds in
    [this]. *)
Definition debounced (this : value) (argsArray : list value) (w : World)
  : World :=
  let s := st w in
  let ctx := or_else (target cfg) (getSanitizedTarget this) in
  if truthy_num (timeoutId s) then
    let sv := clearTimeout (timeoutId s)
                (clearTimeout (timeoutResetId s) (svc w)) in
    let '(id, sv') := setTimeout (DebounceTrigger argsArray) (delay cfg) sv in
    mkWorld sv'
      {| timeoutResetId := timeoutResetId s; timeoutId := Some id;
         context := ctx |}
      (journal w)
  else
    let '(id, sv') :=
      if isTriggerImmediately cfg
      then setTimeout (ImmediateTrigger argsArray) 0 (svc w)
      else setTimeout (DebounceTrigger argsArray) (delay cfg) (svc w) in
    mkWorld sv'
      {| timeoutResetId := timeoutResetId s; timeoutId := Some id;
         context := ctx |}
      (journal w).

(** A sequence of timed calls, then quiet until [horizon].  With
    [timers_first], a timer due at the very instant of a call runs before
    the call; otherwise the call is taken up first. *)
Fixpoint play (timers_first : bool) (fuel : nat)
  (calls : list (Z * value * list value)) (horizon : Z) (w : World)
  : option World :=
  match calls with
  | [] => advance fire fuel horizon w
  | (t, this, argsArray) :: rest =>
      let arrived :=
        if timers_first then advance fire fuel t w
        else advance_before fire fuel t w in
      match arrived with
      | Some w' => play timers_first fuel rest horizon
                     (debounced this argsArray w')
      | None => None
      end
  end.

(** What can happen to a debounced callable: it is called at some clock
    reading, or the host runs one of its pending timers. *)
Inductive step : World -> World -> Prop :=
| step_call (w : World) (t : Z) (this : value) (argsArray : list value) :
    step w (debounced this argsArray (tick_clock t w))
| step_timer (w : World) (tm : timer callback) :
    In tm (pending (svc w)) ->
    step w (dispatch fire tm w).

Inductive reachable : World -> Prop :=
| reach_start (t0 : Z) : reachable (start t0)
| reach_step (w w' : World) : reachable w -> step w w' -> reachable w'.

(** Either nothing is pending and [timeoutId] is [null], or exactly one
    one-shot timer is pending and [timeoutId] is set: the timer is the
    trigger [timeoutId] names, or the re-arm timer [timeoutResetId] names. *)
Definition window_invariant (w : World) : Prop :=
  0 < next_id (svc w)
  /\ ((pending (svc w) = [] /\ timeoutId (st w) = None)
      \/
      exists tm,
        pending (svc w) = [tm]
        /\ period tm = None
        /\ 0 < tid tm < next_id (svc w)
        /\ truthy_num (timeoutId (st w)) = true
        /\ match job tm with
           | ResetTimeoutId => timeoutResetId (st w) = Some (tid tm)
           | _ => timeoutId (st w) = Some (tid tm)
           end).

(** Every forwarded call so far ran on the target fixed by [debounce], and
    so will the one a pending timer makes. *)
Definition context_bound (w : World) : Prop :=
  (pending (svc w) <> [] -> context (st w) = target cfg)
  /\ Forall (fun c => this_arg c = target cfg) (journal w).

(** Timed calls, each less than [delay] after the one before. *)
Fixpoint within (prev : Z) (calls : list (Z * value * list value)) : Prop :=
  match calls with
  | [] => True
  | (t, _, _) :: rest => prev <= t < prev + delay cfg /\ within t rest
  end.

(** The forwarded call the last of a burst stands for, made one [delay]
    after it. *)
Definition forwarded_after_quiet (c : Z * value * list value) : call :=
  let '(t, this, argsArray) := c in
  {| at_time := t + delay cfg;
     this_arg := or_else (target cfg) (getSanitizedTarget this);
     arguments := argsArray |}.

End Governor.

End Debounce.

(* ================================================================== *)
(** * clocked/index.js                                                  *)
(* ================================================================== *)

Module Clocked.
Import JS Host.

Definition DEFAULT_INTERVAL : Z := 200.

(** [value = parseInt(value, 10); return isFinite(value) ? value : 0], for
    a [value] that [parseInt] can convert to a string;
    [createClockedFunction] sees to the other case. *)
Definition getSanitizedInteger (v : value) : Z :=
  let n := parseInt v in
  match n with
  | Int z => if isFinite n then z else 0
  | _ => 0
  end.

(** [Math.max(getSanitizedInteger(value), 0)] *)
Definition getSanitizedPositiveInteger (v : value) : Z :=
  Z.max (getSanitizedInteger v) 0.

(** The [clock] member of the data object a controller receives. *)
Record clockData : Type := mkClock {
  interval : Z;
  startTime : option Z;
  timestamp : Z;
  count : Z
}.

(** The data object itself, without its two function members. *)
Record controllerData : Type := mkData {
  clock : clockData;
  data_target : value;
  data_args : list value
}.

(** What a controller does with the two function members of its data
    object, [proceed] and [terminate], and with the governed callable when
    it closes over it. *)
Inductive action : Type :=
| Proceed (this : value) (args : list value)
| Terminate
| Invoke (this : value) (args : list value).

(** A controller, by what it does on a tick. *)
Definition controller_fn : Type := controllerData -> list action.

(** What [createClockedFunction] fixes before it returns [clocked].
    [controller] is [None] when the argument is absent or fails
    [isFunction]. *)
Record config : Type := mkConfig {
  proceed : value;
  cfg_interval : Z;
  target : value;
  controller : option controller_fn
}.

(** The closure variables; [None] is [null].  [thisArg] and [argsArr] are
    declared without a value and read by a tick only, after an invocation
    has assigned them. *)
Record state : Type := mkState {
  thisArg : value;
  argsArr : list value;
  clockCount : option Z;
  clockStart : option Z;
  timerId : option Z
}.

Definition initial : state :=
  {| thisArg := VUndefined; argsArr := []; clockCount := None;
     clockStart := None; timerId := None |}.

(** The function handed to [setInterval]. *)
Inductive trigger : Type :=
| TriggerController
| TriggerProceed.

(** What reaches the outside on a tick. *)
Inductive event : Type :=
| Forwarded (c : call)
| HandedOver (data : controllerData).

Definition event_time (e : event) : Z :=
  match e with
  | Forwarded c => at_time c
  | HandedOver data => timestamp (clock data)
  end.

Definition World : Type := world trigger state event.

Definition start (t0 : Z) : World := mkWorld (boot t0) initial [].

(** [createClockedFunction.call(proceed, interval, target, controller)].
    The file is in strict mode: [this] is the value the function was called
    on.  The interval is sanitised before anything is returned, so
    [parseInt] throws, where [ToString] does, whatever [proceed] is. *)
Definition createClockedFunction (proceed interval target : value)
  (controller : option controller_fn) : wrapped config :=
  let target := getSanitizedTarget target in
  match ToString interval with
  | None => Threw
  | Some _ =>
      let interval :=
        Timers.or_default (getSanitizedPositiveInteger interval)
                          DEFAULT_INTERVAL in
      if isFunction proceed
      then Governed {| proceed := proceed; cfg_interval := interval;
                       target := target; controller := controller |}
      else Unchanged proceed
  end.

Section Governor.
Variable cfg : config.

Definition terminate (w : World) : World :=
  let s := st w in
  mkWorld (clearInterval (timerId s) (svc w))
    {| thisArg := thisArg s; argsArr := argsArr s; clockCount := None;
       clockStart := None; timerId := None |}
    (journal w).

(** [timerId !== null] *)
Definition isActive (w : World) : bool :=
  match timerId (st w) with
  | Some _ => true
  | None => false
  end.

(** [isFunction(controller) ? triggerController : triggerProceed] *)
Definition chosen_trigger : trigger :=
  match controller cfg with
  | Some _ => TriggerController
  | None => TriggerProceed
  end.

Definition clocked (this : value) (argumentsArray : list value) (w : World)
  : World :=
  let w1 :=
    mkWorld (svc w)
      {| thisArg := coalesce (getSanitizedTarget this) (target cfg);
         argsArr := argumentsArray;
         clockCount := clockCount (st w);
         clockStart := clockStart (st w);
         timerId := timerId (st w) |}
      (journal w) in
  let w2 := if isActive w1 then terminate w1 else w1 in
  let '(id, sv) := setInterval chosen_trigger (cfg_interval cfg) (svc w2) in
  mkWorld sv
    {| thisArg := thisArg (st w2); argsArr := argsArr (st w2);
       clockCount := Some 0;
       clockStart := Some (now (svc w2));
       timerId := Some id |}
    (journal w2).

(** [proceed.apply(thisArg, argsArr)] *)
Definition triggerProceed (w : World) : World :=
  mkWorld (svc w) (st w)
    (journal w ++
       [ Forwarded {| at_time := now (svc w); this_arg := thisArg (st w);
                      arguments := argsArr (st w) |} ]).

(** One thing the controller does while it runs. *)
Definition perform (a : action) (w : World) : World :=
  match a with
  | Proceed this args =>
      mkWorld (svc w) (st w)
        (journal w ++
           [ Forwarded {| at_time := now (svc w); this_arg := this;
                          arguments := args |} ])
  | Terminate => terminate w
  | Invoke this args => clocked this args w
  end.

(** [++clockCount], where [null] counts as [0]. *)
Definition increment (c : option Z) : Z :=
  match c with
  | Some n => n + 1
  | None => 1
  end.

(** The data object is built first, which increments [clockCount]; then
    the controller runs. *)
Definition triggerController (w : World) : World :=
  let s := st w in
  let n := increment (clockCount s) in
  let data :=
    {| clock := {| interval := cfg_interval cfg; startTime := clockStart s;
                   timestamp := now (svc w); count := n |};
       data_target := thisArg s;
       data_args := argsArr s |} in
  let s1 :=
    {| thisArg := thisArg s; argsArr := argsArr s; clockCount := Some n;
       clockStart := clockStart s; timerId := timerId s |} in
  match controller cfg with
  | Some ctl =>
      fold_left (fun acc a => perform a acc) (ctl data)
        (mkWorld (svc w) s1 (journal w ++ [HandedOver data]))
  | None => mkWorld (svc w) s1 (journal w)
  end.

Definition fire (t : trigger) (w : World) : World :=
  match t with
  | TriggerController => triggerController w
  | TriggerProceed => triggerProceed w
  end.

(** What can happen to a clocked callable: it is invoked, [terminate] is
    called on it, or the host runs a tick of a registered interval timer. *)
Inductive label : Type :=
| Invoked
| Terminated
| Ticked (id : Z).

Inductive step : World -> label -> World -> Prop :=
| step_invoke (w : World) (t : Z) (this : value) (args : list value) :
    step w Invoked (clocked this args (tick_clock t w))
| step_terminate (w : World) (t : Z) :
    step w Terminated (terminate (tick_clock t w))
| step_tick (w : World) (tm : timer trigger) :
    In tm (pending (svc w)) ->
    step w (Ticked (tid tm)) (dispatch fire tm w).

Inductive steps : World -> list label -> World -> Prop :=
| steps_nil (w : World) : steps w [] w
| steps_cons (w w1 w2 : World) (l : label) (ls : list label) :
    step w l w1 -> steps w1 ls w2 -> steps w (l :: ls) w2.

Definition reachable (w : World) : Prop :=
  exists t0 ls, steps (start t0) ls w.

(** The state invariant: the governor holds a handle exactly when the host
    has its interval timer registered (and then only that one), and the
    counter and the start time are set exactly then. *)
Definition invariant (w : World) : Prop :=
  match timerId (st w) with
  | Some id =>
      (exists d,
          pending (svc w) =
            [ {| tid := id; due := d; period := Some (cfg_interval cfg);
                 job := chosen_trigger |} ])
      /\ id < next_id (svc w)
      /\ clockCount (st w) <> None
      /\ clockStart (st w) <> None
  | None =>
      pending (svc w) = []
      /\ clockCount (st w) = None
      /\ clockStart (st w) = None
  end.

(** The data object of the tick that reports count [c] at clock reading
    [t], in a cycle started at [begun] on [this] and [args]. *)
Definition data_at (begun : Z) (this : value) (args : list value)
  (c t : Z) : controllerData :=
  {| clock := {| interval := cfg_interval cfg; startTime := Some begun;
                 timestamp := t; count := c |};
     data_target := this;
     data_args := args |}.

(** The calls of [proceed] among what a controller does at reading [t]. *)
Definition forwards (t : Z) (acts : list action) : list event :=
  flat_map
    (fun a =>
       match a with
       | Proceed this args =>
           [ Forwarded {| at_time := t; this_arg := this;
                          arguments := args |} ]
       | _ => []
       end) acts.

Definition only_proceeds (acts : list action) : Prop :=
  forall a, In a acts -> exists this args, a = Proceed this args.

(** What [k] ticks in a row put in the journal under controller [ctl], the
    first one reporting count [c] at reading [t]. *)
Fixpoint controlled_ticks (ctl : controller_fn) (begun : Z) (this : value)
  (args : list value) (k : nat) (c t : Z) : list event :=
  match k with
  | O => []
  | S k' =>
      let data := data_at begun this args c t in
      HandedOver data :: forwards t (ctl data)
        ++ controlled_ticks ctl begun this args k' (c + 1)
             (t + cfg_interval cfg)
  end.

(** What [k] ticks in a row put in the journal without a controller, the
    first one at reading [t]. *)
Fixpoint proceed_ticks (this : value) (args : list value) (k : nat) (t : Z)
  : list event :=
  match k with
  | O => []
  | S k' =>
      Forwarded {| at_time := t; this_arg := this; arguments := args |}
        :: proceed_ticks this args k' (t + cfg_interval cfg)
  end.

(** The controller does nothing but call [proceed] in each of [k] ticks in
    a row, the first one reporting count [c] at reading [t]. *)
Fixpoint quiet_ticks (ctl : controller_fn) (begun : Z) (this : value)
  (args : list value) (k : nat) (c t : Z) : Prop :=
  match k with
  | O => True
  | S k' =>
      only_proceeds (ctl (data_at begun this args c t))
      /\ quiet_ticks ctl begun this args k' (c + 1) (t + cfg_interval cfg)
  end.

(** A governor in the middle of a cycle begun at [begun] on [this] and
    [args]: its timer [id] is due at [d], one interval after the clock
    reading of the last thing that happened, and the counter is at [c]. *)
Definition running (nx id begun : Z) (this : value) (args : list value)
  (d c : Z) (j : list event) : World :=
  mkWorld
    {| now := d - cfg_interval cfg;
       next_id := nx;
       pending :=
         [ {| tid := id; due := d; period := Some (cfg_interval cfg);
              job := chosen_trigger |} ] |}
    {| thisArg := this; argsArr := args; clockCount := Some c;
       clockStart := Some begun; timerId := Some id |}
    j.

End Governor.

(** The controllers of [controllerTest] and [originalProblemTest], with
    their bound 5 as a parameter: [if (count > limit) terminate()], else
    [proceed.apply(target, args)] in the former and only a log line in the
    latter. *)
Definition count_limited (limit : Z) (proceeds : bool) : controller_fn :=
  fun data =>
    if count (clock data) >? limit then [Terminate]
    else if proceeds then [Proceed (data_target data) (data_args data)]
    else [].

Definition controllerTest_controller : controller_fn := count_limited 5 true.

Definition originalProblemTest_controller : controller_fn :=
  count_limited 5 false.

(** The handle [old] is out of use: the host has handed it out before and
    no registered timer carries it. *)
Definition retired (old : Z) (w : World) : Prop :=
  old < next_id (svc w) /\
  forall tm, In tm (pending (svc w)) -> tid tm <> old.

End Clocked.

(* ================================================================== *)
(** * Properties                                                        *)
(* ================================================================== *)

Import JS Host.

(** ** The event loop *)

Lemma drain_quiet (T G E : Type) (fire : T -> world T G E -> world T G E)
  (fuel : nat) (limit : Z) (w : world T G E) :
  next_due limit (svc w) = None -> drain fire fuel limit w = Some w.
Proof. intros H. destruct fuel; cbn [drain]; rewrite H; reflexivity. Qed.

Lemma advance_quiet (T G E : Type) (fire : T -> world T G E -> world T G E)
  (fuel : nat) (t : Z) (w : world T G E) :
  next_due t (svc w) = None -> advance fire fuel t w = Some (tick_clock t w).
Proof.
  intros H. unfold advance. rewrite drain_quiet by exact H. reflexivity.
Qed.

(** Settle comparisons and maxima of clock readings by arithmetic. *)
Ltac zdecide :=
  repeat match goal with
  | |- context [Z.max ?a ?b] =>
      first [ rewrite (Z.max_l a b) by lia | rewrite (Z.max_r a b) by lia ]
  | |- context [?a =? ?b] =>
      first [ replace (a =? b) with true by (symmetry; apply Z.eqb_eq; lia)
            | replace (a =? b) with false by (symmetry; apply Z.eqb_neq; lia) ]
  | |- context [?a <=? ?b] =>
      first [ replace (a <=? b) with true by (symmetry; apply Z.leb_le; lia)
            | replace (a <=? b) with false by (symmetry; apply Z.leb_gt; lia) ]
  | |- context [?a <? ?b] =>
      first [ replace (a <? b) with true by (symmetry; apply Z.ltb_lt; lia)
            | replace (a <? b) with false by (symmetry; apply Z.ltb_ge; lia) ]
  end.

(** ** Numerals and [parseInt] *)

Lemma digit_char_roundtrip (d : Z) :
  0 <= d < 10 ->
  is_digit (digit_char d) = true /\ digit_value (digit_char d) = d.
Proof.
  intros Hd.
  assert (H : d = 0 \/ d = 1 \/ d = 2 \/ d = 3 \/ d = 4 \/ d = 5 \/ d = 6
              \/ d = 7 \/ d = 8 \/ d = 9) by lia.
  repeat (destruct H as [-> | H]; [split; reflexivity | ]).
  subst d; split; reflexivity.
Qed.

Lemma scan_decimal_from (fuel : nat) :
  forall (n : Z) (rest : string),
    0 <= n < 2 ^ Z.of_nat (S fuel) ->
    scan_digits (decimal_from (S fuel) n rest) None
    = scan_digits rest (Some n).
Proof.
  induction fuel as [| fuel IH]; intros n rest Hn.
  - change (2 ^ Z.of_nat 1) with 2 in Hn.
    cbn [decimal_from].
    replace (n <? 10) with true by (symmetry; apply Z.ltb_lt; lia).
    cbn [scan_digits].
    destruct (digit_char_roundtrip (n mod 10)) as [-> ->].
    + apply Z.mod_pos_bound; lia.
    + rewrite Z.mod_small by lia. reflexivity.
  - change (decimal_from (S (S fuel)) n rest)
      with (let acc' := String (digit_char (n mod 10)) rest in
            if n <? 10 then acc' else decimal_from (S fuel) (n / 10) acc').
    cbv zeta.
    assert (Hmod : 0 <= n mod 10 < 10) by (apply Z.mod_pos_bound; lia).
    destruct (digit_char_roundtrip (n mod 10) Hmod) as [Hd Hv].
    destruct (Z.ltb_spec n 10) as [Hlt | Hge].
    + cbn [scan_digits]. rewrite Hd, Hv.
      rewrite Z.mod_small by lia. reflexivity.
    + rewrite IH.
      * cbn [scan_digits]. rewrite Hd, Hv.
        f_equal. f_equal. rewrite (Z.div_mod n 10) at 3 by lia. reflexivity.
      * split; [apply Z.div_pos; lia | ].
        apply Z.div_lt_upper_bound; [lia | ].
        rewrite (Nat2Z.inj_succ (S fuel)), Z.pow_succ_r in Hn by lia.
        lia.
Qed.

Lemma scan_decimal (n : Z) :
  0 <= n -> scan_digits (decimal n) None = Some n.
Proof.
  intros Hn. unfold decimal.
  rewrite scan_decimal_from; [reflexivity | ].
  split; [assumption | ].
  rewrite Nat2Z.inj_succ, Z2Nat.id by apply Z.log2_nonneg.
  destruct (Z.eq_dec n 0) as [-> | Hnz]; [reflexivity | ].
  apply Z.log2_spec. lia.
Qed.

Lemma decimal_head (n : Z) :
  0 <= n -> exists c rest, decimal n = String c rest /\ is_digit c = true.
Proof.
  intros Hn.
  pose proof (scan_decimal n Hn) as H.
  destruct (decimal n) as [| c rest] eqn:E; [discriminate | ].
  exists c, rest. split; [reflexivity | ].
  cbn [scan_digits] in H.
  destruct (is_digit c); [reflexivity | discriminate].
Qed.

Lemma digit_not_space_or_sign (c : ascii) :
  is_digit c = true ->
  is_space c = false /\ c <> "-"%char /\ c <> "+"%char.
Proof.
  unfold is_digit, is_space. intros H.
  apply andb_true_iff in H. destruct H as [H1 H2].
  apply Z.leb_le in H1. apply Z.leb_le in H2.
  repeat split.
  - repeat (apply orb_false_iff; split); apply Z.eqb_neq; lia.
  - intros ->. vm_compute in H1. congruence.
  - intros ->. vm_compute in H1. congruence.
Qed.

(** *** Integers as doubles *)

Lemma round_to_double_small (a : Z) : a < 2 ^ 53 -> round_to_double a = a.
Proof.
  intros H. unfold round_to_double.
  apply Z.ltb_lt in H. rewrite H. reflexivity.
Qed.

Lemma round_to_double_nonneg (a : Z) : 0 <= a -> 0 <= round_to_double a.
Proof.
  intros H. unfold round_to_double.
  destruct (a <? 2 ^ 53); [exact H | ].
  cbv zeta. apply Z.shiftl_nonneg.
  assert (Hq : 0 <= Z.shiftr a (Z.log2 a - 52))
    by (apply Z.shiftr_nonneg; exact H).
  destruct (_ || _); lia.
Qed.

Lemma safe_below_max_value : 2 ^ 53 <= MAX_VALUE.
Proof. vm_compute. discriminate. Qed.

Lemma of_integer_small (negative : bool) (m : Z) :
  0 <= m < 2 ^ 53 ->
  of_integer negative m = Int (if negative then - m else m).
Proof.
  intros [H0 H1]. unfold of_integer.
  rewrite round_to_double_small by exact H1.
  pose proof safe_below_max_value as Hmax.
  replace (MAX_VALUE <? m) with false
    by (symmetry; apply Z.ltb_ge; lia).
  reflexivity.
Qed.

(** A numeral with a minus sign never denotes a positive number. *)
Lemma of_integer_minus (m : Z) :
  0 <= m ->
  match of_integer true m with
  | Int z => z <= 0
  | PosInfinity => False
  | _ => True
  end.
Proof.
  intros H. unfold of_integer.
  pose proof (round_to_double_nonneg m H) as Hr.
  destruct (MAX_VALUE <? round_to_double m); [exact I | lia].
Qed.

Lemma number_to_string_small (z : Z) :
  Z.abs z < 2 ^ 53 ->
  number_to_string (Int z)
  = if z <? 0 then String "-"%char (decimal (- z)) else decimal z.
Proof.
  intros H. unfold number_to_string, normal.
  rewrite of_integer_small by lia.
  unfold print_magnitude.
  destruct (Z.ltb_spec z 0) as [Hneg | Hpos].
  - replace (- Z.abs z <? 0) with true by (symmetry; apply Z.ltb_lt; lia).
    replace (- - Z.abs z) with (- z) by lia.
    replace (- z <? 2 ^ 53) with true by (symmetry; apply Z.ltb_lt; lia).
    reflexivity.
  - replace (Z.abs z) with z by lia.
    replace (z <? 0) with false by (symmetry; apply Z.ltb_ge; lia).
    replace (z <? 2 ^ 53) with true by (symmetry; apply Z.ltb_lt; lia).
    reflexivity.
Qed.

(** Number::toString at the edges: the last safe integer, the first
    integers that are rounded, the last number printed in full and the
    first ones printed in exponent notation, of which [parseInt] reads the
    digits before the point. *)
Example number_to_string_samples :
  number_to_string (Int MAX_SAFE_INTEGER) = "9007199254740991"%string
  /\ number_to_string (Int (2 ^ 53 + 1)) = "9007199254740992"%string
  /\ number_to_string (Int (2 ^ 69)) = "590295810358705700000"%string
  /\ number_to_string (Int (10 ^ 21)) = "1e+21"%string
  /\ number_to_string (Int (- 2 ^ 70)) = "-1.1805916207174113e+21"%string
  /\ number_to_string (Int MAX_VALUE) = "1.7976931348623157e+308"%string
  /\ number_to_string (Int (2 ^ 1024)) = "Infinity"%string
  /\ parseInt (VNumber (Int (10 ^ 21))) = Int 1
  /\ parseInt (VNumber (Int (- 2 ^ 70))) = Int (- 1)
  /\ parseInt (VString "99999999999999999999999")
     = Int 99999999999999991611392.
Proof. repeat split; vm_compute; reflexivity. Qed.

Lemma scan_digits_nonneg (s : string) :
  forall acc m,
    match acc with Some a => 0 <= a | None => True end ->
    scan_digits s acc = Some m -> 0 <= m.
Proof.
  induction s as [| c rest IH]; intros acc m Hacc; cbn [scan_digits].
  - intros ->. exact Hacc.
  - destruct (is_digit c) eqn:Hc.
    + apply IH.
      unfold is_digit in Hc. apply andb_true_iff in Hc.
      destruct Hc as [Hc _]. apply Z.leb_le in Hc.
      unfold digit_value. destruct acc as [a | ]; lia.
    + intros ->. exact Hacc.
Qed.

(** [parseInt] gives back a safe integer it is handed. *)
Lemma parseInt_integer (z : Z) :
  Z.abs z <= MAX_SAFE_INTEGER -> parseInt (VNumber (Int z)) = Int z.
Proof.
  unfold MAX_SAFE_INTEGER. intros Hz.
  unfold parseInt, to_string. cbn [ToString].
  rewrite number_to_string_small by lia.
  destruct (Z.ltb_spec z 0) as [Hneg | Hpos].
  - cbn [trim_start]. change (is_space "-") with false. cbv iota.
    rewrite scan_decimal by lia.
    rewrite of_integer_small by lia. f_equal. lia.
  - destruct (decimal_head z Hpos) as (c & rest & E & Hc).
    destruct (digit_not_space_or_sign c Hc) as (Hs & Hm & Hp).
    pose proof (scan_decimal z Hpos) as Hscan.
    rewrite E in *. cbn [trim_start]. rewrite Hs.
    destruct c as [[] [] [] [] [] [] [] []];
      try (rewrite Hscan; apply of_integer_small; lia);
      solve [exfalso; apply Hm; reflexivity | exfalso; apply Hp; reflexivity].
Qed.

Lemma number_to_string_negative (z : Z) :
  z < 0 ->
  (exists t, number_to_string (Int z) = String "-"%char t)
  \/ number_to_string (Int z) = "0"%string.
Proof.
  intros Hz. unfold number_to_string, normal.
  replace (z <? 0) with true by (symmetry; apply Z.ltb_lt; lia).
  unfold of_integer.
  pose proof (round_to_double_nonneg (Z.abs z) (Z.abs_nonneg z)) as Hr.
  destruct (MAX_VALUE <? round_to_double (Z.abs z)).
  - left. eexists. reflexivity.
  - destruct (Z.ltb_spec (- round_to_double (Z.abs z)) 0) as [Hlt | Hge].
    + left. eexists. reflexivity.
    + right. replace (- round_to_double (Z.abs z)) with 0 by lia.
      reflexivity.
Qed.

(** Of a negative number, whatever its magnitude and however it is
    printed, [parseInt] reads the minus sign. *)
Lemma parseInt_negative (z : Z) :
  z < 0 ->
  match parseInt (VNumber (Int z)) with
  | Int z' => z' <= 0
  | PosInfinity => False
  | _ => True
  end.
Proof.
  intros Hz. unfold parseInt, to_string. cbn [ToString].
  destruct (number_to_string_negative z Hz) as [[t ->] | ->].
  - cbn [trim_start]. change (is_space "-") with false. cbv iota.
    destruct (scan_digits t None) as [m | ] eqn:Hscan; [ | exact I].
    apply of_integer_minus.
    apply (scan_digits_nonneg t None m I Hscan).
  - vm_compute. discriminate.
Qed.

Lemma scan_no_digit (s : string) :
  match s with
  | String c _ => is_digit c
  | EmptyString => false
  end = false ->
  scan_digits s None = None.
Proof.
  destruct s as [| c rest]; cbn [scan_digits]; [reflexivity | ].
  intros ->. reflexivity.
Qed.

(** [parseInt] by the numeral that leads the string form. *)
Lemma parseInt_leading_numeral (v : value) :
  parseInt v
  = match Timers.leading_numeral (to_string v) with
    | Some (negative, m) => of_integer negative m
    | None => NaN
    end.
Proof.
  unfold parseInt, Timers.leading_numeral.
  match goal with
  | |- context [match ?p with pair _ _ => _ end] =>
      destruct p as [negative body]
  end.
  destruct (scan_digits body None); reflexivity.
Qed.

Lemma leading_numeral_nonneg (s : string) (negative : bool) (m : Z) :
  Timers.leading_numeral s = Some (negative, m) -> 0 <= m.
Proof.
  unfold Timers.leading_numeral.
  match goal with
  | |- context [match ?p with pair _ _ => _ end] =>
      destruct p as [sign body]
  end.
  destruct (scan_digits body None) as [m' | ] eqn:Hscan; [ | discriminate].
  intros H. injection H as _ <-.
  apply (scan_digits_nonneg body None m' I Hscan).
Qed.

(** What [parseInt] makes of every duration the wrappers replace: never a
    positive number. *)
Lemma parseInt_invalid (v : value) :
  Timers.invalid_duration v = true ->
  match parseInt v with
  | Int z => z <= 0
  | PosInfinity => False
  | _ => True
  end.
Proof.
  assert (Hgeneric : forall w,
            match
              match ToString w with
              | Some s => Timers.class_of_numeral (Timers.leading_numeral s)
              | None => Timers.Unconvertible
              end
            with
            | Timers.Absent | Timers.Zero | Timers.Negative
            | Timers.NonNumeric | Timers.NonFinite => true
            | _ => false
            end = true ->
            match parseInt w with
            | Int z => z <= 0
            | PosInfinity => False
            | _ => True
            end).
  { intros w. rewrite parseInt_leading_numeral. unfold to_string.
    destruct (ToString w) as [s | ]; [ | discriminate].
    destruct (Timers.leading_numeral s) as [[negative m] | ] eqn:E;
      [ | intros _; exact I].
    pose proof (leading_numeral_nonneg s negative m E) as Hm.
    unfold Timers.class_of_numeral.
    destruct (Z.eqb_spec m 0) as [-> | Hnz].
    - intros _. rewrite of_integer_small by (split; [lia | reflexivity]).
      destruct negative; lia.
    - destruct negative; [ | discriminate].
      intros _. apply of_integer_minus. exact Hm. }
  unfold Timers.invalid_duration, Timers.classify.
  destruct v as [| | b | n | z | s | r | r | r c a | r conv | p | ];
    [ | exact (Hgeneric VNull) | exact (Hgeneric (VBool b)) |
    | exact (Hgeneric (VBigInt z)) | exact (Hgeneric (VString s))
    | exact (Hgeneric (VSymbol r)) | exact (Hgeneric (VObject r))
    | exact (Hgeneric (VFunction r c a)) | exact (Hgeneric (VExotic r conv))
    | exact (Hgeneric (VBoxed p)) | exact (Hgeneric VGlobal) ].
  - intros _. vm_compute. exact I.
  - destruct n as [| | | z];
      [intros _; vm_compute; exact I | intros _; vm_compute; exact I
      | intros _; vm_compute; exact I | ].
    intros H.
    destruct (Z.eqb_spec z 0) as [-> | Hnz]; [vm_compute; discriminate | ].
    destruct (Z.ltb_spec z 0) as [Hneg | Hpos]; [ | discriminate].
    exact (parseInt_negative z Hneg).
Qed.

(** ** Sanitised durations *)

Lemma timers_sanitized_invalid (v : value) :
  Timers.invalid_duration v = true ->
  Timers.getSanitizedPositiveInteger v = 0.
Proof.
  intros H. unfold Timers.getSanitizedPositiveInteger, Timers.getSanitizedInteger.
  pose proof (parseInt_invalid v H) as Hp.
  destruct (parseInt v) as [| | | z]; try reflexivity.
  destruct (isSafeInteger (Int z) && negb (z =? 0)); lia.
Qed.

Lemma clocked_sanitized_invalid (v : value) :
  Timers.invalid_duration v = true ->
  Clocked.getSanitizedPositiveInteger v = 0.
Proof.
  intros H.
  unfold Clocked.getSanitizedPositiveInteger, Clocked.getSanitizedInteger.
  pose proof (parseInt_invalid v H) as Hp.
  destruct (parseInt v) as [| | | z]; try reflexivity.
  cbn [isFinite]. lia.
Qed.

Lemma timers_sanitized_positive (n : Z) :
  0 < n <= MAX_SAFE_INTEGER ->
  Timers.getSanitizedPositiveInteger (VNumber (Int n)) = n.
Proof.
  intros [Hlo Hhi].
  unfold Timers.getSanitizedPositiveInteger, Timers.getSanitizedInteger.
  rewrite parseInt_integer by lia. unfold isSafeInteger.
  replace (- MAX_SAFE_INTEGER <=? n) with true
    by (symmetry; apply Z.leb_le; unfold MAX_SAFE_INTEGER in *; lia).
  replace (n <=? MAX_SAFE_INTEGER) with true by (symmetry; apply Z.leb_le; lia).
  replace (n =? 0) with false by (symmetry; apply Z.eqb_neq; lia).
  cbn [andb negb]. lia.
Qed.

Lemma clocked_sanitized_positive (n : Z) :
  0 < n <= MAX_SAFE_INTEGER ->
  Clocked.getSanitizedPositiveInteger (VNumber (Int n)) = n.
Proof.
  intros Hn.
  unfold Clocked.getSanitizedPositiveInteger, Clocked.getSanitizedInteger.
  rewrite parseInt_integer by lia. cbn [isFinite]. lia.
Qed.

Lemma or_default_positive (n d : Z) : 0 < n -> Timers.or_default n d = n.
Proof.
  intros Hn. unfold Timers.or_default.
  destruct (Z.eqb_spec n 0); [lia | reflexivity].
Qed.

(** *** The wrappers *)

Lemma sloppy_this_function (f : value) :
  isFunction f = true -> sloppy_this f = f.
Proof. destruct f; try discriminate. reflexivity. Qed.

Lemma sloppy_this_invocable (v : value) :
  isFunction (sloppy_this v) = isFunction v.
Proof. destruct v; reflexivity. Qed.

(** A duration of a class the wrappers replace has a string form. *)
Lemma invalid_duration_converts (v : value) :
  Timers.invalid_duration v = true -> exists s, ToString v = Some s.
Proof.
  assert (Hgeneric : forall w,
            match
              match ToString w with
              | Some s => Timers.class_of_numeral (Timers.leading_numeral s)
              | None => Timers.Unconvertible
              end
            with
            | Timers.Absent | Timers.Zero | Timers.Negative
            | Timers.NonNumeric | Timers.NonFinite => true
            | _ => false
            end = true ->
            exists s, ToString w = Some s).
  { intros w. destruct (ToString w) as [s | ]; [ | discriminate].
    intros _. exists s. reflexivity. }
  unfold Timers.invalid_duration, Timers.classify.
  destruct v as [| | b | n | z | s | r | r | r c a | r conv | p | ];
    [ | exact (Hgeneric VNull) | exact (Hgeneric (VBool b)) |
    | exact (Hgeneric (VBigInt z)) | exact (Hgeneric (VString s))
    | exact (Hgeneric (VSymbol r)) | exact (Hgeneric (VObject r))
    | exact (Hgeneric (VFunction r c a)) | exact (Hgeneric (VExotic r conv))
    | exact (Hgeneric (VBoxed p)) | exact (Hgeneric VGlobal) ];
    intros _; eexists; reflexivity.
Qed.

(** What the three wrappers return for a function and a duration that has
    a string form. *)
Lemma throttle_governs (f d flag tg : value) (s : string) :
  isFunction f = true -> ToString d = Some s ->
  Throttle.throttle f d flag tg =
    Governed
      {| Throttle.proceed := f;
         Throttle.threshold :=
           Timers.or_default (Timers.getSanitizedPositiveInteger d)
                             Timers.DEFAULT_THROTTLE_THRESHOLD;
         Throttle.isSuppressTrailingCall := truthy flag;
         Throttle.target := getSanitizedTarget tg |}.
Proof.
  intros Hf Hd. unfold Throttle.throttle.
  rewrite (sloppy_this_function f Hf), Hf, Hd. reflexivity.
Qed.

Lemma debounce_governs (f d flag tg : value) (s : string) :
  isFunction f = true -> ToString d = Some s ->
  Debounce.debounce f d flag tg =
    Governed
      {| Debounce.proceed := f;
         Debounce.delay :=
           Timers.or_default (Timers.getSanitizedPositiveInteger d)
                             Timers.DEFAULT_DEBOUNCE_DELAY;
         Debounce.isTriggerImmediately := truthy flag;
         Debounce.target := getSanitizedTarget tg |}.
Proof.
  intros Hf Hd. unfold Debounce.debounce.
  rewrite (sloppy_this_function f Hf), Hf, Hd. reflexivity.
Qed.

Lemma clocked_governs (f d tg : value) (c : option Clocked.controller_fn)
  (s : string) :
  isFunction f = true -> ToString d = Some s ->
  Clocked.createClockedFunction f d tg c =
    Governed
      {| Clocked.proceed := f;
         Clocked.cfg_interval :=
           Timers.or_default (Clocked.getSanitizedPositiveInteger d)
                             Clocked.DEFAULT_INTERVAL;
         Clocked.target := getSanitizedTarget tg;
         Clocked.controller := c |}.
Proof.
  intros Hf Hd. unfold Clocked.createClockedFunction.
  rewrite Hf, Hd. reflexivity.
Qed.

(** What a wrapper that returned a governed callable was given. *)
Lemma throttle_governed (f d flag tg : value) (g : Throttle.config) :
  Throttle.throttle f d flag tg = Governed g ->
  Throttle.threshold g =
    Timers.or_default (Timers.getSanitizedPositiveInteger d)
                      Timers.DEFAULT_THROTTLE_THRESHOLD.
Proof.
  unfold Throttle.throttle.
  destruct (negb (isFunction (sloppy_this f))); [discriminate | ].
  destruct (ToString d); [ | discriminate].
  intros H. injection H as <-. reflexivity.
Qed.

Lemma debounce_governed (f d flag tg : value) (g : Debounce.config) :
  Debounce.debounce f d flag tg = Governed g ->
  Debounce.delay g =
    Timers.or_default (Timers.getSanitizedPositiveInteger d)
                      Timers.DEFAULT_DEBOUNCE_DELAY.
Proof.
  unfold Debounce.debounce.
  destruct (negb (isFunction (sloppy_this f))); [discriminate | ].
  destruct (ToString d); [ | discriminate].
  intros H. injection H as <-. reflexivity.
Qed.

Lemma clocked_governed (f d tg : value) (c : option Clocked.controller_fn)
  (g : Clocked.config) :
  Clocked.createClockedFunction f d tg c = Governed g ->
  Clocked.cfg_interval g =
    Timers.or_default (Clocked.getSanitizedPositiveInteger d)
                      Clocked.DEFAULT_INTERVAL.
Proof.
  unfold Clocked.createClockedFunction.
  destruct (ToString d); [ | discriminate].
  destruct (isFunction f); [ | discriminate].
  intros H. injection H as <-. reflexivity.
Qed.

(** The interval a clocked callable runs on is positive, whatever was
    passed. *)
Lemma clocked_interval_positive (f i tg : value)
  (c : option Clocked.controller_fn) (g : Clocked.config) :
  Clocked.createClockedFunction f i tg c = Governed g ->
  0 < Clocked.cfg_interval g.
Proof.
  intros H. rewrite (clocked_governed f i tg c g H).
  unfold Timers.or_default, Clocked.getSanitizedPositiveInteger,
    Clocked.DEFAULT_INTERVAL.
  destruct (Z.eqb_spec (Z.max (Clocked.getSanitizedInteger i) 0) 0); lia.
Qed.

(** *** Not invocable *)

(** C6.  The code misses the claim at a primitive input, and at a
    duration that has no string form.  [Function.throttle(42, 300)] and
    [Function.debounce(42, 300)] return the wrapper object of 42, an object,
    where the claim has 42 itself; on [null] they return the global object;
    on the string ["f"] its wrapper object.  [clocked], in its strict-mode
    file, returns 42 itself; but it sanitises the interval before its guard,
    and called on 42 with a symbol for interval it throws a [TypeError],
    where [throttle] and [debounce], which test the guard first, return. *)
Theorem static_wrappers_box_a_primitive_input :
  Throttle.staticThrottle (VNumber (Int 42)) (VNumber (Int 300))
    VUndefined VUndefined
  = Unchanged (VBoxed (VNumber (Int 42)))
  /\ Debounce.staticDebounce (VNumber (Int 42)) (VNumber (Int 300))
       VUndefined VUndefined
     = Unchanged (VBoxed (VNumber (Int 42)))
  /\ VBoxed (VNumber (Int 42)) <> VNumber (Int 42)
  /\ Throttle.staticThrottle VNull (VNumber (Int 300)) VUndefined VUndefined
     = Unchanged VGlobal
  /\ Debounce.staticDebounce (VString "f") (VNumber (Int 300))
       VUndefined VUndefined
     = Unchanged (VBoxed (VString "f"))
  /\ Clocked.createClockedFunction (VNumber (Int 42)) (VNumber (Int 300))
       VUndefined None
     = Unchanged (VNumber (Int 42))
  /\ Clocked.createClockedFunction (VNumber (Int 42)) (VSymbol 0)
       VUndefined None
     = Threw
  /\ Throttle.staticThrottle (VObject 1) (VSymbol 0) VUndefined VUndefined
     = Unchanged (VObject 1).
Proof.
  repeat split; try reflexivity. discriminate.
Qed.

(** X20.  What does hold of the guards of throttle/index.js.  [throttle]
    and [debounce] never throw on an input that is not invocable, whatever
    the other arguments are, and return what they found in [this]: the
    input itself exactly when it is an object. *)
Theorem sloppy_guards_return_their_this
  (v duration flag tg : value) :
  isFunction v = false ->
  Throttle.throttle v duration flag tg = Unchanged (sloppy_this v)
  /\ Debounce.debounce v duration flag tg = Unchanged (sloppy_this v)
  /\ (sloppy_this v = v <->
      match v with
      | VObject _ | VFunction _ _ _ | VExotic _ _ | VBoxed _ | VGlobal => True
      | _ => False
      end).
Proof.
  intros H.
  unfold Throttle.throttle, Debounce.debounce.
  rewrite sloppy_this_invocable, H. cbn [negb].
  split; [reflexivity | ]. split; [reflexivity | ].
  destruct v; cbn [sloppy_this]; split; intros H'; try exact I;
    try reflexivity; try discriminate H'; try destruct H'.
Qed.

Lemma sloppy_guards_return_their_this_witness :
  Throttle.throttle (VObject 7) (VSymbol 0) VUndefined VUndefined
  = Unchanged (VObject 7)
  /\ Debounce.debounce (VObject 7) (VSymbol 0) VUndefined VUndefined
     = Unchanged (VObject 7).
Proof.
  destruct (sloppy_guards_return_their_this
              (VObject 7) (VSymbol 0) VUndefined VUndefined eq_refl)
    as (Ht & Hd & _).
  split; [exact Ht | exact Hd].
Defined.

(** X21.  [clocked] returns an input that is not invocable as it is,
    primitive or not, whenever the interval has a string form; it throws
    otherwise. *)
Theorem clocked_guard_returns_the_input
  (v interval tg : value) (c : option Clocked.controller_fn) :
  isFunction v = false ->
  Clocked.createClockedFunction v interval tg c
  = match ToString interval with
    | Some _ => Unchanged v
    | None => Threw
    end.
Proof.
  intros H. unfold Clocked.createClockedFunction.
  rewrite H. destruct (ToString interval); reflexivity.
Qed.

Lemma clocked_guard_returns_the_input_witness :
  Clocked.createClockedFunction VNull (VString "soon") VUndefined None
  = Unchanged VNull.
Proof.
  exact (clocked_guard_returns_the_input
           VNull (VString "soon") VUndefined None eq_refl).
Defined.

(** *** Durations *)

(** C7, as stated, fails.  A string is not a number, yet ["12px"] is read
    by its numeral and used as 12; 2^53 is a positive integer, yet
    [throttle] and [debounce] replace it by their default (only [clocked]
    keeps it); a symbol is not a number, and the wrappers throw a
    [TypeError] on it instead of using the default. *)
Lemma duration_numeral_prefix_unsafe_integer_and_symbol :
  (exists g, Throttle.throttle (VFunction 0 true true) (VString "12px")
               VUndefined VUndefined = Governed g
             /\ Throttle.threshold g = 12
             /\ Throttle.threshold g <> 200)
  /\ (exists g, Throttle.throttle (VFunction 0 true true)
                  (VNumber (Int (2 ^ 53))) VUndefined VUndefined = Governed g
                /\ Throttle.threshold g = 200
                /\ Throttle.threshold g <> 2 ^ 53)
  /\ (exists g, Debounce.debounce (VFunction 0 true true)
                  (VNumber (Int (2 ^ 53))) VUndefined VUndefined = Governed g
                /\ Debounce.delay g = 100
                /\ Debounce.delay g <> 2 ^ 53)
  /\ (exists g, Clocked.createClockedFunction (VFunction 0 true true)
                  (VNumber (Int (2 ^ 53))) VUndefined None = Governed g
                /\ Clocked.cfg_interval g = 2 ^ 53)
  /\ Throttle.throttle (VFunction 0 true true) (VSymbol 0)
       VUndefined VUndefined = Threw
  /\ Debounce.debounce (VFunction 0 true true) (VSymbol 0)
       VUndefined VUndefined = Threw
  /\ Clocked.createClockedFunction (VFunction 0 true true) (VSymbol 0)
       VUndefined None = Threw.
Proof.
  split; [eexists; split; [reflexivity | vm_compute; split;
                           [reflexivity | discriminate]] | ].
  split; [eexists; split; [reflexivity | vm_compute; split;
                           [reflexivity | discriminate]] | ].
  split; [eexists; split; [reflexivity | vm_compute; split;
                           [reflexivity | discriminate]] | ].
  split; [eexists; split; [reflexivity | vm_compute; reflexivity] | ].
  repeat split.
Qed.

(** C7, amended.  A duration that is absent, zero, negative or non-finite,
    or that is not a number and has a string form which no positive numeral
    leads (no numeral leads it, or one that is zero or has a minus sign),
    makes the governor run on the default (200 ms for throttle and clocked,
    100 ms for debounce), and the wrapper returns a governed callable: no
    error surfaces; a positive integer up to [Number.MAX_SAFE_INTEGER] is
    used as given. *)
Theorem duration_defaults_or_is_used_as_given
  (f flag tg : value) (c : option Clocked.controller_fn) :
  isFunction f = true ->
  (forall v, Timers.invalid_duration v = true ->
     (exists g, Throttle.throttle f v flag tg = Governed g
                /\ Throttle.threshold g = 200)
     /\ (exists g, Debounce.debounce f v flag tg = Governed g
                   /\ Debounce.delay g = 100)
     /\ (exists g, Clocked.createClockedFunction f v tg c = Governed g
                   /\ Clocked.cfg_interval g = 200))
  /\
  (forall n, 0 < n <= MAX_SAFE_INTEGER ->
     (exists g, Throttle.throttle f (VNumber (Int n)) flag tg = Governed g
                /\ Throttle.threshold g = n)
     /\ (exists g, Debounce.debounce f (VNumber (Int n)) flag tg = Governed g
                   /\ Debounce.delay g = n)
     /\ (exists g, Clocked.createClockedFunction f (VNumber (Int n)) tg c
                   = Governed g
                   /\ Clocked.cfg_interval g = n)).
Proof.
  intros Hf.
  split.
  - intros v Hv.
    destruct (invalid_duration_converts v Hv) as [s Hs].
    rewrite (throttle_governs f v flag tg s Hf Hs),
      (debounce_governs f v flag tg s Hf Hs),
      (clocked_governs f v tg c s Hf Hs).
    repeat split; eexists; (split; [reflexivity | ]);
      cbn [Throttle.threshold Debounce.delay Clocked.cfg_interval];
      rewrite ?timers_sanitized_invalid, ?clocked_sanitized_invalid by exact Hv;
      reflexivity.
  - intros n Hn.
    rewrite (throttle_governs f (VNumber (Int n)) flag tg _ Hf eq_refl),
      (debounce_governs f (VNumber (Int n)) flag tg _ Hf eq_refl),
      (clocked_governs f (VNumber (Int n)) tg c _ Hf eq_refl).
    repeat split; eexists; (split; [reflexivity | ]);
      cbn [Throttle.threshold Debounce.delay Clocked.cfg_interval];
      rewrite ?timers_sanitized_positive, ?clocked_sanitized_positive by lia;
      apply or_default_positive; lia.
Qed.

Lemma duration_defaults_or_is_used_as_given_witness :
  ((exists g, Throttle.throttle (VFunction 0 true true) (VString "soon")
                VUndefined VUndefined = Governed g
              /\ Throttle.threshold g = 200)
   /\ (exists g, Debounce.debounce (VFunction 0 true true) (VString "soon")
                   VUndefined VUndefined = Governed g
                 /\ Debounce.delay g = 100)
   /\ (exists g, Clocked.createClockedFunction (VFunction 0 true true)
                   (VString "soon") VUndefined None = Governed g
                 /\ Clocked.cfg_interval g = 200))
  /\
  ((exists g, Throttle.throttle (VFunction 0 true true) (VNumber (Int 3000))
                VUndefined VUndefined = Governed g
              /\ Throttle.threshold g = 3000)
   /\ (exists g, Debounce.debounce (VFunction 0 true true) (VNumber (Int 3000))
                   VUndefined VUndefined = Governed g
                 /\ Debounce.delay g = 3000)
   /\ (exists g, Clocked.createClockedFunction (VFunction 0 true true)
                   (VNumber (Int 3000)) VUndefined None = Governed g
                 /\ Clocked.cfg_interval g = 3000)).
Proof.
  destruct (duration_defaults_or_is_used_as_given
              (VFunction 0 true true) VUndefined VUndefined None eq_refl)
    as [Hdefault Hgiven].
  split.
  - apply (Hdefault (VString "soon")). reflexivity.
  - apply (Hgiven 3000). unfold MAX_SAFE_INTEGER. split; [lia | ].
    vm_compute. discriminate.
Defined.

(* ================================================================== *)
(** ** The clocked governor                                             *)
(* ================================================================== *)

Section ClockedFacts.
Variable cfg : Clocked.config.

Lemma drop_single (T : Type) (id d : Z) (p : option Z) (j : T) :
  drop id [ {| tid := id; due := d; period := p; job := j |} ] = [].
Proof. unfold drop. cbn. rewrite Z.eqb_refl. reflexivity. Qed.

Lemma clocked_inv_start (t0 : Z) : Clocked.invariant cfg (Clocked.start t0).
Proof. unfold Clocked.invariant. cbn. auto. Qed.

Lemma clocked_inv_tick_clock (w : Clocked.World) (t : Z) :
  Clocked.invariant cfg w -> Clocked.invariant cfg (tick_clock t w).
Proof. unfold Clocked.invariant. cbn. trivial. Qed.

(** After [terminate] nothing is registered and nothing is set. *)
Lemma clocked_terminate_clears (w : Clocked.World) :
  Clocked.invariant cfg w ->
  pending (svc (Clocked.terminate w)) = []
  /\ Clocked.timerId (st (Clocked.terminate w)) = None
  /\ Clocked.clockCount (st (Clocked.terminate w)) = None
  /\ Clocked.clockStart (st (Clocked.terminate w)) = None.
Proof.
  unfold Clocked.invariant, Clocked.terminate, clearInterval, clearTimeout.
  destruct (Clocked.timerId (st w)) as [id | ]; cbn.
  - intros [[d ->] _]. rewrite drop_single. repeat split.
  - intros (-> & _). auto.
Qed.

Lemma clocked_inv_terminate (w : Clocked.World) :
  Clocked.invariant cfg w -> Clocked.invariant cfg (Clocked.terminate w).
Proof.
  intros H. destruct (clocked_terminate_clears w H) as (Hp & Ht & Hc & Hs).
  unfold Clocked.invariant. rewrite Ht. auto.
Qed.

(** What an invocation leaves behind, spelled out. *)
Lemma clocked_call_result (w : Clocked.World) (this : value)
  (args : list value) :
  Clocked.invariant cfg w ->
  let w' := Clocked.clocked cfg this args w in
  pending (svc w') =
    [ {| tid := next_id (svc w);
         due := now (svc w) + Clocked.cfg_interval cfg;
         period := Some (Clocked.cfg_interval cfg);
         job := Clocked.chosen_trigger cfg |} ]
  /\ next_id (svc w') = next_id (svc w) + 1
  /\ now (svc w') = now (svc w)
  /\ journal w' = journal w
  /\ st w' =
       {| Clocked.thisArg := coalesce (getSanitizedTarget this)
                               (Clocked.target cfg);
          Clocked.argsArr := args;
          Clocked.clockCount := Some 0;
          Clocked.clockStart := Some (now (svc w));
          Clocked.timerId := Some (next_id (svc w)) |}.
Proof.
  unfold Clocked.invariant, Clocked.clocked, Clocked.isActive,
    Clocked.terminate, clearInterval, clearTimeout, setInterval, arm.
  destruct (Clocked.timerId (st w)) as [id | ]; cbn.
  - intros [[d ->] _]. rewrite drop_single. repeat split.
  - intros (-> & _). repeat split.
Qed.

Lemma clocked_inv_clocked (w : Clocked.World) (this : value)
  (args : list value) :
  Clocked.invariant cfg w ->
  Clocked.invariant cfg (Clocked.clocked cfg this args w).
Proof.
  intros H.
  destruct (clocked_call_result w this args H) as (Hp & Hn & _ & _ & Hs).
  unfold Clocked.invariant. rewrite Hs, Hp, Hn. cbn.
  repeat split; try discriminate; [eauto | lia].
Qed.

Lemma clocked_inv_perform (a : Clocked.action) (w : Clocked.World) :
  Clocked.invariant cfg w -> Clocked.invariant cfg (Clocked.perform cfg a w).
Proof.
  destruct a as [this args | | this args]; cbn [Clocked.perform].
  - trivial.
  - apply clocked_inv_terminate.
  - apply clocked_inv_clocked.
Qed.

Lemma clocked_inv_actions (acts : list Clocked.action) :
  forall w : Clocked.World,
    Clocked.invariant cfg w ->
    Clocked.invariant cfg
      (fold_left (fun acc a => Clocked.perform cfg a acc) acts w).
Proof.
  induction acts as [| a acts IH]; intros w H; cbn [fold_left].
  - exact H.
  - apply IH, clocked_inv_perform, H.
Qed.

(** A tick of an active governor keeps the invariant. *)
Lemma clocked_inv_fire (tr : Clocked.trigger) (w : Clocked.World) :
  Clocked.invariant cfg w ->
  Clocked.isActive w = true ->
  Clocked.invariant cfg (Clocked.fire cfg tr w).
Proof.
  intros H Hact. destruct tr; cbn [Clocked.fire]; [ | exact H].
  unfold Clocked.triggerController.
  assert (Hinc : forall j,
    Clocked.invariant cfg
      (mkWorld (svc w)
         {| Clocked.thisArg := Clocked.thisArg (st w);
            Clocked.argsArr := Clocked.argsArr (st w);
            Clocked.clockCount :=
              Some (Clocked.increment (Clocked.clockCount (st w)));
            Clocked.clockStart := Clocked.clockStart (st w);
            Clocked.timerId := Clocked.timerId (st w) |} j)).
  { intros j. revert H Hact. unfold Clocked.invariant, Clocked.isActive. cbn.
    destruct (Clocked.timerId (st w)); [ | discriminate].
    intros (Hp & Hi & _ & Hs) _. repeat split; try assumption. discriminate. }
  destruct (Clocked.controller cfg) as [ctl | ].
  - apply clocked_inv_actions, Hinc.
  - apply Hinc.
Qed.

Lemma clocked_inv_dispatch (w : Clocked.World) (tm : timer Clocked.trigger) :
  Clocked.invariant cfg w ->
  In tm (pending (svc w)) ->
  Clocked.invariant cfg (dispatch (Clocked.fire cfg) tm w).
Proof.
  intros H Hin. unfold dispatch.
  assert (Hact : Clocked.isActive w = true).
  { revert H Hin. unfold Clocked.invariant, Clocked.isActive.
    destruct (Clocked.timerId (st w)); [reflexivity | ].
    intros (-> & _) []. }
  apply clocked_inv_fire; [ | exact Hact].
  revert H Hin Hact. unfold Clocked.invariant, Clocked.isActive. cbn.
  destruct (Clocked.timerId (st w)) as [id | ]; [ | discriminate].
  intros ([d Hp] & Hi & Hc & Hs) Hin _. rewrite Hp in *.
  destruct Hin as [<- | []]. cbn. rewrite Z.eqb_refl.
  repeat split; eauto.
Qed.

Lemma clocked_inv_step (w w' : Clocked.World) (l : Clocked.label) :
  Clocked.invariant cfg w -> Clocked.step cfg w l w' ->
  Clocked.invariant cfg w'.
Proof.
  intros H Hstep. destruct Hstep.
  - apply clocked_inv_clocked, clocked_inv_tick_clock, H.
  - apply clocked_inv_terminate, clocked_inv_tick_clock, H.
  - apply clocked_inv_dispatch; assumption.
Qed.

Lemma clocked_inv_steps (w w' : Clocked.World) (ls : list Clocked.label) :
  Clocked.steps cfg w ls w' -> Clocked.invariant cfg w ->
  Clocked.invariant cfg w'.
Proof.
  induction 1 as [w | w w1 w2 l ls Hstep _ IH]; intros H.
  - exact H.
  - apply IH. eapply clocked_inv_step; eassumption.
Qed.

Lemma clocked_inv_reachable (w : Clocked.World) :
  Clocked.reachable cfg w -> Clocked.invariant cfg w.
Proof.
  intros (t0 & ls & Hsteps).
  eapply clocked_inv_steps; [exact Hsteps | apply clocked_inv_start].
Qed.

(** *** Handles are never reused *)

Lemma in_drop (T : Type) (id : Z) (l : list (timer T)) (tm : timer T) :
  In tm (drop id l) -> In tm l /\ tid tm <> id.
Proof.
  unfold drop. intros H. apply filter_In in H. destruct H as [Hin Hneq].
  split; [exact Hin | ].
  apply negb_true_iff, Z.eqb_neq in Hneq. exact Hneq.
Qed.

Lemma in_rearm (T : Type) (tm x : timer T) (l : list (timer T)) :
  In x (rearm tm l) -> exists y, In y l /\ tid x = tid y.
Proof.
  unfold rearm. destruct (period tm) as [p | ].
  - intros H. apply in_map_iff in H. destruct H as (y & Hxy & Hin).
    exists y. split; [exact Hin | ].
    destruct (tid y =? tid tm); subst x; reflexivity.
  - intros H. apply in_drop in H. exists x. tauto.
Qed.

Lemma retired_tick_clock (old t : Z) (w : Clocked.World) :
  Clocked.retired old w -> Clocked.retired old (tick_clock t w).
Proof. unfold Clocked.retired. cbn. trivial. Qed.

Lemma retired_terminate (old : Z) (w : Clocked.World) :
  Clocked.retired old w -> Clocked.retired old (Clocked.terminate w).
Proof.
  unfold Clocked.retired, Clocked.terminate, clearInterval, clearTimeout.
  intros [Hlt Hall].
  destruct (Clocked.timerId (st w)); cbn; split; try assumption.
  intros tm Hin. apply in_drop in Hin. apply Hall, Hin.
Qed.

Lemma retired_clocked (old : Z) (w : Clocked.World) (this : value)
  (args : list value) :
  Clocked.retired old w ->
  Clocked.retired old (Clocked.clocked cfg this args w).
Proof.
  unfold Clocked.retired, Clocked.clocked, Clocked.isActive,
    Clocked.terminate, clearInterval, clearTimeout, setInterval, arm.
  intros [Hlt Hall].
  destruct (Clocked.timerId (st w)); cbn; (split; [lia | ]);
    intros tm Hin; apply in_app_or in Hin;
    destruct Hin as [Hin | [<- | []]]; cbn; try lia.
  - apply in_drop in Hin. apply Hall, Hin.
  - apply Hall, Hin.
Qed.

Lemma retired_actions (old : Z) (acts : list Clocked.action) :
  forall w : Clocked.World,
    Clocked.retired old w ->
    Clocked.retired old
      (fold_left (fun acc a => Clocked.perform cfg a acc) acts w).
Proof.
  induction acts as [| a acts IH]; intros w H; cbn [fold_left];
    [exact H | ].
  apply IH. destruct a as [this args | | this args]; cbn [Clocked.perform].
  - exact H.
  - apply retired_terminate, H.
  - apply retired_clocked, H.
Qed.

Lemma retired_fire (old : Z) (tr : Clocked.trigger) (w : Clocked.World) :
  Clocked.retired old w -> Clocked.retired old (Clocked.fire cfg tr w).
Proof.
  intros H. destruct tr; cbn [Clocked.fire]; [ | exact H].
  unfold Clocked.triggerController.
  destruct (Clocked.controller cfg); [apply retired_actions | ]; exact H.
Qed.

Lemma retired_step (old : Z) (w w' : Clocked.World) (l : Clocked.label) :
  Clocked.retired old w -> Clocked.step cfg w l w' ->
  Clocked.retired old w' /\ l <> Clocked.Ticked old.
Proof.
  intros H Hstep. destruct Hstep as [w t this args | w t | w tm Hin].
  - split; [ | discriminate].
    apply retired_clocked, retired_tick_clock, H.
  - split; [ | discriminate].
    apply retired_terminate, retired_tick_clock, H.
  - destruct H as [Hlt Hall]. split.
    + apply retired_fire. split; [exact Hlt | ].
      cbn. intros x Hx. apply in_rearm in Hx.
      destruct Hx as (y & Hy & ->). apply Hall, Hy.
    + intros E. injection E as E. exact (Hall tm Hin E).
Qed.

Lemma retired_steps (old : Z) (w w' : Clocked.World)
  (ls : list Clocked.label) :
  Clocked.steps cfg w ls w' -> Clocked.retired old w ->
  ~ In (Clocked.Ticked old) ls.
Proof.
  induction 1 as [w | w w1 w2 l ls Hstep _ IH]; intros H; [intros [] | ].
  destruct (retired_step old w w1 l H Hstep) as [H1 Hl].
  intros [E | Hin]; [exact (Hl E) | exact (IH H1 Hin)].
Qed.

(** The journal only grows while a controller runs. *)
Lemma journal_actions (acts : list Clocked.action) :
  forall w : Clocked.World,
    exists more,
      journal (fold_left (fun acc a => Clocked.perform cfg a acc) acts w)
      = journal w ++ more.
Proof.
  induction acts as [| a acts IH]; intros w; cbn [fold_left].
  - exists []. symmetry. apply app_nil_r.
  - destruct (IH (Clocked.perform cfg a w)) as [more ->].
    destruct a as [this args | | this args]; cbn [Clocked.perform].
    + cbn [journal]. rewrite <- app_assoc. eauto.
    + cbn [Clocked.terminate journal]. eauto.
    + unfold Clocked.clocked, Clocked.isActive, setInterval, arm.
      cbn. destruct (Clocked.timerId (st w)); cbn; eauto.
Qed.

End ClockedFacts.

(** *** Context capture *)

(** C1, as stated, fails.  [test.clocked(2000, target)] with a target
    object, invoked as a method of another object: the cycle runs on the
    call-site object, not on the target fixed at composition time. *)
Lemma clocked_call_site_context_overrules_fixed_target :
  exists g,
    Clocked.createClockedFunction (VFunction 0 true true)
      (VNumber (Int 2000)) (VObject 1) None = Governed g
    /\ Clocked.target g = VObject 1
    /\ Clocked.thisArg
         (st (Clocked.clocked g (VObject 2) [VString "fox"]
                (Clocked.start 1000))) = VObject 2
    /\ Clocked.thisArg
         (st (Clocked.clocked g (VObject 2) [VString "fox"]
                (Clocked.start 1000))) <> Clocked.target g.
Proof.
  eexists. split; [reflexivity | ]. cbn.
  repeat split. discriminate.
Qed.

(** C1, amended.  The context captured by an invocation is the call-site
    context whenever that is neither [null] nor [undefined], and the target
    fixed at composition time otherwise; every tick passes the captured
    context to the wrapped callable, or reports it as [target] to the
    controller. *)
Theorem clocked_captures_call_site_context_first
  (cfg : Clocked.config) (this : value) (args : list value)
  (w : Clocked.World) :
  Clocked.thisArg (st (Clocked.clocked cfg this args w))
  = (if nullish this then Clocked.target cfg else this)
  /\ (forall w0 : Clocked.World,
        journal (Clocked.triggerProceed w0)
        = journal w0 ++
            [ Clocked.Forwarded
                {| at_time := now (svc w0);
                   this_arg := Clocked.thisArg (st w0);
                   arguments := Clocked.argsArr (st w0) |} ])
  /\ (forall (w0 : Clocked.World) (ctl : Clocked.controller_fn),
        Clocked.controller cfg = Some ctl ->
        exists data more,
          journal (Clocked.triggerController cfg w0)
          = journal w0 ++ Clocked.HandedOver data :: more
          /\ Clocked.data_target data = Clocked.thisArg (st w0)).
Proof.
  split; [ | split].
  - unfold Clocked.clocked, Clocked.isActive, Clocked.terminate,
      setInterval, arm.
    cbn. destruct (Clocked.timerId (st w)); cbn;
      destruct this; reflexivity.
  - reflexivity.
  - intros w0 ctl Hctl. unfold Clocked.triggerController. rewrite Hctl.
    match goal with
    | |- context [fold_left ?f ?acts ?w1] =>
        destruct (journal_actions cfg acts w1) as [more Hmore]
    end.
    do 2 eexists. rewrite Hmore. cbn [journal].
    rewrite <- app_assoc. split; reflexivity.
Qed.

Lemma clocked_captures_call_site_context_first_witness :
  exists data more,
    journal
      (Clocked.triggerController
         {| Clocked.proceed := VFunction 0 true true;
            Clocked.cfg_interval := 500;
            Clocked.target := VObject 1;
            Clocked.controller := Some (fun _ => [Clocked.Terminate]) |}
         (Clocked.start 1000))
    = journal (Clocked.start 1000) ++ Clocked.HandedOver data :: more
    /\ Clocked.data_target data = Clocked.thisArg (st (Clocked.start 1000)).
Proof.
  destruct (clocked_captures_call_site_context_first
              {| Clocked.proceed := VFunction 0 true true;
                 Clocked.cfg_interval := 500;
                 Clocked.target := VObject 1;
                 Clocked.controller := Some (fun _ => [Clocked.Terminate]) |}
              VUndefined [] (Clocked.start 1000)) as (_ & _ & H).
  apply (H (Clocked.start 1000) (fun _ => [Clocked.Terminate])).
  reflexivity.
Defined.

(** *** The tick counter *)

(** C2, as stated, fails.  Without a controller the first tick forwards
    the call and leaves the counter where the invocation put it, at 0. *)
Lemma clocked_tick_without_controller_does_not_count :
  exists g w,
    Clocked.createClockedFunction (VFunction 0 true true)
      (VNumber (Int 50)) VNull None = Governed g
    /\ advance (Clocked.fire g) 1 1050
         (Clocked.clocked g VUndefined [VString "fox"] (Clocked.start 1000))
       = Some w
    /\ journal w =
         [ Clocked.Forwarded
             {| at_time := 1050; this_arg := VNull;
                arguments := [VString "fox"] |} ]
    /\ Clocked.clockCount (st w) = Some 0
    /\ Clocked.clockCount (st w) <> Some 1.
Proof.
  do 2 eexists. split; [reflexivity | ].
  split; [vm_compute; reflexivity | ].
  cbn. repeat split. discriminate.
Qed.

(** C2, amended.  An invocation sets the counter to 0.  With a controller,
    a tick increments the counter once and then reports it, so the first
    tick reports 1; when the controller only proceeds, the counter keeps
    that value.  Without a controller a tick invokes the wrapped callable
    with the captured context and arguments and leaves the counter as it
    is. *)
Theorem clocked_tick_counts_for_the_controller
  (cfg : Clocked.config) (w : Clocked.World) (n : Z) :
  Clocked.clockCount (st w) = Some n ->
  (forall this args w0,
      Clocked.clockCount (st (Clocked.clocked cfg this args w0)) = Some 0)
  /\ (forall ctl, Clocked.controller cfg = Some ctl ->
        let data :=
          {| Clocked.clock :=
               {| Clocked.interval := Clocked.cfg_interval cfg;
                  Clocked.startTime := Clocked.clockStart (st w);
                  Clocked.timestamp := now (svc w);
                  Clocked.count := n + 1 |};
             Clocked.data_target := Clocked.thisArg (st w);
             Clocked.data_args := Clocked.argsArr (st w) |} in
        let w' := Clocked.fire cfg (Clocked.chosen_trigger cfg) w in
        (exists more, journal w' = journal w ++ Clocked.HandedOver data :: more)
        /\ ((forall a, In a (ctl data) ->
               exists this args, a = Clocked.Proceed this args) ->
            Clocked.clockCount (st w') = Some (n + 1)))
  /\ (Clocked.controller cfg = None ->
        let w' := Clocked.fire cfg (Clocked.chosen_trigger cfg) w in
        journal w' =
          journal w ++
            [ Clocked.Forwarded
                {| at_time := now (svc w);
                   this_arg := Clocked.thisArg (st w);
                   arguments := Clocked.argsArr (st w) |} ]
        /\ Clocked.clockCount (st w') = Some n).
Proof.
  intros Hn. split; [ | split].
  - intros this args w0.
    unfold Clocked.clocked, Clocked.isActive, setInterval, arm. cbn.
    destruct (Clocked.timerId (st w0)); reflexivity.
  - intros ctl Hctl. unfold Clocked.chosen_trigger. rewrite Hctl.
    cbn [Clocked.fire]. unfold Clocked.triggerController.
    rewrite Hctl, Hn. cbn [Clocked.increment]. cbv zeta. split.
    + match goal with
      | |- context [fold_left ?f ?acts ?w1] =>
          destruct (journal_actions cfg acts w1) as [more Hmore]
      end.
      exists more. rewrite Hmore. cbn [journal].
      rewrite <- app_assoc. reflexivity.
    + match goal with
      | |- context [fold_left ?f ?acts ?w1] =>
          generalize acts; intros acts0;
          assert (Hgen : forall w2 : Clocked.World,
                     (forall a, In a acts0 ->
                        exists this args, a = Clocked.Proceed this args) ->
                     st (fold_left f acts0 w2) = st w2)
      end.
      { induction acts0 as [| a acts0 IH]; intros w2 Hall; [reflexivity | ].
        cbn [fold_left]. rewrite IH by (intros; apply Hall; now right).
        destruct (Hall a (or_introl eq_refl)) as (this & args & ->).
        reflexivity. }
      intros Hall. rewrite (Hgen _ Hall). reflexivity.
  - intros Hctl. unfold Clocked.chosen_trigger. rewrite Hctl.
    cbn. split; [reflexivity | exact Hn].
Qed.

Lemma clocked_tick_counts_for_the_controller_witness :
  let cfg :=
    {| Clocked.proceed := VFunction 0 true true;
       Clocked.cfg_interval := 500;
       Clocked.target := VObject 1;
       Clocked.controller :=
         Some (fun d => [Clocked.Proceed (Clocked.data_target d)
                           (Clocked.data_args d)]) |} in
  let w := Clocked.clocked cfg VUndefined [VString "Mr Snider"]
             (Clocked.start 1000) in
  Clocked.clockCount (st (Clocked.fire cfg (Clocked.chosen_trigger cfg) w))
  = Some (0 + 1).
Proof.
  intros cfg w.
  destruct (clocked_tick_counts_for_the_controller cfg w 0 eq_refl)
    as (_ & Hctl & _).
  destruct (Hctl _ eq_refl) as [_ Hkeep].
  apply Hkeep. intros a [<- | []]. eauto.
Defined.

(** *** [terminate] *)

(** C8. [terminate] leaves the handle, the start time and the counter
    cleared; doing it twice is doing it once; and on a governor that is not
    active (and satisfies the state invariant) it changes nothing at all.
    [terminate] has no failing outcome. *)
Theorem clocked_terminate_is_idempotent
  (cfg : Clocked.config) (w : Clocked.World) :
  Clocked.terminate (Clocked.terminate w) = Clocked.terminate w
  /\ (Clocked.timerId (st (Clocked.terminate w)) = None
      /\ Clocked.clockStart (st (Clocked.terminate w)) = None
      /\ Clocked.clockCount (st (Clocked.terminate w)) = None
      /\ Clocked.isActive (Clocked.terminate w) = false)
  /\ (Clocked.invariant cfg w -> Clocked.isActive w = false ->
      Clocked.terminate w = w).
Proof.
  split; [reflexivity | split; [repeat split | ]].
  destruct w as [sv [this args cnt strt id] j].
  unfold Clocked.invariant, Clocked.isActive, Clocked.terminate. cbn.
  destruct id; [discriminate | ].
  intros (_ & -> & ->) _. reflexivity.
Qed.

Lemma clocked_terminate_is_idempotent_witness :
  Clocked.terminate (Clocked.start 1000) = Clocked.start 1000.
Proof.
  apply (clocked_terminate_is_idempotent
           {| Clocked.proceed := VFunction 0 true true;
              Clocked.cfg_interval := 200;
              Clocked.target := VNull;
              Clocked.controller := None |}
           (Clocked.start 1000)).
  - apply clocked_inv_start.
  - reflexivity.
Defined.

(** *** Restart, and the state invariant *)

(** C9. Invoking an active governor drops its timer from the host, sets the
    counter to 0 and the start time to the clock reading of the call, and
    no later step of the system is a tick of the dropped timer.  The state
    invariant holds when the wrapper returns and every step (an invocation,
    [terminate], a tick) keeps it; under it, the governor is active exactly
    when the host has its timer registered, and the counter and the start
    time are set exactly when it is active. *)
Theorem clocked_restart_and_invariant (cfg : Clocked.config) :
  (forall (w : Clocked.World) (t : Z) (this : value) (args : list value)
          (old : Z),
      Clocked.invariant cfg w ->
      Clocked.timerId (st w) = Some old ->
      let w' := Clocked.clocked cfg this args (tick_clock t w) in
      (forall tm, In tm (pending (svc w')) -> tid tm <> old)
      /\ Clocked.clockCount (st w') = Some 0
      /\ now (svc w') = Z.max (now (svc w)) t
      /\ Clocked.clockStart (st w') = Some (now (svc w'))
      /\ (forall ls w'', Clocked.steps cfg w' ls w'' ->
                         ~ In (Clocked.Ticked old) ls))
  /\ (forall t0, Clocked.invariant cfg (Clocked.start t0))
  /\ (forall w l w',
        Clocked.invariant cfg w -> Clocked.step cfg w l w' ->
        Clocked.invariant cfg w')
  /\ (forall w,
        Clocked.invariant cfg w ->
        (Clocked.isActive w = true <-> pending (svc w) <> [])
        /\ (Clocked.timerId (st w) <> None <-> Clocked.isActive w = true)
        /\ (Clocked.clockCount (st w) <> None <-> Clocked.isActive w = true)
        /\ (Clocked.clockStart (st w) <> None <-> Clocked.isActive w = true)).
Proof.
  split; [ | split; [ | split]].
  - intros w t this args old Hinv Hold w'.
    pose proof (clocked_inv_tick_clock cfg w t Hinv) as Hinv'.
    destruct (clocked_call_result cfg (tick_clock t w) this args Hinv')
      as (Hp & Hn & Hnow & _ & Hs).
    fold w' in Hp, Hn, Hnow, Hs.
    assert (Hlt : old < next_id (svc w)).
    { revert Hinv. unfold Clocked.invariant. rewrite Hold. tauto. }
    assert (Hret : Clocked.retired old w').
    { split.
      - rewrite Hn. cbn. lia.
      - rewrite Hp. intros tm [<- | []]. cbn. lia. }
    split; [apply Hret | ].
    split; [rewrite Hs; reflexivity | ].
    split; [rewrite Hnow; reflexivity | ].
    split; [rewrite Hs, Hnow; reflexivity | ].
    intros ls w'' Hsteps. exact (retired_steps cfg old w' w'' ls Hsteps Hret).
  - apply clocked_inv_start.
  - intros w l w'. apply clocked_inv_step.
  - intros w. unfold Clocked.invariant, Clocked.isActive.
    destruct (Clocked.timerId (st w)) as [id | ].
    + intros ([d ->] & _ & Hc & Hs).
      repeat split; intros; try discriminate; try assumption; reflexivity.
    + intros (-> & -> & ->).
      repeat split; intros; try discriminate; congruence.
Qed.

Lemma clocked_restart_and_invariant_witness :
  let cfg :=
    {| Clocked.proceed := VFunction 0 true true;
       Clocked.cfg_interval := 500;
       Clocked.target := VObject 1;
       Clocked.controller := None |} in
  let w := Clocked.clocked cfg VUndefined [VString "one"]
             (Clocked.start 1000) in
  let w' := Clocked.clocked cfg VUndefined [VString "two"]
              (tick_clock 1200 w) in
  Clocked.clockCount (st w') = Some 0
  /\ Clocked.clockStart (st w') = Some 1200
  /\ (forall tm, In tm (pending (svc w')) -> tid tm <> 1).
Proof.
  intros cfg w w'.
  destruct (clocked_restart_and_invariant cfg) as (Hrestart & Hstart & Hstep & _).
  assert (Hinv : Clocked.invariant cfg w).
  { apply (Hstep (Clocked.start 1000) Clocked.Invoked).
    - apply Hstart.
    - exact (Clocked.step_invoke cfg (Clocked.start 1000) 1000 VUndefined
               [VString "one"]). }
  destruct (Hrestart w 1200 VUndefined [VString "two"] 1 Hinv eq_refl)
    as (Hgone & Hcount & _ & Hbegin & _).
  repeat split; assumption.
Defined.

(** *** No leading edge *)

(** C10. An invocation of a clocked callable reaches neither the wrapped
    callable nor the controller: the journal is as before, and all that is
    left is one interval timer, due one (positive) interval after the call.
    However far the clock is advanced short of that instant, nothing
    reaches the outside; the first forwarded call or hand-over is made by
    the first tick and carries the time of the call plus the interval. *)
Theorem clocked_call_never_fires_at_start
  (f i tg : value) (c : option Clocked.controller_fn) (cfg : Clocked.config)
  (w : Clocked.World) (t : Z) (this : value) (args : list value) :
  Clocked.createClockedFunction f i tg c = Governed cfg ->
  Clocked.invariant cfg w ->
  let w' := Clocked.clocked cfg this args (tick_clock t w) in
  let first_due := now (svc w') + Clocked.cfg_interval cfg in
  journal w' = journal w
  /\ now (svc w') < first_due
  /\ (exists tm,
        pending (svc w') = [tm]
        /\ due tm = first_due
        /\ job tm = Clocked.chosen_trigger cfg
        /\ next_due first_due (svc w') = Some tm
        /\ exists first more,
             journal (dispatch (Clocked.fire cfg) tm w')
             = journal w ++ first :: more
             /\ Clocked.event_time first = first_due)
  /\ (forall (fuel : nat) (t' : Z),
        t' < first_due ->
        exists w'',
          advance (Clocked.fire cfg) fuel t' w' = Some w''
          /\ journal w'' = journal w).
Proof.
  intros Hwrap Hinv w' first_due.
  pose proof (clocked_interval_positive f i tg c cfg Hwrap) as Hpos.
  pose proof (clocked_inv_tick_clock cfg w t Hinv) as Hinv'.
  destruct (clocked_call_result cfg (tick_clock t w) this args Hinv')
    as (Hp & _ & Hnow & Hj & _).
  fold w' in Hp, Hnow, Hj. cbn [journal tick_clock] in Hj.
  assert (Hdue : now (svc (tick_clock t w)) + Clocked.cfg_interval cfg
                 = first_due).
  { unfold first_due. rewrite Hnow. reflexivity. }
  rewrite Hdue in Hp.
  split; [exact Hj | ].
  split; [unfold first_due; lia | ].
  split.
  - eexists. split; [exact Hp | ].
    split; [reflexivity | ]. split; [reflexivity | ].
    split.
    + unfold next_due. rewrite Hp. cbn. rewrite Z.leb_refl. reflexivity.
    + unfold dispatch, expire. cbn [job due].
      replace (Z.max (now (svc w')) first_due) with first_due
        by (unfold first_due; lia).
      unfold Clocked.chosen_trigger, Clocked.fire, Clocked.triggerController,
        Clocked.triggerProceed.
      destruct (Clocked.controller cfg) as [ctl | ]; cbn [journal svc st now].
      * match goal with
        | |- context [fold_left ?fn ?acts ?w1] =>
            destruct (journal_actions cfg acts w1) as [more Hmore]
        end.
        do 2 eexists. rewrite Hmore. cbn [journal].
        rewrite <- app_assoc, Hj. split; reflexivity.
      * do 2 eexists. rewrite Hj. split; reflexivity.
  - intros fuel t' Ht'. unfold advance.
    rewrite drain_quiet.
    + eexists. split; [reflexivity | exact Hj].
    + unfold next_due. rewrite Hp. cbn.
      destruct (Z.leb_spec first_due t'); [lia | reflexivity].
Qed.

Lemma clocked_call_never_fires_at_start_witness :
  let cfg :=
    {| Clocked.proceed := VFunction 0 true true;
       Clocked.cfg_interval := 2000;
       Clocked.target := VObject 1;
       Clocked.controller := None |} in
  let w' := Clocked.clocked cfg VUndefined [VString "quick"]
              (tick_clock 1000 (Clocked.start 1000)) in
  journal w' = journal (Clocked.start 1000)
  /\ now (svc w') < now (svc w') + Clocked.cfg_interval cfg.
Proof.
  intros cfg w'.
  destruct (clocked_call_never_fires_at_start
              (VFunction 0 true true) (VNumber (Int 2000)) (VObject 1) None
              cfg (Clocked.start 1000) 1000 VUndefined [VString "quick"]
              eq_refl (clocked_inv_start cfg 1000))
    as (Hj & Hlt & _).
  split; assumption.
Defined.

(* ================================================================== *)
(** ** The throttle governor                                            *)
(* ================================================================== *)

Section ThrottleFacts.
Variable cfg : Throttle.config.

Lemma throttle_inv_start (t0 : Z) :
  Throttle.one_pending (Throttle.start t0).
Proof. left. reflexivity. Qed.

Lemma throttle_inv_tick_clock (w : Throttle.World) (t : Z) :
  Throttle.one_pending w -> Throttle.one_pending (tick_clock t w).
Proof. unfold Throttle.one_pending. cbn. trivial. Qed.

(** The first thing [throttled] does empties the queue. *)
Lemma throttle_clear_empties (w : Throttle.World) :
  Throttle.one_pending w ->
  pending (clearTimeout (Throttle.timeoutId (st w)) (svc w)) = [].
Proof.
  intros [Hnil | (tm & Hp & Hid & _)]; unfold clearTimeout.
  - destruct (Throttle.timeoutId (st w)); cbn; rewrite Hnil; reflexivity.
  - rewrite Hid, Hp. cbn. rewrite Z.eqb_refl. reflexivity.
Qed.

Lemma clearTimeout_keeps (T : Type) (h : option Z) (s : service T) :
  now (clearTimeout h s) = now s /\ next_id (clearTimeout h s) = next_id s.
Proof. destruct h; split; reflexivity. Qed.

(** A call fires at once or leaves one timer, never both. *)
Lemma throttled_outcome (w : Throttle.World) (this : value)
  (argsArray : list value) :
  Throttle.one_pending w ->
  let w' := Throttle.throttled cfg this argsArray w in
  let ctx := or_else (Throttle.target cfg) (getSanitizedTarget this) in
  (journal w' = journal w ++
                  [ {| at_time := now (svc w); this_arg := ctx;
                       arguments := argsArray |} ]
   /\ pending (svc w') = []
   /\ Throttle.timestampRecent (st w') = Some (now (svc w)))
  \/
  (journal w' = journal w
   /\ exists r,
        Throttle.timestampRecent (st w) = Some r /\ r <> 0
        /\ (Throttle.isSuppressTrailingCall cfg
            && (Throttle.threshold cfg <=? now (svc w) - r) = false)
        /\ pending (svc w') =
             [ {| tid := next_id (svc w);
                  due := now (svc w)
                         + Z.max (Throttle.threshold cfg - (now (svc w) - r)) 0;
                  period := None;
                  job := argsArray |} ]
        /\ next_id (svc w') = next_id (svc w) + 1
        /\ now (svc w') = now (svc w)
        /\ st w' =
             {| Throttle.timeoutId := Some (next_id (svc w));
                Throttle.timeGap := Some (now (svc w) - r);
                Throttle.timestampRecent := Some r;
                Throttle.timestampCurrent := Some (now (svc w));
                Throttle.context := ctx |}).
Proof.
  intros Hinv.
  pose proof (throttle_clear_empties w Hinv) as Hclear.
  destruct (clearTimeout_keeps _ (Throttle.timeoutId (st w)) (svc w))
    as [Hnow Hnext].
  unfold Throttle.throttled, Throttle.trigger, setTimeout, arm.
  destruct (Throttle.timestampRecent (st w)) as [r | ] eqn:Hr;
    cbn [truthy_num].
  - destruct (Z.eqb_spec r 0) as [Hz | Hnz]; cbn [negb].
    + left. cbn. rewrite Hclear, Hnow. repeat split.
    + destruct (Throttle.isSuppressTrailingCall cfg
                && (Throttle.threshold cfg
                    <=? now (clearTimeout (Throttle.timeoutId (st w)) (svc w))
                        - r)) eqn:Hs.
      * left. cbn. rewrite Hclear, Hnow. repeat split.
      * right. cbn. rewrite Hclear, Hnow, Hnext in *.
        split; [reflexivity | ]. exists r. repeat split; assumption.
  - left. cbn. rewrite Hclear, Hnow. repeat split.
Qed.

(** When the call is neither the first one nor a suppressing one that comes
    late enough, it schedules. *)
Lemma throttled_schedules (w : Throttle.World) (this : value)
  (argsArray : list value) (r : Z) :
  Throttle.one_pending w ->
  Throttle.timestampRecent (st w) = Some r -> r <> 0 ->
  Throttle.isSuppressTrailingCall cfg
  && (Throttle.threshold cfg <=? now (svc w) - r) = false ->
  Throttle.throttled cfg this argsArray w =
    mkWorld
      {| now := now (svc w);
         next_id := next_id (svc w) + 1;
         pending :=
           [ {| tid := next_id (svc w);
                due := now (svc w)
                       + Z.max (Throttle.threshold cfg - (now (svc w) - r)) 0;
                period := None;
                job := argsArray |} ] |}
      {| Throttle.timeoutId := Some (next_id (svc w));
         Throttle.timeGap := Some (now (svc w) - r);
         Throttle.timestampRecent := Some r;
         Throttle.timestampCurrent := Some (now (svc w));
         Throttle.context :=
           or_else (Throttle.target cfg) (getSanitizedTarget this) |}
      (journal w).
Proof.
  intros Hinv Hr Hnz Hs.
  pose proof (throttle_clear_empties w Hinv) as Hclear.
  destruct (clearTimeout_keeps _ (Throttle.timeoutId (st w)) (svc w))
    as [Hnow Hnext].
  unfold Throttle.throttled, setTimeout, arm.
  rewrite Hr. cbn [truthy_num].
  replace (r =? 0) with false by (symmetry; apply Z.eqb_neq; exact Hnz).
  cbn [negb]. rewrite Hnow, Hs, Hclear, Hnext. reflexivity.
Qed.

(** The first call, or one that finds a clock reading of 0 recorded, fires
    at once. *)
Lemma throttled_fires_first (w : Throttle.World) (this : value)
  (argsArray : list value) :
  Throttle.one_pending w ->
  truthy_num (Throttle.timestampRecent (st w)) = false ->
  Throttle.throttled cfg this argsArray w =
    mkWorld
      {| now := now (svc w); next_id := next_id (svc w); pending := [] |}
      {| Throttle.timeoutId := Throttle.timeoutId (st w);
         Throttle.timeGap := Throttle.timeGap (st w);
         Throttle.timestampRecent := Some (now (svc w));
         Throttle.timestampCurrent := Some (now (svc w));
         Throttle.context :=
           or_else (Throttle.target cfg) (getSanitizedTarget this) |}
      (journal w ++
         [ {| at_time := now (svc w);
              this_arg := or_else (Throttle.target cfg)
                            (getSanitizedTarget this);
              arguments := argsArray |} ]).
Proof.
  intros Hinv Hr.
  pose proof (throttle_clear_empties w Hinv) as Hclear.
  destruct (clearTimeout_keeps _ (Throttle.timeoutId (st w)) (svc w))
    as [Hnow Hnext].
  assert (Heta : clearTimeout (Throttle.timeoutId (st w)) (svc w)
                 = {| now := now (svc w); next_id := next_id (svc w);
                      pending := [] |}).
  { rewrite <- Hnow, <- Hnext, <- Hclear.
    destruct (clearTimeout (Throttle.timeoutId (st w)) (svc w)); reflexivity. }
  unfold Throttle.throttled, Throttle.trigger. rewrite Hr, Heta.
  reflexivity.
Qed.

Lemma throttle_inv_throttled (w : Throttle.World) (this : value)
  (argsArray : list value) :
  Throttle.one_pending w ->
  Throttle.one_pending (Throttle.throttled cfg this argsArray w).
Proof.
  intros Hinv.
  destruct (throttled_outcome w this argsArray Hinv)
    as [(_ & Hp & _) | (_ & r & _ & _ & _ & Hp & Hn & _ & Hs)].
  - left. exact Hp.
  - right. eexists. split; [exact Hp | ].
    rewrite Hs, Hn. cbn. repeat split. lia.
Qed.

Lemma throttle_inv_dispatch (w : Throttle.World) (tm : timer (list value)) :
  Throttle.one_pending w -> In tm (pending (svc w)) ->
  Throttle.one_pending (dispatch Throttle.trigger tm w).
Proof.
  intros [Hnil | (tm' & Hp & _ & Hper & _)] Hin.
  - rewrite Hnil in Hin. destruct Hin.
  - rewrite Hp in Hin. destruct Hin as [<- | []].
    left. unfold dispatch, Throttle.trigger, expire, rearm. cbn.
    rewrite Hper, Hp. cbn. rewrite Z.eqb_refl. reflexivity.
Qed.

Lemma throttle_inv_reachable (w : Throttle.World) :
  Throttle.reachable cfg w -> Throttle.one_pending w.
Proof.
  induction 1 as [t0 | w w' _ IH Hstep].
  - apply throttle_inv_start.
  - destruct Hstep.
    + apply throttle_inv_throttled, throttle_inv_tick_clock, IH.
    + apply throttle_inv_dispatch; assumption.
Qed.

End ThrottleFacts.

(** *** The trailing fire *)

(** C4.  The code misses the last part of the claim.  Threshold 100,
    calls at clock readings 1000, 1001 and 1101.  The call at 1001
    schedules a trailing fire, which runs at 1100 with that call's
    arguments and context; what [trigger] records as the time of the last
    fire is 1001, the reading of the call, not 1100.  The call at 1101
    therefore computes a gap of 100 and is forwarded at 1101, one
    millisecond after the fire at 1100, where [threshold - timeGap], taken
    from the time of that fire, would have made it wait until 1200. *)
Theorem throttle_trailing_fire_records_the_call_time :
  exists g w1 w2,
    Throttle.throttle (VFunction 0 true true) (VNumber (Int 100))
      VUndefined VUndefined = Governed g
    /\ Throttle.play g 1
         [ (1000, VObject 1, [VString "first"]);
           (1001, VObject 1, [VString "second"]) ]
         1100 (Throttle.start 1000) = Some w1
    /\ journal w1 =
         [ {| at_time := 1000; this_arg := VObject 1;
              arguments := [VString "first"] |};
           {| at_time := 1100; this_arg := VObject 1;
              arguments := [VString "second"] |} ]
    /\ Throttle.timestampRecent (st w1) = Some 1001
    /\ Throttle.timestampRecent (st w1) <> Some 1100
    /\ Throttle.play g 1 [ (1101, VObject 1, [VString "third"]) ] 1101 w1
       = Some w2
    /\ journal w2 =
         [ {| at_time := 1000; this_arg := VObject 1;
              arguments := [VString "first"] |};
           {| at_time := 1100; this_arg := VObject 1;
              arguments := [VString "second"] |};
           {| at_time := 1101; this_arg := VObject 1;
              arguments := [VString "third"] |} ].
Proof.
  do 3 eexists. split; [reflexivity | ].
  split; [vm_compute; reflexivity | ].
  split; [reflexivity | ].
  split; [reflexivity | ].
  split; [discriminate | ].
  split; [vm_compute; reflexivity | ].
  reflexivity.
Qed.

(** The same for every state and every call that schedules a trailing
    fire.  The timer is due [max(threshold - gap, 0)] ms after the call and
    carries the call's arguments; when it runs (on time), the wrapped
    callable gets those arguments and the context resolved at the
    scheduling call, and [trigger] copies [timestampCurrent], the clock
    reading of the scheduling call, into [timestampRecent]. *)
Theorem throttle_trailing_fire
  (cfg : Throttle.config) (w : Throttle.World) (this : value)
  (argsArray : list value) (r : Z) :
  Throttle.one_pending w ->
  Throttle.timestampRecent (st w) = Some r -> r <> 0 ->
  Throttle.isSuppressTrailingCall cfg
  && (Throttle.threshold cfg <=? now (svc w) - r) = false ->
  let w' := Throttle.throttled cfg this argsArray w in
  let gap := now (svc w) - r in
  exists tm,
    pending (svc w') = [tm]
    /\ due tm = now (svc w) + Z.max (Throttle.threshold cfg - gap) 0
    /\ job tm = argsArray
    /\ journal w' = journal w
    /\ forall t, t <= due tm ->
         let w'' := dispatch Throttle.trigger tm (tick_clock t w') in
         journal w'' =
           journal w ++
             [ {| at_time := due tm;
                  this_arg := or_else (Throttle.target cfg)
                                (getSanitizedTarget this);
                  arguments := argsArray |} ]
         /\ Throttle.timestampRecent (st w'') = Some (now (svc w))
         /\ pending (svc w'') = [].
Proof.
  intros Hinv Hr Hnz Hs w' gap. subst w'.
  rewrite (throttled_schedules cfg w this argsArray r Hinv Hr Hnz Hs).
  eexists. split; [reflexivity | ]. cbn [svc pending due job journal].
  repeat split.
  - unfold dispatch, Throttle.trigger, expire. cbn.
    do 3 f_equal. lia.
  - unfold dispatch, expire, rearm, drop. cbn. rewrite Z.eqb_refl. reflexivity.
Qed.

Lemma throttle_trailing_fire_witness :
  let cfg :=
    {| Throttle.proceed := VFunction 0 true true;
       Throttle.threshold := 100;
       Throttle.isSuppressTrailingCall := false;
       Throttle.target := VNull |} in
  let w := tick_clock 1050
             (Throttle.throttled cfg VUndefined [VString "first"]
                (Throttle.start 1000)) in
  exists tm,
    pending (svc (Throttle.throttled cfg VUndefined [VString "second"] w))
    = [tm]
    /\ due tm = 1050 + Z.max (100 - (1050 - 1000)) 0.
Proof.
  intros cfg w.
  destruct (throttle_trailing_fire cfg w VUndefined [VString "second"] 1000)
    as (tm & Hp & Hdue & _).
  - left. reflexivity.
  - reflexivity.
  - lia.
  - reflexivity.
  - exists tm. split; [exact Hp | exact Hdue].
Defined.

(** *** One fire per call, and coalescing *)

Ltac throttle_fields :=
  cbn [svc st journal now next_id pending tid due period job
       tick_clock set_clock option_map
       Throttle.timeoutId Throttle.timeGap Throttle.timestampRecent
       Throttle.timestampCurrent Throttle.context
       Throttle.threshold Throttle.isSuppressTrailingCall Throttle.target
       andb negb app].

(** Calls at [t0], [t0 + 50] and [t0 + 80] on a throttle of 100 ms that
    does not suppress trailing calls, the first of them at a clock reading
    other than 0. *)
Lemma throttle_burst_of_three
  (p tg this0 this1 this2 : value) (a0 a1 a2 : list value)
  (t0 horizon : Z) (fuel : nat) :
  0 < t0 -> t0 + 100 <= horizon ->
  exists w,
    Throttle.play
      {| Throttle.proceed := p; Throttle.threshold := 100;
         Throttle.isSuppressTrailingCall := false; Throttle.target := tg |}
      (S fuel)
      [ (t0, this0, a0); (t0 + 50, this1, a1); (t0 + 80, this2, a2) ]
      horizon (Throttle.start t0) = Some w
    /\ journal w =
         [ {| at_time := t0;
              this_arg := or_else tg (getSanitizedTarget this0);
              arguments := a0 |};
           {| at_time := t0 + 100;
              this_arg := or_else tg (getSanitizedTarget this2);
              arguments := a2 |} ].
Proof.
  intros Ht0 Hh.
  unfold Throttle.play, Throttle.call_at.
  (* the call at t0 fires at once *)
  rewrite advance_quiet by reflexivity. throttle_fields.
  rewrite throttled_fires_first by (try (left; reflexivity); reflexivity).
  unfold Throttle.start, boot, Throttle.initial. throttle_fields. zdecide.
  (* the call at t0 + 50 schedules for t0 + 100 *)
  rewrite advance_quiet by reflexivity. throttle_fields. zdecide.
  rewrite (throttled_schedules _ _ this1 a1 t0)
    by (try (left; reflexivity); try reflexivity; lia).
  throttle_fields.
  replace (t0 + 50 + Z.max (100 - (t0 + 50 - t0)) 0) with (t0 + 100) by lia.
  (* the call at t0 + 80 cancels that and schedules for t0 + 100 again *)
  rewrite advance_quiet
    by (unfold next_due; cbn [earliest pending svc due]; zdecide; reflexivity).
  throttle_fields. zdecide.
  rewrite (throttled_schedules _ _ this2 a2 t0).
  2:{ right. eexists. split; [reflexivity | ]. throttle_fields.
      repeat split; try lia. }
  2: reflexivity. 2: lia. 2: reflexivity.
  throttle_fields.
  (* the one timer left runs at t0 + 100 *)
  unfold advance. cbn [drain]. unfold next_due at 1.
  cbn [earliest pending svc due]. zdecide.
  unfold dispatch, expire, rearm, drop, Throttle.trigger.
  throttle_fields. cbn [filter]. throttle_fields. zdecide. throttle_fields.
  rewrite drain_quiet by reflexivity. throttle_fields.
  eexists. split; [reflexivity | ]. throttle_fields.
  do 2 f_equal. f_equal. lia.
Qed.

(** C5. A call to a throttled callable either forwards once, at once, and
    leaves no timer, or forwards nothing and leaves exactly one timer, due
    after [max(threshold - gap, 0)] ms with the call's arguments, whose run
    forwards once; never both.  Whatever timer was pending before the call
    is gone after it, so
    the only arguments that can be delivered on the trailing edge are those
    of the latest call.  With a threshold of 100 ms and no suppression,
    calls at [t0], [t0 + 50] and [t0 + 80] (the clock reading [t0] of the
    first call being positive, as [Date.now()] is) give the leading fire at
    [t0] and exactly one trailing fire, at [t0 + 100], with the arguments
    of the call at [t0 + 80]. *)
Theorem throttle_fires_once_per_call_and_coalesces (cfg : Throttle.config) :
  (forall (w : Throttle.World) (this : value) (argsArray : list value),
      Throttle.one_pending w ->
      let w' := Throttle.throttled cfg this argsArray w in
      let ctx := or_else (Throttle.target cfg) (getSanitizedTarget this) in
      ((journal w' = journal w ++
                       [ {| at_time := now (svc w); this_arg := ctx;
                            arguments := argsArray |} ]
        /\ pending (svc w') = [])
       \/
       (journal w' = journal w
        /\ exists r tm,
             Throttle.timestampRecent (st w) = Some r
             /\ pending (svc w') = [tm]
             /\ job tm = argsArray
             /\ due tm = now (svc w)
                         + Z.max (Throttle.threshold cfg - (now (svc w) - r)) 0
             /\ forall t, t <= due tm ->
                  journal (dispatch Throttle.trigger tm (tick_clock t w'))
                  = journal w ++
                      [ {| at_time := due tm; this_arg := ctx;
                           arguments := argsArray |} ]))
      /\ (forall tm, In tm (pending (svc w)) -> ~ In tm (pending (svc w')))
      /\ (forall tm, In tm (pending (svc w')) -> job tm = argsArray))
  /\
  (forall (this0 this1 this2 : value) (a0 a1 a2 : list value)
          (t0 horizon : Z) (fuel : nat),
      Throttle.threshold cfg = 100 ->
      Throttle.isSuppressTrailingCall cfg = false ->
      0 < t0 -> t0 + 100 <= horizon ->
      exists w,
        Throttle.play cfg (S fuel)
          [ (t0, this0, a0); (t0 + 50, this1, a1); (t0 + 80, this2, a2) ]
          horizon (Throttle.start t0) = Some w
        /\ journal w =
             [ {| at_time := t0;
                  this_arg := or_else (Throttle.target cfg)
                                (getSanitizedTarget this0);
                  arguments := a0 |};
               {| at_time := t0 + 100;
                  this_arg := or_else (Throttle.target cfg)
                                (getSanitizedTarget this2);
                  arguments := a2 |} ]).
Proof.
  split.
  - intros w this argsArray Hinv w' ctx.
    assert (Hfresh : forall tm, In tm (pending (svc w)) ->
                                tid tm < next_id (svc w)).
    { destruct Hinv as [Hnil | (tm' & Hp & _ & _ & Hlt)]; intros tm Hin.
      - rewrite Hnil in Hin. destruct Hin.
      - rewrite Hp in Hin. destruct Hin as [<- | []]. exact Hlt. }
    destruct (throttled_outcome cfg w this argsArray Hinv)
      as [(Hj & Hp & _) | (Hj & r & Hr & Hnz & Hs & Hp & _)];
      fold w' in Hj, Hp.
    + split; [left; split; assumption | ].
      rewrite Hp. split; intros tm Hin; [intros [] | destruct Hin].
    + split.
      * right. split; [exact Hj | ].
        exists r. eexists. split; [exact Hr | ].
        split; [exact Hp | ]. split; [reflexivity | ].
        split; [reflexivity | ].
        intros t Ht. cbn [due] in Ht. subst w'.
        rewrite (throttled_schedules cfg w this argsArray r Hinv Hr Hnz Hs).
        unfold dispatch, Throttle.trigger, expire. cbn.
        do 3 f_equal. lia.
      * rewrite Hp. split.
        -- intros tm Hin [<- | []]. specialize (Hfresh _ Hin).
           cbn [tid] in Hfresh. lia.
        -- intros tm [<- | []]. reflexivity.
  - intros this0 this1 this2 a0 a1 a2 t0 horizon fuel Hth Hsup Ht0 Hh.
    destruct cfg as [p th sup tg]. cbn in Hth, Hsup. subst th sup.
    apply throttle_burst_of_three; assumption.
Qed.

Lemma throttle_fires_once_per_call_and_coalesces_witness :
  exists w,
    Throttle.play
      {| Throttle.proceed := VFunction 0 true true; Throttle.threshold := 100;
         Throttle.isSuppressTrailingCall := false; Throttle.target := VNull |}
      1
      [ (1000 + 0, VUndefined, [VString "a"]);
        (1000 + 50, VUndefined, [VString "b"]);
        (1000 + 80, VUndefined, [VString "c"]) ]
      1500 (Throttle.start 1000) = Some w
    /\ journal w =
         [ {| at_time := 1000; this_arg := VNull;
              arguments := [VString "a"] |};
           {| at_time := 1000 + 100; this_arg := VNull;
              arguments := [VString "c"] |} ].
Proof.
  destruct (throttle_fires_once_per_call_and_coalesces
              {| Throttle.proceed := VFunction 0 true true;
                 Throttle.threshold := 100;
                 Throttle.isSuppressTrailingCall := false;
                 Throttle.target := VNull |}) as [_ Hburst].
  apply (Hburst VUndefined VUndefined VUndefined
           [VString "a"] [VString "b"] [VString "c"] 1000 1500 0%nat);
    [reflexivity | reflexivity | lia | lia].
Defined.

(** The clock reading 0 is what [if (timestampRecent)] takes for "never
    fired": were the first call made at reading 0, the call 50 ms later
    would fire at once as well. *)
Example throttle_first_call_at_clock_zero :
  option_map journal
    (Throttle.play
       {| Throttle.proceed := VFunction 0 true true; Throttle.threshold := 100;
          Throttle.isSuppressTrailingCall := false; Throttle.target := VNull |}
       1
       [ (0, VUndefined, [VString "a"]);
         (50, VUndefined, [VString "b"]);
         (80, VUndefined, [VString "c"]) ]
       1500 (Throttle.start 0))
  = Some
      [ {| at_time := 0; this_arg := VNull; arguments := [VString "a"] |};
        {| at_time := 50; this_arg := VNull; arguments := [VString "b"] |};
        {| at_time := 150; this_arg := VNull; arguments := [VString "c"] |} ].
Proof. vm_compute. reflexivity. Qed.

(* ================================================================== *)
(** ** The debounce governor                                            *)
(* ================================================================== *)

(** C3, on the code.  [debounce(50, true)], calls at 0, 10 and 60 with the
    arguments ["a"], ["b"] and ["c"].  The call at 10 finds [timeoutId] set,
    clears the re-arm timer and schedules [debounceTrigger] for 60, so ["b"]
    is forwarded at 60: a trailing fire of its own.  If the host runs that
    timer before it takes the call at 60, ["c"] is forwarded at 60 as well;
    if it takes the call first, the call cancels the timer and ["c"] is
    forwarded at 110, not at once. *)
Theorem debounce_leading_burst_also_fires_trailing :
  exists g,
    Debounce.debounce (VFunction 0 true true) (VNumber (Int 50))
      (VBool true) VUndefined = Governed g
    /\ option_map journal
         (Debounce.play g true 4
            [ (0, VUndefined, [VString "a"]);
              (10, VUndefined, [VString "b"]);
              (60, VUndefined, [VString "c"]) ]
            1000 (Debounce.start 0))
       = Some
           [ {| at_time := 0; this_arg := VNull; arguments := [VString "a"] |};
             {| at_time := 60; this_arg := VNull; arguments := [VString "b"] |};
             {| at_time := 60; this_arg := VNull; arguments := [VString "c"] |} ]
    /\ option_map journal
         (Debounce.play g false 4
            [ (0, VUndefined, [VString "a"]);
              (10, VUndefined, [VString "b"]);
              (60, VUndefined, [VString "c"]) ]
            1000 (Debounce.start 0))
       = Some
           [ {| at_time := 0; this_arg := VNull; arguments := [VString "a"] |};
             {| at_time := 110; this_arg := VNull;
                arguments := [VString "c"] |} ]
    /\ option_map journal
         (Debounce.play g true 4
            [ (0, VUndefined, [VString "a"]);
              (10, VUndefined, [VString "b"]) ]
            1000 (Debounce.start 0))
       = Some
           [ {| at_time := 0; this_arg := VNull; arguments := [VString "a"] |};
             {| at_time := 60; this_arg := VNull;
                arguments := [VString "b"] |} ].
Proof.
  eexists. split; [reflexivity | ].
  repeat split; vm_compute; reflexivity.
Qed.

(** In the same mode a call that comes alone does fire once only, on the
    leading edge, and so does the next one after a quiet [delay]. *)
Example debounce_leading_isolated_calls :
  exists g,
    Debounce.debounce (VFunction 0 true true) (VNumber (Int 50))
      (VBool true) VUndefined = Governed g
    /\ option_map journal
         (Debounce.play g true 4
            [ (0, VUndefined, [VString "a"]);
              (60, VUndefined, [VString "c"]) ]
            1000 (Debounce.start 0))
       = Some
           [ {| at_time := 0; this_arg := VNull; arguments := [VString "a"] |};
             {| at_time := 60; this_arg := VNull;
                arguments := [VString "c"] |} ].
Proof.
  eexists. split; [reflexivity | ]. vm_compute. reflexivity.
Qed.

(** Whatever the mode, a call that finds [timeoutId] set leaves a trailing
    [debounceTrigger] with its own arguments, due one [delay] later. *)
Lemma debounced_in_open_window_schedules_trailing
  (cfg : Debounce.config) (w : Debounce.World) (this : value)
  (argsArray : list value) :
  truthy_num (Debounce.timeoutId (st w)) = true ->
  In {| tid := next_id (svc w);
        due := now (svc w) + Debounce.delay cfg;
        period := None;
        job := Debounce.DebounceTrigger argsArray |}
     (pending (svc (Debounce.debounced cfg this argsArray w))).
Proof.
  intros Hopen. unfold Debounce.debounced. rewrite Hopen.
  unfold setTimeout, arm. cbn [svc pending].
  destruct (clearTimeout_keeps _ (Debounce.timeoutId (st w))
              (clearTimeout (Debounce.timeoutResetId (st w)) (svc w)))
    as [-> ->].
  destruct (clearTimeout_keeps _ (Debounce.timeoutResetId (st w)) (svc w))
    as [-> ->].
  apply in_or_app. right. left. reflexivity.
Qed.

(* ================================================================== *)
(** * Further properties of the code                                    *)
(* ================================================================== *)

(** ** The sanitizers *)

Lemma timers_sanitized_integer_range (v : value) :
  - MAX_SAFE_INTEGER <= Timers.getSanitizedInteger v <= MAX_SAFE_INTEGER.
Proof.
  unfold Timers.getSanitizedInteger.
  assert (Hmax : 0 <= MAX_SAFE_INTEGER) by (vm_compute; discriminate).
  destruct (parseInt v) as [| | | z]; try lia.
  unfold isSafeInteger.
  destruct (Z.leb_spec (- MAX_SAFE_INTEGER) z);
    destruct (Z.leb_spec z MAX_SAFE_INTEGER);
    destruct (z =? 0); cbn [andb negb]; lia.
Qed.

Lemma or_default_range (n d hi : Z) :
  0 <= n <= hi -> 0 < d <= hi -> 0 < Timers.or_default n d <= hi.
Proof.
  intros Hn Hd. unfold Timers.or_default.
  destruct (Z.eqb_spec n 0); lia.
Qed.

(** X1. Whatever is passed as duration, a governed callable runs on a
    positive one: a threshold or delay between 1 and
    [Number.MAX_SAFE_INTEGER], an interval of at least 1. *)
Theorem wrappers_run_on_a_positive_duration
  (f v flag tg : value) (c : option Clocked.controller_fn) :
  (forall g, Throttle.throttle f v flag tg = Governed g ->
             0 < Throttle.threshold g <= MAX_SAFE_INTEGER)
  /\ (forall g, Debounce.debounce f v flag tg = Governed g ->
                0 < Debounce.delay g <= MAX_SAFE_INTEGER)
  /\ (forall g, Clocked.createClockedFunction f v tg c = Governed g ->
                0 < Clocked.cfg_interval g).
Proof.
  assert (Hmax : 200 <= MAX_SAFE_INTEGER) by (vm_compute; discriminate).
  pose proof (timers_sanitized_integer_range v) as Hr.
  split; [ | split].
  - intros g H. rewrite (throttle_governed f v flag tg g H).
    apply or_default_range;
      unfold Timers.getSanitizedPositiveInteger,
        Timers.DEFAULT_THROTTLE_THRESHOLD; lia.
  - intros g H. rewrite (debounce_governed f v flag tg g H).
    apply or_default_range;
      unfold Timers.getSanitizedPositiveInteger,
        Timers.DEFAULT_DEBOUNCE_DELAY; lia.
  - apply clocked_interval_positive.
Qed.

Lemma wrappers_run_on_a_positive_duration_witness :
  0 < Throttle.threshold
        {| Throttle.proceed := VFunction 0 true true;
           Throttle.threshold := 200;
           Throttle.isSuppressTrailingCall := false;
           Throttle.target := VNull |}
    <= MAX_SAFE_INTEGER.
Proof.
  destruct (wrappers_run_on_a_positive_duration
              (VFunction 0 true true) (VString "-5") VUndefined VUndefined
              None) as [Hthrottle _].
  apply Hthrottle. reflexivity.
Defined.

(** X2. The two versions of [getSanitizedPositiveInteger] give the same
    number whenever the one of clocked/index.js stays within the
    safe-integer range; beyond it the one of throttle/index.js gives 0. *)
Theorem sanitizers_agree_within_safe_range (v : value) :
  Timers.getSanitizedPositiveInteger v
  = if Clocked.getSanitizedPositiveInteger v <=? MAX_SAFE_INTEGER
    then Clocked.getSanitizedPositiveInteger v
    else 0.
Proof.
  assert (Hmax : 0 <= MAX_SAFE_INTEGER) by (vm_compute; discriminate).
  unfold Timers.getSanitizedPositiveInteger, Timers.getSanitizedInteger,
    Clocked.getSanitizedPositiveInteger, Clocked.getSanitizedInteger.
  destruct (parseInt v) as [| | | z]; try reflexivity.
  unfold isSafeInteger, isFinite.
  destruct (Z.leb_spec (- MAX_SAFE_INTEGER) z);
    destruct (Z.leb_spec z MAX_SAFE_INTEGER);
    destruct (Z.eqb_spec z 0); cbn [andb negb];
    destruct (Z.leb_spec (Z.max z 0) MAX_SAFE_INTEGER); lia.
Qed.

(** X3. Sanitising is idempotent on safe integers: handed its own result
    as a number, the [getSanitizedPositiveInteger] of throttle/index.js
    gives it back, and so does the one of clocked/index.js while its result
    is a safe integer. *)
Theorem sanitizing_twice_is_sanitizing_once (v : value) :
  Timers.getSanitizedPositiveInteger
    (VNumber (Int (Timers.getSanitizedPositiveInteger v)))
  = Timers.getSanitizedPositiveInteger v
  /\ (Clocked.getSanitizedPositiveInteger v <= MAX_SAFE_INTEGER ->
      Clocked.getSanitizedPositiveInteger
        (VNumber (Int (Clocked.getSanitizedPositiveInteger v)))
      = Clocked.getSanitizedPositiveInteger v).
Proof.
  split.
  - pose proof (timers_sanitized_integer_range v) as Hr.
    assert (Hmax : 0 <= MAX_SAFE_INTEGER) by (vm_compute; discriminate).
    unfold Timers.getSanitizedPositiveInteger at 1 3.
    set (r := Z.max (Timers.getSanitizedInteger v) 0).
    assert (Hrr : 0 <= r <= MAX_SAFE_INTEGER) by (subst r; lia).
    unfold Timers.getSanitizedPositiveInteger.
    fold r. unfold Timers.getSanitizedInteger at 1.
    rewrite parseInt_integer by lia. unfold isSafeInteger.
    destruct (Z.leb_spec (- MAX_SAFE_INTEGER) r);
      destruct (Z.leb_spec r MAX_SAFE_INTEGER);
      destruct (Z.eqb_spec r 0); cbn [andb negb]; lia.
  - unfold Clocked.getSanitizedPositiveInteger at 1 2 4.
    set (r := Z.max (Clocked.getSanitizedInteger v) 0).
    intros Hr.
    unfold Clocked.getSanitizedPositiveInteger.
    unfold Clocked.getSanitizedInteger at 1.
    rewrite parseInt_integer by lia. cbn [isFinite]. lia.
Qed.

Lemma sanitizing_twice_is_sanitizing_once_witness :
  Clocked.getSanitizedPositiveInteger
    (VNumber (Int (Clocked.getSanitizedPositiveInteger (VString "12px"))))
  = Clocked.getSanitizedPositiveInteger (VString "12px").
Proof.
  destruct (sanitizing_twice_is_sanitizing_once (VString "12px"))
    as [_ Hclocked].
  apply Hclocked. vm_compute. discriminate.
Defined.

(** Beyond the safe integers the one of clocked/index.js is not idempotent:
    a numeral of 22 digits is read as the number 10^21, which prints as
    [1e+21], of which [parseInt] reads the 1. *)
Example clocked_sanitizing_twice_beyond_safe_range :
  Clocked.getSanitizedPositiveInteger (VString "1000000000000000000000")
  = 10 ^ 21
  /\ Clocked.getSanitizedPositiveInteger (VNumber (Int (10 ^ 21))) = 1.
Proof. split; vm_compute; reflexivity. Qed.

(** ** Durations given as strings *)

Lemma string_app_assoc (a b c : string) :
  ((a ++ b) ++ c)%string = (a ++ (b ++ c))%string.
Proof.
  induction a as [| x a IH]; cbn [String.append]; [reflexivity | ].
  rewrite IH. reflexivity.
Qed.

Lemma decimal_from_app (fuel : nat) :
  forall (n : Z) (acc : string),
    decimal_from fuel n acc
    = (decimal_from fuel n EmptyString ++ acc)%string.
Proof.
  induction fuel as [| fuel IH]; intros n acc; cbn [decimal_from];
    [reflexivity | ].
  destruct (n <? 10); [reflexivity | ].
  rewrite (IH (n / 10) (String _ acc)), (IH (n / 10) (String _ EmptyString)).
  rewrite string_app_assoc. reflexivity.
Qed.

(** Reading a numeral followed by something that is not a digit. *)
Lemma scan_decimal_then (n : Z) (rest : string) :
  0 <= n -> scan_digits rest None = None ->
  scan_digits (decimal n ++ rest)%string None = Some n.
Proof.
  intros Hn Hrest. unfold decimal. rewrite <- decimal_from_app.
  rewrite scan_decimal_from.
  - destruct rest as [| c rest]; [reflexivity | ].
    cbn [scan_digits] in *.
    destruct (is_digit c); [ | reflexivity].
    exfalso. clear - Hrest.
    (* once a digit is read the result is a number *)
    assert (H : forall s a, scan_digits s (Some a) <> None).
    { induction s as [| x s IH]; intros a; cbn [scan_digits];
        [discriminate | ].
      destruct (is_digit x); [apply IH | discriminate]. }
    exact (H _ _ Hrest).
  - split; [assumption | ].
    rewrite Nat2Z.inj_succ, Z2Nat.id by apply Z.log2_nonneg.
    destruct (Z.eq_dec n 0) as [-> | Hnz]; [reflexivity | ].
    apply Z.log2_spec. lia.
Qed.

Lemma trim_start_spaces (ws s : string) :
  trim_start ws = EmptyString ->
  trim_start (ws ++ s)%string = trim_start s.
Proof.
  induction ws as [| c ws IH]; cbn [trim_start String.append];
    [reflexivity | ].
  destruct (is_space c); [exact IH | discriminate].
Qed.

Lemma decimal_then_head (n : Z) (rest : string) :
  0 <= n ->
  exists c tail,
    (decimal n ++ rest)%string = String c tail /\ is_digit c = true.
Proof.
  intros Hn. destruct (decimal_head n Hn) as (c & tail & -> & Hc).
  exists c, (tail ++ rest)%string. split; [reflexivity | exact Hc].
Qed.

(** [parseInt] on white space, an optional sign, a numeral and whatever
    follows it. *)
Lemma parseInt_numeral_prefix (ws rest : string) (n : Z) :
  trim_start ws = EmptyString -> 0 <= n <= MAX_SAFE_INTEGER ->
  scan_digits rest None = None ->
  parseInt (VString (ws ++ decimal n ++ rest)) = Int n
  /\ parseInt (VString (ws ++ String "+" (decimal n ++ rest))) = Int n
  /\ parseInt (VString (ws ++ String "-" (decimal n ++ rest))) = Int (- n).
Proof.
  unfold MAX_SAFE_INTEGER. intros Hws Hn Hrest.
  pose proof (scan_decimal_then n rest (proj1 Hn) Hrest) as Hscan.
  unfold parseInt, to_string. cbn [ToString].
  split; [ | split]; rewrite trim_start_spaces by exact Hws.
  - destruct (decimal_then_head n rest (proj1 Hn)) as (c & tail & E & Hc).
    destruct (digit_not_space_or_sign c Hc) as (Hs & Hm & Hp).
    rewrite E in *. cbn [trim_start]. rewrite Hs.
    destruct c as [[] [] [] [] [] [] [] []];
      try (rewrite Hscan; apply of_integer_small; lia);
      solve [exfalso; apply Hm; reflexivity | exfalso; apply Hp; reflexivity].
  - cbn [trim_start]. change (is_space "+") with false. cbv iota.
    rewrite Hscan. apply of_integer_small. lia.
  - cbn [trim_start]. change (is_space "-") with false. cbv iota.
    rewrite Hscan. apply of_integer_small. lia.
Qed.

(** X4. A duration given as a string is read by its leading numeral: after
    any white space and an optional [+], a decimal numeral [n] between 1
    and [Number.MAX_SAFE_INTEGER] followed by any text that does not go on
    with a digit (["300"], [" +300ms"]) makes the governor run on [n]; the
    same with a [-] in front makes it run on the default. *)
Theorem duration_string_is_read_by_its_numeral
  (f flag tg : value) (c : option Clocked.controller_fn)
  (ws rest : string) (n : Z) :
  isFunction f = true ->
  trim_start ws = EmptyString ->
  0 < n <= MAX_SAFE_INTEGER ->
  scan_digits rest None = None ->
  (forall v,
      v = VString (ws ++ decimal n ++ rest)
      \/ v = VString (ws ++ String "+" (decimal n ++ rest)) ->
      (exists g, Throttle.throttle f v flag tg = Governed g
                 /\ Throttle.threshold g = n)
      /\ (exists g, Debounce.debounce f v flag tg = Governed g
                    /\ Debounce.delay g = n)
      /\ (exists g, Clocked.createClockedFunction f v tg c = Governed g
                    /\ Clocked.cfg_interval g = n))
  /\ (let v := VString (ws ++ String "-" (decimal n ++ rest)) in
      (exists g, Throttle.throttle f v flag tg = Governed g
                 /\ Throttle.threshold g = 200)
      /\ (exists g, Debounce.debounce f v flag tg = Governed g
                    /\ Debounce.delay g = 100)
      /\ (exists g, Clocked.createClockedFunction f v tg c = Governed g
                    /\ Clocked.cfg_interval g = 200)).
Proof.
  intros Hf Hws Hn Hrest.
  destruct (parseInt_numeral_prefix ws rest n Hws ltac:(lia) Hrest)
    as (Hplain & Hplus & Hminus).
  assert (Hpos : forall v, parseInt v = Int n ->
            Timers.getSanitizedPositiveInteger v = n
            /\ Clocked.getSanitizedPositiveInteger v = n).
  { intros v Hv.
    unfold Timers.getSanitizedPositiveInteger, Timers.getSanitizedInteger,
      Clocked.getSanitizedPositiveInteger, Clocked.getSanitizedInteger.
    rewrite Hv. unfold isSafeInteger, isFinite.
    replace (- MAX_SAFE_INTEGER <=? n) with true
      by (symmetry; apply Z.leb_le; unfold MAX_SAFE_INTEGER in *; lia).
    replace (n <=? MAX_SAFE_INTEGER) with true
      by (symmetry; apply Z.leb_le; lia).
    replace (n =? 0) with false by (symmetry; apply Z.eqb_neq; lia).
    cbn [andb negb]. lia. }
  assert (Hneg : forall v, parseInt v = Int (- n) ->
            Timers.getSanitizedPositiveInteger v = 0
            /\ Clocked.getSanitizedPositiveInteger v = 0).
  { intros v Hv.
    unfold Timers.getSanitizedPositiveInteger, Timers.getSanitizedInteger,
      Clocked.getSanitizedPositiveInteger, Clocked.getSanitizedInteger.
    rewrite Hv. unfold isFinite.
    destruct (isSafeInteger (Int (- n)) && negb (- n =? 0)); lia. }
  split.
  - intros v Hv.
    assert (Hparse : parseInt v = Int n) by (destruct Hv; subst v; assumption).
    assert (Hs : exists s, ToString v = Some s)
      by (destruct Hv; subst v; eexists; reflexivity).
    destruct Hs as [s Hs].
    destruct (Hpos v Hparse) as [Ht Hc].
    rewrite (throttle_governs f v flag tg s Hf Hs),
      (debounce_governs f v flag tg s Hf Hs),
      (clocked_governs f v tg c s Hf Hs).
    repeat split; eexists; (split; [reflexivity | ]);
      cbn [Throttle.threshold Debounce.delay Clocked.cfg_interval];
      rewrite ?Ht, ?Hc; apply or_default_positive; lia.
  - cbv zeta. destruct (Hneg _ Hminus) as [Ht Hc].
    set (v := VString (ws ++ String "-" (decimal n ++ rest))) in *.
    rewrite (throttle_governs f v flag tg _ Hf eq_refl),
      (debounce_governs f v flag tg _ Hf eq_refl),
      (clocked_governs f v tg c _ Hf eq_refl).
    repeat split; eexists; (split; [reflexivity | ]);
      cbn [Throttle.threshold Debounce.delay Clocked.cfg_interval];
      rewrite ?Ht, ?Hc; reflexivity.
Qed.

Lemma duration_string_is_read_by_its_numeral_witness :
  exists g,
    Throttle.throttle (VFunction 0 true true) (VString " +300ms")
      VUndefined VUndefined = Governed g
    /\ Throttle.threshold g = 300.
Proof.
  destruct (duration_string_is_read_by_its_numeral
              (VFunction 0 true true) VUndefined VUndefined None
              " " "ms" 300)
    as [Hread _].
  - reflexivity.
  - reflexivity.
  - unfold MAX_SAFE_INTEGER. split; [lia | ]. vm_compute. discriminate.
  - reflexivity.
  - apply (Hread (VString " +300ms")). right. reflexivity.
Defined.

(** ** The throttle governor, further *)

Section ThrottleMore.
Variable cfg : Throttle.config.

(** What a call does to the clock readings it keeps, whichever branch it
    takes. *)
Lemma throttled_readings (w : Throttle.World) (this : value)
  (argsArray : list value) :
  let w' := Throttle.throttled cfg this argsArray w in
  now (svc w') = now (svc w)
  /\ Throttle.timestampCurrent (st w') = Some (now (svc w))
  /\ (Throttle.timestampRecent (st w') = Throttle.timestampRecent (st w)
      \/ Throttle.timestampRecent (st w') = Some (now (svc w)))
  /\ Throttle.context (st w')
     = or_else (Throttle.target cfg) (getSanitizedTarget this)
  /\ (journal w' = journal w
      \/ journal w' =
           journal w ++
             [ {| at_time := now (svc w);
                  this_arg := or_else (Throttle.target cfg)
                                (getSanitizedTarget this);
                  arguments := argsArray |} ]).
Proof.
  destruct (clearTimeout_keeps _ (Throttle.timeoutId (st w)) (svc w))
    as [Hnow Hnext].
  unfold Throttle.throttled, Throttle.trigger, setTimeout, arm.
  destruct (truthy_num (Throttle.timestampRecent (st w)));
    [destruct (Throttle.isSuppressTrailingCall cfg && _) | ];
    cbn [svc st journal now Throttle.timestampCurrent
         Throttle.timestampRecent Throttle.context];
    rewrite ?Hnow; repeat split; auto.
Qed.

Lemma throttle_sane_start (t0 : Z) : Throttle.clock_sane (Throttle.start t0).
Proof. split; intros x H; discriminate H. Qed.

Lemma throttle_sane_tick_clock (w : Throttle.World) (t : Z) :
  Throttle.clock_sane w -> Throttle.clock_sane (tick_clock t w).
Proof.
  intros [Hr Hc]. split; intros x H; cbn in *;
    [specialize (Hr x H) | specialize (Hc x H)]; lia.
Qed.

Lemma throttle_sane_throttled (w : Throttle.World) (this : value)
  (argsArray : list value) :
  Throttle.clock_sane w ->
  Throttle.clock_sane (Throttle.throttled cfg this argsArray w).
Proof.
  intros [Hr Hc].
  destruct (throttled_readings w this argsArray) as (Hnow & Hcur & Hrec & _).
  split; intros x H; rewrite Hnow.
  - destruct Hrec as [E | E]; rewrite E in H.
    + apply Hr, H.
    + injection H as <-. lia.
  - rewrite Hcur in H. injection H as <-. lia.
Qed.

Lemma throttle_sane_dispatch (w : Throttle.World) (tm : timer (list value)) :
  Throttle.clock_sane w ->
  Throttle.clock_sane (dispatch Throttle.trigger tm w).
Proof.
  intros [Hr Hc]. unfold dispatch, Throttle.trigger, expire.
  split; intros x H; cbn in *; specialize (Hc x H); lia.
Qed.

Lemma throttle_sane_reachable (w : Throttle.World) :
  Throttle.reachable cfg w -> Throttle.clock_sane w.
Proof.
  induction 1 as [t0 | w w' _ IH Hstep].
  - apply throttle_sane_start.
  - destruct Hstep.
    + apply throttle_sane_throttled, throttle_sane_tick_clock, IH.
    + apply throttle_sane_dispatch, IH.
Qed.

(** A suppressing call that comes late enough fires at once. *)
Lemma throttled_fires_late (w : Throttle.World) (this : value)
  (argsArray : list value) (r : Z) :
  Throttle.one_pending w ->
  Throttle.timestampRecent (st w) = Some r -> r <> 0 ->
  Throttle.isSuppressTrailingCall cfg
  && (Throttle.threshold cfg <=? now (svc w) - r) = true ->
  Throttle.throttled cfg this argsArray w =
    mkWorld
      {| now := now (svc w); next_id := next_id (svc w); pending := [] |}
      {| Throttle.timeoutId := Throttle.timeoutId (st w);
         Throttle.timeGap := Some (now (svc w) - r);
         Throttle.timestampRecent := Some (now (svc w));
         Throttle.timestampCurrent := Some (now (svc w));
         Throttle.context :=
           or_else (Throttle.target cfg) (getSanitizedTarget this) |}
      (journal w ++
         [ {| at_time := now (svc w);
              this_arg := or_else (Throttle.target cfg)
                            (getSanitizedTarget this);
              arguments := argsArray |} ]).
Proof.
  intros Hinv Hr Hnz Hs.
  pose proof (throttle_clear_empties w Hinv) as Hclear.
  destruct (clearTimeout_keeps _ (Throttle.timeoutId (st w)) (svc w))
    as [Hnow Hnext].
  assert (Heta : clearTimeout (Throttle.timeoutId (st w)) (svc w)
                 = {| now := now (svc w); next_id := next_id (svc w);
                      pending := [] |}).
  { rewrite <- Hnow, <- Hnext, <- Hclear.
    destruct (clearTimeout (Throttle.timeoutId (st w)) (svc w)); reflexivity. }
  unfold Throttle.throttled, Throttle.trigger.
  rewrite Hr. cbn [truthy_num].
  replace (r =? 0) with false by (symmetry; apply Z.eqb_neq; exact Hnz).
  cbn [negb]. rewrite Heta. cbn [now]. rewrite Hs. reflexivity.
Qed.

Lemma throttle_bound_throttled (w : Throttle.World) (this : value)
  (argsArray : list value) :
  truthy (Throttle.target cfg) = true ->
  Throttle.context_bound cfg w ->
  Throttle.context_bound cfg (Throttle.throttled cfg this argsArray w).
Proof.
  intros Htg [_ Hj].
  destruct (throttled_readings w this argsArray) as (_ & _ & _ & Hctx & Hjw).
  assert (Hor : or_else (Throttle.target cfg) (getSanitizedTarget this)
                = Throttle.target cfg)
    by (unfold or_else; rewrite Htg; reflexivity).
  rewrite Hor in *.
  split; [intros _; exact Hctx | ].
  destruct Hjw as [-> | ->]; [exact Hj | ].
  apply Forall_app. split; [exact Hj | ]. constructor; [reflexivity | constructor].
Qed.

Lemma throttle_bound_dispatch (w : Throttle.World) (tm : timer (list value)) :
  Throttle.one_pending w ->
  In tm (pending (svc w)) ->
  Throttle.context_bound cfg w ->
  Throttle.context_bound cfg (dispatch Throttle.trigger tm w).
Proof.
  intros Hone Hin [Hctx Hj].
  assert (Hne : pending (svc w) <> []) by (intros E; rewrite E in Hin; exact Hin).
  specialize (Hctx Hne).
  pose proof (throttle_inv_dispatch w tm Hone Hin) as Hone'.
  split.
  - intros _. unfold dispatch, Throttle.trigger. cbn. exact Hctx.
  - unfold dispatch, Throttle.trigger. cbn [journal].
    apply Forall_app. split; [exact Hj | ].
    constructor; [cbn; exact Hctx | constructor].
Qed.

Lemma throttle_bound_reachable (w : Throttle.World) :
  truthy (Throttle.target cfg) = true ->
  Throttle.reachable cfg w -> Throttle.context_bound cfg w.
Proof.
  intros Htg. induction 1 as [t0 | w w' Hreach IH Hstep].
  - split; [intros H; exfalso; apply H; reflexivity | constructor].
  - destruct Hstep.
    + apply throttle_bound_throttled; [exact Htg | ].
      destruct IH as [Hc Hj]. split; [exact Hc | exact Hj].
    + apply throttle_bound_dispatch; try assumption.
      apply (throttle_inv_reachable cfg), Hreach.
Qed.

End ThrottleMore.

(** X5. In every state a throttled callable can reach, at most one timer is
    pending, it is a one-shot timer whose handle [timeoutId] holds, and the
    clock readings the governor has recorded do not lie in the future. *)
Theorem throttle_keeps_one_timer_and_sane_readings
  (cfg : Throttle.config) (w : Throttle.World) :
  Throttle.reachable cfg w ->
  (List.length (pending (svc w)) <= 1)%nat
  /\ (forall tm, In tm (pending (svc w)) ->
        Throttle.timeoutId (st w) = Some (tid tm) /\ period tm = None)
  /\ Throttle.clock_sane w.
Proof.
  intros Hreach.
  pose proof (throttle_inv_reachable cfg w Hreach) as Hone.
  split; [ | split].
  - destruct Hone as [-> | (tm & -> & _)]; cbn; lia.
  - destruct Hone as [-> | (tm & -> & Hid & Hper & _)]; intros x [].
    + subst x. split; assumption.
    + contradiction.
  - apply (throttle_sane_reachable cfg), Hreach.
Qed.

Lemma throttle_keeps_one_timer_and_sane_readings_witness :
  let cfg :=
    {| Throttle.proceed := VFunction 0 true true; Throttle.threshold := 100;
       Throttle.isSuppressTrailingCall := false; Throttle.target := VNull |} in
  let w := Throttle.throttled cfg VUndefined [VString "b"]
             (tick_clock 1050
                (Throttle.throttled cfg VUndefined [VString "a"]
                   (tick_clock 1000 (Throttle.start 1000)))) in
  (List.length (pending (svc w)) <= 1)%nat.
Proof.
  intros cfg w.
  apply (throttle_keeps_one_timer_and_sane_readings cfg w).
  unfold w.
  apply Throttle.reach_step
    with (w := Throttle.throttled cfg VUndefined [VString "a"]
                 (tick_clock 1000 (Throttle.start 1000))).
  - apply Throttle.reach_step with (w := Throttle.start 1000).
    + apply Throttle.reach_start.
    + apply Throttle.step_call.
  - apply Throttle.step_call.
Defined.

(** X6. A throttled call that does not fire at once leaves a timer that is
    due no later than one threshold after the call, and no sooner than one
    threshold after the clock reading recorded for the last fire. *)
Theorem throttle_trailing_fire_is_due_within_threshold
  (cfg : Throttle.config) (w : Throttle.World) (t : Z) (this : value)
  (argsArray : list value) :
  Throttle.reachable cfg w ->
  0 <= Throttle.threshold cfg ->
  let w' := Throttle.throttled cfg this argsArray (tick_clock t w) in
  forall tm, In tm (pending (svc w')) ->
    now (svc w') <= due tm <= now (svc w') + Throttle.threshold cfg
    /\ exists r, Throttle.timestampRecent (st w') = Some r
                 /\ r + Throttle.threshold cfg <= due tm.
Proof.
  intros Hreach Hth w' tm Hin.
  pose proof (throttle_inv_tick_clock w t (throttle_inv_reachable cfg w Hreach))
    as Hone.
  pose proof (throttle_sane_tick_clock w t (throttle_sane_reachable cfg w Hreach))
    as [Hsane _].
  destruct (throttled_outcome cfg (tick_clock t w) this argsArray Hone)
    as [(_ & Hp & _) | (_ & r & Hr & _ & _ & Hp & _ & Hnow & Hs)];
    fold w' in Hp; rewrite Hp in Hin.
  - destruct Hin.
  - fold w' in Hnow, Hs. destruct Hin as [<- | []].
    specialize (Hsane r Hr). rewrite Hnow, Hs. cbn [due].
    split; [lia | ]. exists r. split; [reflexivity | lia].
Qed.

Lemma throttle_trailing_fire_is_due_within_threshold_witness :
  let cfg :=
    {| Throttle.proceed := VFunction 0 true true; Throttle.threshold := 100;
       Throttle.isSuppressTrailingCall := false; Throttle.target := VNull |} in
  let w := Throttle.throttled cfg VUndefined [VString "a"]
             (tick_clock 1000 (Throttle.start 1000)) in
  let w' := Throttle.throttled cfg VUndefined [VString "b"]
              (tick_clock 1030 w) in
  let tm := {| tid := 1; due := 1100; period := None;
               job := [VString "b"] |} in
  now (svc w') <= due tm <= now (svc w') + 100
  /\ exists r, Throttle.timestampRecent (st w') = Some r
               /\ r + 100 <= due tm.
Proof.
  intros cfg w w' tm.
  apply (throttle_trailing_fire_is_due_within_threshold cfg w 1030 VUndefined
           [VString "b"]).
  - apply Throttle.reach_step with (w := Throttle.start 1000).
    + apply Throttle.reach_start.
    + apply Throttle.step_call.
  - cbn. lia.
  - left. reflexivity.
Defined.

(** X7. [isSuppressTrailingCall] never makes a call go unanswered.  For the
    first call and for a call that comes less than one threshold after the
    recorded last fire, the governor does the same with the flag as
    without.  For a call that comes later, the flag makes the governor fire
    at once; without it the governor sets a timer of delay 0, and when that
    timer has run the journal and the recorded time of the last fire are
    what the flag would have given at once. *)
Theorem throttle_suppress_flag_only_moves_the_late_call
  (p tg : value) (th : Z) (w : Throttle.World) (this : value)
  (argsArray : list value) :
  Throttle.one_pending w ->
  let eager :=
    {| Throttle.proceed := p; Throttle.threshold := th;
       Throttle.isSuppressTrailingCall := true; Throttle.target := tg |} in
  let lazy :=
    {| Throttle.proceed := p; Throttle.threshold := th;
       Throttle.isSuppressTrailingCall := false; Throttle.target := tg |} in
  let late :=
    match Throttle.timestampRecent (st w) with
    | Some r => negb (r =? 0) && (th <=? now (svc w) - r)
    | None => false
    end in
  (late = false ->
   Throttle.throttled eager this argsArray w
   = Throttle.throttled lazy this argsArray w)
  /\ (late = true ->
      let we := Throttle.throttled eager this argsArray w in
      let wl := Throttle.throttled lazy this argsArray w in
      journal we =
        journal w ++
          [ {| at_time := now (svc w);
               this_arg := or_else tg (getSanitizedTarget this);
               arguments := argsArray |} ]
      /\ pending (svc we) = []
      /\ journal wl = journal w
      /\ exists tm,
           pending (svc wl) = [tm]
           /\ due tm = now (svc w)
           /\ journal (dispatch Throttle.trigger tm wl) = journal we
           /\ Throttle.timestampRecent (st (dispatch Throttle.trigger tm wl))
              = Throttle.timestampRecent (st we)
           /\ pending (svc (dispatch Throttle.trigger tm wl)) = []).
Proof.
  intros Hone eager lazy late.
  destruct (Throttle.timestampRecent (st w)) as [r | ] eqn:Hr.
  - destruct (Z.eqb_spec r 0) as [Hz | Hnz]; cbn [negb andb] in late.
    + split; [intros _ | subst late; discriminate].
      rewrite !throttled_fires_first
        by (try exact Hone; rewrite Hr; cbn; subst r; reflexivity).
      reflexivity.
    + destruct (Z.leb_spec th (now (svc w) - r)) as [Hlate | Hearly];
        subst late; (split; [ | ]); intros E; try discriminate E.
      * assert (Hs : Throttle.isSuppressTrailingCall eager
                     && (Throttle.threshold eager <=? now (svc w) - r) = true).
        { cbn. apply Z.leb_le. exact Hlate. }
        cbv zeta.
        rewrite (throttled_fires_late eager w this argsArray r Hone Hr Hnz Hs).
        rewrite (throttled_schedules lazy w this argsArray r Hone Hr Hnz
                   eq_refl).
        unfold eager, lazy.
        cbn [journal svc pending Throttle.target Throttle.threshold].
        split; [reflexivity | ]. split; [reflexivity | ].
        split; [reflexivity | ].
        eexists. split; [reflexivity | ]. cbn [due].
        split; [lia | ].
        unfold dispatch, Throttle.trigger, expire, rearm, drop.
        cbn [job due tid period svc st journal now pending filter negb
             Throttle.timestampCurrent Throttle.timestampRecent
             Throttle.context].
        rewrite Z.eqb_refl.
        cbn [negb filter svc st journal pending now
             Throttle.timestampRecent].
        split; [ | split; reflexivity].
        do 3 f_equal. lia.
      * assert (Hs : forall b, b && (th <=? now (svc w) - r) = false).
        { intros b. replace (th <=? now (svc w) - r) with false
            by (symmetry; apply Z.leb_gt; exact Hearly).
          apply andb_false_r. }
        rewrite (throttled_schedules eager w this argsArray r Hone Hr Hnz
                   (Hs true)).
        rewrite (throttled_schedules lazy w this argsArray r Hone Hr Hnz
                   (Hs false)).
        reflexivity.
  - subst late. split; [intros _ | discriminate].
    rewrite !throttled_fires_first
      by (try exact Hone; rewrite Hr; reflexivity).
    reflexivity.
Qed.

Lemma throttle_suppress_flag_only_moves_the_late_call_witness :
  let w := Throttle.start 1000 in
  Throttle.throttled
    {| Throttle.proceed := VFunction 0 true true; Throttle.threshold := 2000;
       Throttle.isSuppressTrailingCall := true; Throttle.target := VNull |}
    VUndefined [VString "key"] w
  = Throttle.throttled
      {| Throttle.proceed := VFunction 0 true true; Throttle.threshold := 2000;
         Throttle.isSuppressTrailingCall := false; Throttle.target := VNull |}
      VUndefined [VString "key"] w.
Proof.
  intros w.
  destruct (throttle_suppress_flag_only_moves_the_late_call
              (VFunction 0 true true) VNull 2000 w VUndefined [VString "key"])
    as [Hsame _].
  - left. reflexivity.
  - apply Hsame. reflexivity.
Defined.

(** X8. When a truthy target was fixed by [throttle], every call the
    governor forwards runs on that target, whatever the call-site contexts
    were. *)
Theorem throttle_fixed_target_is_the_context
  (cfg : Throttle.config) (w : Throttle.World) :
  truthy (Throttle.target cfg) = true ->
  Throttle.reachable cfg w ->
  Forall (fun c => this_arg c = Throttle.target cfg) (journal w).
Proof.
  intros Htg Hreach.
  apply (throttle_bound_reachable cfg w Htg Hreach).
Qed.

Lemma throttle_fixed_target_is_the_context_witness :
  let cfg :=
    {| Throttle.proceed := VFunction 0 true true; Throttle.threshold := 100;
       Throttle.isSuppressTrailingCall := false;
       Throttle.target := VObject 1 |} in
  Forall (fun c => this_arg c = VObject 1)
    (journal (Throttle.throttled cfg (VObject 2) [VString "a"]
                (tick_clock 1000 (Throttle.start 1000)))).
Proof.
  intros cfg.
  apply (throttle_fixed_target_is_the_context cfg).
  - reflexivity.
  - apply Throttle.reach_step with (w := Throttle.start 1000).
    + apply Throttle.reach_start.
    + apply Throttle.step_call.
Defined.

(** *** Calls that come slowly *)

Section ThrottleSlowCalls.
Variable cfg : Throttle.config.





End ThrottleSlowCalls.



(** ** The debounce governor, further *)

Section DebounceMore.
Variable cfg : Debounce.config.

Ltac debounce_fields :=
  cbn [svc st journal now next_id pending tid due period job
       tick_clock set_clock option_map
       Debounce.timeoutResetId Debounce.timeoutId Debounce.context
       negb andb app filter fst snd].

(** A call that finds the window closed arms one timer: the leading
    trigger with delay 0, or the trailing trigger with the full delay. *)
Lemma debounced_when_closed (w : Debounce.World) (this : value)
  (argsArray : list value) :
  truthy_num (Debounce.timeoutId (st w)) = false ->
  Debounce.debounced cfg this argsArray w =
    mkWorld
      {| now := now (svc w);
         next_id := next_id (svc w) + 1;
         pending :=
           pending (svc w) ++
             [ {| tid := next_id (svc w);
                  due := now (svc w)
                         + (if Debounce.isTriggerImmediately cfg then 0
                            else Debounce.delay cfg);
                  period := None;
                  job := if Debounce.isTriggerImmediately cfg
                         then Debounce.ImmediateTrigger argsArray
                         else Debounce.DebounceTrigger argsArray |} ] |}
      {| Debounce.timeoutResetId := Debounce.timeoutResetId (st w);
         Debounce.timeoutId := Some (next_id (svc w));
         Debounce.context :=
           or_else (Debounce.target cfg) (getSanitizedTarget this) |}
      (journal w).
Proof.
  intros Hclosed. unfold Debounce.debounced. rewrite Hclosed.
  destruct (Debounce.isTriggerImmediately cfg); reflexivity.
Qed.

Lemma drop_twice_single (T : Type) (id rid : option Z) (tm : timer T)
  (s : service T) :
  pending s = [tm] ->
  id = Some (tid tm) \/ rid = Some (tid tm) ->
  pending (clearTimeout id (clearTimeout rid s)) = [].
Proof.
  intros Hp Hor. unfold clearTimeout, drop.
  destruct rid as [r | ]; destruct id as [i | ];
    cbn [pending]; rewrite Hp; cbn [filter].
  - destruct (Z.eqb_spec (tid tm) r) as [E | E]; cbn [negb filter];
      [reflexivity | ].
    destruct (Z.eqb_spec (tid tm) i) as [E' | E']; cbn [negb];
      [reflexivity | ].
    destruct Hor as [H | H]; injection H as H; congruence.
  - destruct (Z.eqb_spec (tid tm) r) as [E | E]; cbn [negb];
      [reflexivity | ].
    destruct Hor as [H | H]; [discriminate H | injection H as H; congruence].
  - destruct (Z.eqb_spec (tid tm) i) as [E | E]; cbn [negb];
      [reflexivity | ].
    destruct Hor as [H | H]; [injection H as H; congruence | discriminate H].
  - destruct Hor as [H | H]; discriminate H.
Qed.

(** A call that finds the window open replaces the one pending timer by a
    trailing trigger with its own arguments. *)
Lemma debounced_when_open (w : Debounce.World) (this : value)
  (argsArray : list value) (tm : timer Debounce.callback) :
  truthy_num (Debounce.timeoutId (st w)) = true ->
  pending (svc w) = [tm] ->
  Debounce.timeoutId (st w) = Some (tid tm)
  \/ Debounce.timeoutResetId (st w) = Some (tid tm) ->
  Debounce.debounced cfg this argsArray w =
    mkWorld
      {| now := now (svc w);
         next_id := next_id (svc w) + 1;
         pending :=
           [ {| tid := next_id (svc w);
                due := now (svc w) + Debounce.delay cfg;
                period := None;
                job := Debounce.DebounceTrigger argsArray |} ] |}
      {| Debounce.timeoutResetId := Debounce.timeoutResetId (st w);
         Debounce.timeoutId := Some (next_id (svc w));
         Debounce.context :=
           or_else (Debounce.target cfg) (getSanitizedTarget this) |}
      (journal w).
Proof.
  intros Hopen Hp Hor.
  pose proof (drop_twice_single _ (Debounce.timeoutId (st w))
                (Debounce.timeoutResetId (st w)) tm (svc w) Hp Hor) as Hclear.
  destruct (clearTimeout_keeps _ (Debounce.timeoutId (st w))
              (clearTimeout (Debounce.timeoutResetId (st w)) (svc w)))
    as [Hnow Hnext].
  destruct (clearTimeout_keeps _ (Debounce.timeoutResetId (st w)) (svc w))
    as [Hnow' Hnext'].
  unfold Debounce.debounced. rewrite Hopen.
  unfold setTimeout, arm. rewrite Hclear, Hnow, Hnext, Hnow', Hnext'.
  reflexivity.
Qed.

Lemma debounce_inv_start (t0 : Z) :
  Debounce.window_invariant (Debounce.start t0).
Proof. split; [cbn; lia | left; split; reflexivity]. Qed.

Lemma debounce_inv_tick_clock (w : Debounce.World) (t : Z) :
  Debounce.window_invariant w -> Debounce.window_invariant (tick_clock t w).
Proof. unfold Debounce.window_invariant. cbn. trivial. Qed.

Lemma debounce_inv_debounced (w : Debounce.World) (this : value)
  (argsArray : list value) :
  Debounce.window_invariant w ->
  Debounce.window_invariant (Debounce.debounced cfg this argsArray w).
Proof.
  intros [Hid [[Hp Hclosed] | (tm & Hp & Hper & Htid & Hopen & Hjob)]].
  - rewrite debounced_when_closed by (rewrite Hclosed; reflexivity).
    rewrite Hp. split; [cbn; lia | ]. right.
    eexists. split; [reflexivity | ]. cbn.
    split; [reflexivity | ]. split; [lia | ].
    split; [apply negb_true_iff, Z.eqb_neq; lia | ].
    destruct (Debounce.isTriggerImmediately cfg); reflexivity.
  - rewrite (debounced_when_open w this argsArray tm Hopen Hp)
      by (destruct (job tm); auto).
    split; [cbn; lia | ]. right.
    eexists. split; [reflexivity | ]. cbn.
    split; [reflexivity | ]. split; [lia | ].
    split; [apply negb_true_iff, Z.eqb_neq; lia | reflexivity].
Qed.

Lemma debounce_inv_dispatch (w : Debounce.World)
  (tm : timer Debounce.callback) :
  Debounce.window_invariant w -> In tm (pending (svc w)) ->
  Debounce.window_invariant (dispatch (Debounce.fire cfg) tm w).
Proof.
  intros [Hid [[Hp _] | (tm' & Hp & Hper & Htid & Hopen & Hjob)]] Hin;
    rewrite Hp in Hin; [destruct Hin | ].
  destruct Hin as [<- | []].
  unfold dispatch, expire, rearm, drop. rewrite Hper, Hp.
  cbn [filter]. rewrite Z.eqb_refl. cbn [negb].
  destruct (job tm') as [a | a | ];
    cbn [Debounce.fire]; unfold Debounce.debounceTrigger,
      Debounce.immediateTrigger, Debounce.forward, Debounce.resetTimeoutId,
      setTimeout, arm;
    unfold Debounce.window_invariant;
    cbn [svc st journal now next_id pending Debounce.timeoutId
         Debounce.timeoutResetId Debounce.context app].
  - split; [exact Hid | left; split; reflexivity].
  - split; [lia | ]. right. eexists. split; [reflexivity | ].
    cbn [period tid job]. split; [reflexivity | ]. split; [lia | ].
    split; [exact Hopen | reflexivity].
  - split; [exact Hid | left; split; reflexivity].
Qed.

Lemma debounce_inv_reachable (w : Debounce.World) :
  Debounce.reachable cfg w -> Debounce.window_invariant w.
Proof.
  induction 1 as [t0 | w w' _ IH Hstep].
  - apply debounce_inv_start.
  - destruct Hstep.
    + apply debounce_inv_debounced, debounce_inv_tick_clock, IH.
    + apply debounce_inv_dispatch; assumption.
Qed.

(** *** The context of forwarded calls *)

Lemma debounced_keeps (w : Debounce.World) (this : value)
  (argsArray : list value) :
  journal (Debounce.debounced cfg this argsArray w) = journal w
  /\ Debounce.context (st (Debounce.debounced cfg this argsArray w))
     = or_else (Debounce.target cfg) (getSanitizedTarget this).
Proof.
  unfold Debounce.debounced, setTimeout, arm.
  destruct (truthy_num (Debounce.timeoutId (st w)));
    [ | destruct (Debounce.isTriggerImmediately cfg)];
    split; reflexivity.
Qed.

Lemma debounce_bound_reachable (w : Debounce.World) :
  truthy (Debounce.target cfg) = true ->
  Debounce.reachable cfg w -> Debounce.context_bound cfg w.
Proof.
  intros Htg. induction 1 as [t0 | w w' _ [Hctx Hj] Hstep].
  - split; [intros H; exfalso; apply H; reflexivity | constructor].
  - destruct Hstep as [w t this argsArray | w tm Hin].
    + destruct (debounced_keeps (tick_clock t w) this argsArray) as [Ej Ec].
      split.
      * intros _. rewrite Ec. unfold or_else. rewrite Htg. reflexivity.
      * rewrite Ej. exact Hj.
    + assert (Hne : pending (svc w) <> [])
        by (intros E; rewrite E in Hin; exact Hin).
      specialize (Hctx Hne).
      unfold dispatch. destruct (job tm) as [a | a | ];
        cbn [Debounce.fire]; unfold Debounce.debounceTrigger,
          Debounce.immediateTrigger, Debounce.forward,
          Debounce.resetTimeoutId, setTimeout, arm;
        cbn [svc st journal Debounce.context];
        (split; [intros _; exact Hctx | ]);
        try exact Hj;
        (apply Forall_app; split; [exact Hj | ];
         constructor; [exact Hctx | constructor]).
Qed.

End DebounceMore.

(** X10. In every state a debounced callable can reach, at most one timer
    is pending, and [timeoutId] is set exactly while one is: the window is
    open as long as the host has something to run for the governor. *)
Theorem debounce_window_is_open_while_a_timer_is_pending
  (cfg : Debounce.config) (w : Debounce.World) :
  Debounce.reachable cfg w ->
  (List.length (pending (svc w)) <= 1)%nat
  /\ (pending (svc w) = [] <-> Debounce.timeoutId (st w) = None)
  /\ (pending (svc w) <> [] <->
      truthy_num (Debounce.timeoutId (st w)) = true).
Proof.
  intros Hreach.
  destruct (debounce_inv_reachable cfg w Hreach)
    as [_ [[Hp Hclosed] | (tm & Hp & _ & _ & Hopen & _)]];
    rewrite Hp.
  - rewrite Hclosed. cbn. repeat split; intros; try lia; try congruence.
  - split; [cbn; lia | ]. split; split; intros H.
    + discriminate H.
    + rewrite H in Hopen. discriminate Hopen.
    + exact Hopen.
    + discriminate.
Qed.

Lemma debounce_window_is_open_while_a_timer_is_pending_witness :
  let cfg :=
    {| Debounce.proceed := VFunction 0 true true; Debounce.delay := 1000;
       Debounce.isTriggerImmediately := false; Debounce.target := VNull |} in
  let w := Debounce.debounced cfg VUndefined [VString "key"]
             (tick_clock 500 (Debounce.start 0)) in
  (List.length (pending (svc w)) <= 1)%nat.
Proof.
  intros cfg w.
  apply (debounce_window_is_open_while_a_timer_is_pending cfg w).
  apply Debounce.reach_step with (w := Debounce.start 0).
  - apply Debounce.reach_start.
  - apply Debounce.step_call.
Defined.

(** X11. When a truthy target was fixed by [debounce], every call the
    governor forwards runs on that target, whatever the call-site contexts
    were. *)
Theorem debounce_fixed_target_is_the_context
  (cfg : Debounce.config) (w : Debounce.World) :
  truthy (Debounce.target cfg) = true ->
  Debounce.reachable cfg w ->
  Forall (fun c => this_arg c = Debounce.target cfg) (journal w).
Proof.
  intros Htg Hreach.
  apply (debounce_bound_reachable cfg w Htg Hreach).
Qed.

Lemma debounce_fixed_target_is_the_context_witness :
  let cfg :=
    {| Debounce.proceed := VFunction 0 true true; Debounce.delay := 50;
       Debounce.isTriggerImmediately := false;
       Debounce.target := VObject 1 |} in
  let w := Debounce.debounced cfg (VObject 2) [VString "a"]
             (tick_clock 10 (Debounce.start 0)) in
  let tm := {| tid := 1; due := 60; period := None;
               job := Debounce.DebounceTrigger [VString "a"] |} in
  Forall (fun c => this_arg c = VObject 1)
    (journal (dispatch (Debounce.fire cfg) tm w)).
Proof.
  intros cfg w tm.
  apply (debounce_fixed_target_is_the_context cfg).
  - reflexivity.
  - apply Debounce.reach_step with (w := w).
    + apply Debounce.reach_step with (w := Debounce.start 0).
      * apply Debounce.reach_start.
      * apply Debounce.step_call.
    + apply Debounce.step_timer. left. reflexivity.
Defined.

(** *** The quiet period *)

Ltac debounce_fields :=
  cbn [svc st journal now next_id pending tid due period job
       tick_clock set_clock option_map
       Debounce.timeoutResetId Debounce.timeoutId Debounce.context
       negb andb app filter fst snd].

Lemma last_cons_default (A : Type) (x d : A) (l : list A) :
  last (x :: l) d = last l x.
Proof.
  revert x d. induction l as [| y l IH]; intros x d; [reflexivity | ].
  change (last (x :: y :: l) d) with (last (y :: l) d).
  rewrite IH. symmetry. apply IH.
Qed.

Section DebounceBurst.
Variable cfg : Debounce.config.
Hypothesis delay_positive : 0 < Debounce.delay cfg.

(** Arriving at the next call of a burst, whichever way the host breaks
    ties: the pending trigger is not due yet. *)
Lemma debounce_arrive_early (tf : bool) (fuel : nat) (t : Z)
  (w : Debounce.World) (tm : timer Debounce.callback) :
  pending (svc w) = [tm] -> t < due tm ->
  (if tf then advance (Debounce.fire cfg) fuel t w
   else advance_before (Debounce.fire cfg) fuel t w)
  = Some (tick_clock t w).
Proof.
  intros Hp Hdue.
  assert (Hq : forall limit, limit <= t -> next_due limit (svc w) = None).
  { intros limit Hl. unfold next_due. rewrite Hp. cbn [earliest].
    replace (due tm <=? limit) with false
      by (symmetry; apply Z.leb_gt; lia).
    reflexivity. }
  destruct tf; unfold advance, advance_before;
    rewrite drain_quiet by (apply Hq; lia); reflexivity.
Qed.

(** With a trailing trigger for the call at [t] pending, the rest of the
    burst and the quiet after it end in one forwarded call. *)
Lemma debounce_rest_of_burst (tf : bool) (fuel : nat) :
  forall (rest : list (Z * value * list value)) (w : Debounce.World)
         (t : Z) (this : value) (argsArray : list value) (horizon : Z),
    pending (svc w) =
      [ {| tid := next_id (svc w) - 1; due := t + Debounce.delay cfg;
           period := None; job := Debounce.DebounceTrigger argsArray |} ] ->
    Debounce.timeoutId (st w) = Some (next_id (svc w) - 1) ->
    1 < next_id (svc w) ->
    now (svc w) = t ->
    Debounce.context (st w)
    = or_else (Debounce.target cfg) (getSanitizedTarget this) ->
    Debounce.within cfg t rest ->
    fst (fst (last rest (t, this, argsArray))) + Debounce.delay cfg
    <= horizon ->
    exists w',
      Debounce.play cfg tf (S fuel) rest horizon w = Some w'
      /\ journal w' =
           journal w ++
             [ Debounce.forwarded_after_quiet cfg
                 (last rest (t, this, argsArray)) ]
      /\ pending (svc w') = []
      /\ Debounce.timeoutId (st w') = None.
Proof.
  induction rest as [| [[t' this'] args'] rest IH];
    intros w t this argsArray horizon Hp Hid Hnext Hnow Hctx Hwin Hh.
  - cbn [last fst] in Hh. cbn [Debounce.play last].
    unfold advance. cbn [drain]. unfold next_due at 1. rewrite Hp.
    cbn [earliest due].
    replace (t + Debounce.delay cfg <=? horizon) with true
      by (symmetry; apply Z.leb_le; lia).
    unfold dispatch, expire, rearm, drop. rewrite Hp.
    cbn [period job tid due filter Debounce.fire].
    rewrite Z.eqb_refl. cbn [negb].
    unfold Debounce.debounceTrigger, Debounce.forward,
      Debounce.resetTimeoutId.
    debounce_fields.
    rewrite drain_quiet by reflexivity. debounce_fields.
    eexists. split; [reflexivity | ]. debounce_fields.
    split; [ | split; reflexivity].
    unfold Debounce.forwarded_after_quiet. rewrite Hctx, Hnow.
    do 3 f_equal. lia.
  - cbn [Debounce.within] in Hwin. destruct Hwin as [Ht' Hrest].
    rewrite last_cons_default in Hh |- *.
    cbn [Debounce.play].
    rewrite (debounce_arrive_early tf (S fuel) t' w _ Hp)
      by (cbn [due]; lia).
    rewrite (debounced_when_open cfg (tick_clock t' w) this' args' _)
      by (try exact Hp; try (left; exact Hid);
          cbn [tick_clock st]; rewrite Hid; cbn [truthy_num];
          apply negb_true_iff, Z.eqb_neq; lia).
    debounce_fields. rewrite Hnow.
    replace (Z.max t t') with t' by lia.
    match goal with
    | |- context [Debounce.play cfg tf (S fuel) rest horizon ?w1] =>
        destruct (IH w1 t' this' args' horizon) as (w' & Hplay & Hj & Hq)
    end; debounce_fields.
    + do 3 f_equal. lia.
    + f_equal. lia.
    + lia.
    + reflexivity.
    + reflexivity.
    + exact Hrest.
    + exact Hh.
    + exists w'. split; [exact Hplay | ]. split; [exact Hj | exact Hq].
Qed.

End DebounceBurst.

(** X12. The quiet period.  In trailing mode, starting with the window
    closed, a burst of calls in which each call comes less than one delay
    after the one before is answered by exactly one forwarded call: one
    delay after the last call of the burst, with that call's arguments and
    context.  Nothing is forwarded before, and afterwards the window is
    closed again.  It makes no difference which way the host breaks ties
    between a timer and a call. *)
Theorem debounce_fires_once_after_the_burst
  (cfg : Debounce.config) (w : Debounce.World)
  (t1 : Z) (this1 : value) (a1 : list value)
  (rest : list (Z * value * list value)) (horizon : Z)
  (timers_first : bool) (fuel : nat) :
  Debounce.isTriggerImmediately cfg = false ->
  0 < Debounce.delay cfg ->
  Debounce.window_invariant w ->
  pending (svc w) = [] ->
  now (svc w) <= t1 ->
  Debounce.within cfg t1 rest ->
  fst (fst (last rest (t1, this1, a1))) + Debounce.delay cfg <= horizon ->
  exists w',
    Debounce.play cfg timers_first (S fuel) ((t1, this1, a1) :: rest)
      horizon w = Some w'
    /\ journal w' =
         journal w ++
           [ Debounce.forwarded_after_quiet cfg (last rest (t1, this1, a1)) ]
    /\ pending (svc w') = []
    /\ Debounce.timeoutId (st w') = None.
Proof.
  intros Hmode Hdelay [Hid [[_ Hclosed] | (tm & Hp' & _)]] Hp Hnow Hwin Hh;
    [ | rewrite Hp in Hp'; discriminate Hp'].
  cbn [Debounce.play].
  assert (Harrive :
    (if timers_first then advance (Debounce.fire cfg) (S fuel) t1 w
     else advance_before (Debounce.fire cfg) (S fuel) t1 w)
    = Some (tick_clock t1 w)).
  { destruct timers_first; unfold advance, advance_before;
      rewrite drain_quiet by (unfold next_due; rewrite Hp; reflexivity);
      reflexivity. }
  rewrite Harrive.
  rewrite debounced_when_closed
    by (cbn [tick_clock st]; rewrite Hclosed; reflexivity).
  rewrite Hmode. debounce_fields. rewrite Hp. cbn [app].
  replace (Z.max (now (svc w)) t1) with t1 by lia.
  match goal with
  | |- context [Debounce.play cfg timers_first (S fuel) rest horizon ?w1] =>
      destruct (debounce_rest_of_burst cfg Hdelay timers_first fuel
                  rest w1 t1 this1 a1 horizon)
        as (w' & Hplay & Hj & Hq)
  end; debounce_fields.
  - do 3 f_equal. lia.
  - f_equal. lia.
  - lia.
  - reflexivity.
  - reflexivity.
  - exact Hwin.
  - exact Hh.
  - exists w'. split; [exact Hplay | ]. split; [exact Hj | exact Hq].
Qed.

Lemma debounce_fires_once_after_the_burst_witness :
  exists w',
    Debounce.play
      {| Debounce.proceed := VFunction 0 true true; Debounce.delay := 50;
         Debounce.isTriggerImmediately := false; Debounce.target := VNull |}
      true 1
      [ (0, VUndefined, [VString "a"]);
        (10, VUndefined, [VString "b"]);
        (20, VUndefined, [VString "c"]) ]
      100 (Debounce.start 0) = Some w'
    /\ journal w' =
         [ {| at_time := 20 + 50; this_arg := VNull;
              arguments := [VString "c"] |} ]
    /\ pending (svc w') = []
    /\ Debounce.timeoutId (st w') = None.
Proof.
  apply (debounce_fires_once_after_the_burst
           {| Debounce.proceed := VFunction 0 true true; Debounce.delay := 50;
              Debounce.isTriggerImmediately := false;
              Debounce.target := VNull |}
           (Debounce.start 0) 0 VUndefined [VString "a"]
           [ (10, VUndefined, [VString "b"]);
             (20, VUndefined, [VString "c"]) ]
           100 true 0%nat).
  - reflexivity.
  - cbn. lia.
  - apply debounce_inv_start.
  - reflexivity.
  - cbn. lia.
  - cbn. lia.
  - cbn. lia.
Defined.

(** *** The leading edge *)

(** X13. In leading mode, starting with the window closed, a call that
    stays alone is forwarded exactly once, at the clock reading of the call
    (by a timer of delay 0), with its arguments and context.  Until one
    delay has passed the window stays open, with only the re-arm timer
    pending; from then on the window is closed and nothing is pending:
    there is no trailing fire. *)
Theorem debounce_leading_call_alone_fires_once
  (cfg : Debounce.config) (w : Debounce.World) (t : Z) (this : value)
  (argsArray : list value) (fuel : nat) :
  Debounce.isTriggerImmediately cfg = true ->
  0 < Debounce.delay cfg ->
  Debounce.window_invariant w ->
  pending (svc w) = [] ->
  now (svc w) <= t ->
  let w1 := Debounce.debounced cfg this argsArray (tick_clock t w) in
  let fired :=
    journal w ++
      [ {| at_time := t;
           this_arg := or_else (Debounce.target cfg) (getSanitizedTarget this);
           arguments := argsArray |} ] in
  journal w1 = journal w
  /\ (forall h, t <= h < t + Debounce.delay cfg ->
        exists w2,
          advance (Debounce.fire cfg) (S (S fuel)) h w1 = Some w2
          /\ journal w2 = fired
          /\ truthy_num (Debounce.timeoutId (st w2)) = true
          /\ exists tm, pending (svc w2) = [tm]
                        /\ job tm = Debounce.ResetTimeoutId
                        /\ due tm = t + Debounce.delay cfg)
  /\ (forall h, t + Debounce.delay cfg <= h ->
        exists w3,
          advance (Debounce.fire cfg) (S (S fuel)) h w1 = Some w3
          /\ journal w3 = fired
          /\ pending (svc w3) = []
          /\ Debounce.timeoutId (st w3) = None).
Proof.
  intros Hmode Hdelay [Hid [[_ Hclosed] | (tm & Hp' & _)]] Hp Hnow w1 fired;
    [ | rewrite Hp in Hp'; discriminate Hp'].
  assert (Hw1 : w1 =
    mkWorld
      {| now := t; next_id := next_id (svc w) + 1;
         pending :=
           [ {| tid := next_id (svc w); due := t + 0; period := None;
                job := Debounce.ImmediateTrigger argsArray |} ] |}
      {| Debounce.timeoutResetId := Debounce.timeoutResetId (st w);
         Debounce.timeoutId := Some (next_id (svc w));
         Debounce.context :=
           or_else (Debounce.target cfg) (getSanitizedTarget this) |}
      (journal w)).
  { unfold w1. rewrite debounced_when_closed
      by (cbn [tick_clock st]; rewrite Hclosed; reflexivity).
    rewrite Hmode. debounce_fields. rewrite Hp. cbn [app].
    replace (Z.max (now (svc w)) t) with t by lia. reflexivity. }
  (* the zero-delay timer runs first *)
  assert (Hfirst : forall h, t <= h ->
    drain (Debounce.fire cfg) (S (S fuel)) h w1
    = drain (Debounce.fire cfg) (S fuel) h
        (mkWorld
           {| now := t; next_id := next_id (svc w) + 1 + 1;
              pending :=
                [ {| tid := next_id (svc w) + 1;
                     due := t + Debounce.delay cfg; period := None;
                     job := Debounce.ResetTimeoutId |} ] |}
           {| Debounce.timeoutResetId := Some (next_id (svc w) + 1);
              Debounce.timeoutId := Some (next_id (svc w));
              Debounce.context :=
                or_else (Debounce.target cfg) (getSanitizedTarget this) |}
           fired)).
  { intros h Hh. rewrite Hw1.
    change (drain (Debounce.fire cfg) (S (S fuel)) h ?x)
      with (match next_due h (svc x) with
            | None => Some x
            | Some tm => drain (Debounce.fire cfg) (S fuel) h
                           (dispatch (Debounce.fire cfg) tm x)
            end).
    unfold next_due at 1. debounce_fields. cbn [earliest due].
    replace (t + 0 <=? h) with true by (symmetry; apply Z.leb_le; lia).
    unfold dispatch, expire, rearm, drop.
    cbn [period job tid due filter Debounce.fire svc st journal pending now
         next_id].
    rewrite Z.eqb_refl. cbn [negb].
    unfold Debounce.immediateTrigger, Debounce.forward, setTimeout, arm.
    debounce_fields.
    replace (Z.max t (t + 0)) with t by lia. reflexivity. }
  split; [rewrite Hw1; reflexivity | ]. split.
  - intros h Hh. unfold advance. rewrite Hfirst by lia.
    rewrite drain_quiet.
    + eexists. split; [reflexivity | ]. debounce_fields.
      split; [reflexivity | ].
      split; [cbn [truthy_num]; apply negb_true_iff, Z.eqb_neq; lia | ].
      eexists. split; [reflexivity | ]. split; reflexivity.
    + unfold next_due. debounce_fields. cbn [earliest due].
      replace (t + Debounce.delay cfg <=? h) with false
        by (symmetry; apply Z.leb_gt; lia).
      reflexivity.
  - intros h Hh. unfold advance. rewrite Hfirst by lia.
    cbn [drain]. unfold next_due at 1. debounce_fields. cbn [earliest due].
    replace (t + Debounce.delay cfg <=? h) with true
      by (symmetry; apply Z.leb_le; lia).
    unfold dispatch, expire, rearm, drop.
    cbn [period job tid due filter Debounce.fire svc st journal pending now
         next_id].
    rewrite Z.eqb_refl. cbn [negb].
    unfold Debounce.resetTimeoutId. debounce_fields.
    rewrite drain_quiet by reflexivity.
    eexists. split; [reflexivity | ]. debounce_fields.
    repeat split.
Qed.

Lemma debounce_leading_call_alone_fires_once_witness :
  let cfg :=
    {| Debounce.proceed := VFunction 0 true true; Debounce.delay := 3000;
       Debounce.isTriggerImmediately := true; Debounce.target := VNull |} in
  journal (Debounce.debounced cfg VUndefined [VString "key"]
             (tick_clock 500 (Debounce.start 0)))
  = journal (Debounce.start 0).
Proof.
  intros cfg.
  apply (debounce_leading_call_alone_fires_once cfg (Debounce.start 0) 500
           VUndefined [VString "key"] 0%nat).
  - reflexivity.
  - cbn. lia.
  - apply debounce_inv_start.
  - reflexivity.
  - cbn. lia.
Defined.

(** X14. Two calls in the same turn, starting with the window closed: the
    second call cancels what the first one armed, so the first call's
    arguments are never forwarded, and the only forwarded call is the
    second one's, one delay later.  This holds in trailing and in leading
    mode alike: in leading mode the timer of delay 0 is cancelled before
    it can run, and nothing fires on the leading edge. *)
Theorem debounce_second_call_in_the_same_turn_wins
  (cfg : Debounce.config) (w : Debounce.World)
  (this1 this2 : value) (a1 a2 : list value) (horizon : Z) (fuel : nat) :
  0 < Debounce.delay cfg ->
  Debounce.window_invariant w ->
  pending (svc w) = [] ->
  now (svc w) + Debounce.delay cfg <= horizon ->
  let w2 := Debounce.debounced cfg this2 a2
              (Debounce.debounced cfg this1 a1 w) in
  journal w2 = journal w
  /\ (exists tm, pending (svc w2) = [tm]
                 /\ job tm = Debounce.DebounceTrigger a2
                 /\ due tm = now (svc w) + Debounce.delay cfg)
  /\ exists w3,
       advance (Debounce.fire cfg) (S fuel) horizon w2 = Some w3
       /\ journal w3 =
            journal w ++
              [ {| at_time := now (svc w) + Debounce.delay cfg;
                   this_arg := or_else (Debounce.target cfg)
                                 (getSanitizedTarget this2);
                   arguments := a2 |} ]
       /\ pending (svc w3) = []
       /\ Debounce.timeoutId (st w3) = None.
Proof.
  intros Hdelay [Hid [[_ Hclosed] | (tm & Hp' & _)]] Hp Hh w2;
    [ | rewrite Hp in Hp'; discriminate Hp'].
  assert (Hw2 : w2 =
    mkWorld
      {| now := now (svc w); next_id := next_id (svc w) + 1 + 1;
         pending :=
           [ {| tid := next_id (svc w) + 1;
                due := now (svc w) + Debounce.delay cfg; period := None;
                job := Debounce.DebounceTrigger a2 |} ] |}
      {| Debounce.timeoutResetId := Debounce.timeoutResetId (st w);
         Debounce.timeoutId := Some (next_id (svc w) + 1);
         Debounce.context :=
           or_else (Debounce.target cfg) (getSanitizedTarget this2) |}
      (journal w)).
  { unfold w2.
    rewrite (debounced_when_closed cfg w this1 a1)
      by (rewrite Hclosed; reflexivity).
    rewrite Hp. cbn [app].
    erewrite debounced_when_open;
      [ reflexivity
      | cbn [st Debounce.timeoutId truthy_num];
        apply negb_true_iff, Z.eqb_neq; lia
      | reflexivity
      | left; reflexivity ]. }
  clearbody w2. subst w2.
  split; [reflexivity | ].
  split; [eexists; repeat split | ].
  match goal with
  | |- context [advance _ _ _ ?x] =>
      destruct (debounce_rest_of_burst cfg Hdelay true fuel [] x
                  (now (svc w)) this2 a2 horizon)
        as (w3 & Hplay & Hj & Hq & Hc)
  end; debounce_fields.
  - f_equal. f_equal. lia.
  - f_equal. lia.
  - lia.
  - reflexivity.
  - reflexivity.
  - exact I.
  - cbn [last fst]. exact Hh.
  - exists w3. cbn [Debounce.play] in Hplay. split; [exact Hplay | ].
    split; [ | split; assumption].
    rewrite Hj. reflexivity.
Qed.

Lemma debounce_second_call_in_the_same_turn_wins_witness :
  let cfg :=
    {| Debounce.proceed := VFunction 0 true true; Debounce.delay := 50;
       Debounce.isTriggerImmediately := true; Debounce.target := VNull |} in
  journal (Debounce.debounced cfg VUndefined [VString "b"]
             (Debounce.debounced cfg VUndefined [VString "a"]
                (Debounce.start 0)))
  = journal (Debounce.start 0).
Proof.
  intros cfg.
  apply (debounce_second_call_in_the_same_turn_wins cfg (Debounce.start 0)
           VUndefined VUndefined [VString "a"] [VString "b"] 50 0%nat).
  - cbn. lia.
  - apply debounce_inv_start.
  - reflexivity.
  - cbn. lia.
Defined.

(** ** The clocked governor, further *)

Lemma drain_step (T G E : Type) (fire : T -> world T G E -> world T G E)
  (fuel : nat) (limit : Z) (w : world T G E) (tm : timer T) :
  next_due limit (svc w) = Some tm ->
  drain fire (S fuel) limit w = drain fire fuel limit (dispatch fire tm w).
Proof. intros H. cbn [drain]. rewrite H. reflexivity. Qed.

Section ClockedCycle.
Variable cfg : Clocked.config.
Hypothesis interval_positive : 0 < Clocked.cfg_interval cfg.

Ltac clocked_fields :=
  cbn [svc st journal now next_id pending tid due period job
       tick_clock set_clock option_map
       Clocked.thisArg Clocked.argsArr Clocked.clockCount
       Clocked.clockStart Clocked.timerId Clocked.increment
       negb andb app filter map].

(** An invocation puts a governor that satisfies the state invariant at
    the start of a cycle. *)
Lemma clocked_call_starts_a_cycle (w : Clocked.World) (this : value)
  (args : list value) :
  Clocked.invariant cfg w ->
  Clocked.clocked cfg this args w
  = Clocked.running cfg (next_id (svc w) + 1) (next_id (svc w))
      (now (svc w)) (coalesce (getSanitizedTarget this) (Clocked.target cfg))
      args (now (svc w) + Clocked.cfg_interval cfg) 0 (journal w).
Proof.
  intros Hinv.
  destruct (clocked_call_result cfg w this args Hinv)
    as (Hp & Hn & Hnow & Hj & Hs).
  destruct (Clocked.clocked cfg this args w) as [[n nx pd] s j].
  cbn [svc st journal now next_id pending] in *. subst.
  unfold Clocked.running. do 2 f_equal. lia.
Qed.

Lemma running_next_due (nx id begun : Z) (this : value) (args : list value)
  (d c : Z) (j : list Clocked.event) (limit : Z) :
  next_due limit (svc (Clocked.running cfg nx id begun this args d c j))
  = if d <=? limit
    then Some {| tid := id; due := d;
                 period := Some (Clocked.cfg_interval cfg);
                 job := Clocked.chosen_trigger cfg |}
    else None.
Proof. reflexivity. Qed.

Lemma running_due (nx id begun : Z) (this : value) (args : list value)
  (d c : Z) (j : list Clocked.event) (limit : Z) :
  d <= limit ->
  next_due limit (svc (Clocked.running cfg nx id begun this args d c j))
  = Some {| tid := id; due := d;
            period := Some (Clocked.cfg_interval cfg);
            job := Clocked.chosen_trigger cfg |}.
Proof.
  intros Hd. rewrite running_next_due.
  replace (d <=? limit) with true by (symmetry; apply Z.leb_le; exact Hd).
  reflexivity.
Qed.

Lemma running_not_due (nx id begun : Z) (this : value) (args : list value)
  (d c : Z) (j : list Clocked.event) (limit : Z) :
  limit < d ->
  next_due limit (svc (Clocked.running cfg nx id begun this args d c j))
  = None.
Proof.
  intros Hd. rewrite running_next_due.
  replace (d <=? limit) with false by (symmetry; apply Z.leb_gt; exact Hd).
  reflexivity.
Qed.

(** What the controller's calls of [proceed] do to the world. *)
Lemma perform_proceeds (acts : list Clocked.action) :
  forall w : Clocked.World,
    Clocked.only_proceeds acts ->
    fold_left (fun acc a => Clocked.perform cfg a acc) acts w
    = mkWorld (svc w) (st w)
        (journal w ++ Clocked.forwards (now (svc w)) acts).
Proof.
  induction acts as [| a acts IH]; intros w Hall; cbn [fold_left].
  - unfold Clocked.forwards. cbn [flat_map]. rewrite app_nil_r.
    destruct w; reflexivity.
  - destruct (Hall a (or_introl eq_refl)) as (this & args & ->).
    rewrite IH by (intros b Hb; apply Hall; right; exact Hb).
    cbn [Clocked.perform svc st journal].
    unfold Clocked.forwards. cbn [flat_map].
    rewrite <- app_assoc. reflexivity.
Qed.

(** One tick without a controller. *)
Lemma running_tick_proceeds (nx id begun : Z) (this : value)
  (args : list value) (d c : Z) (j : list Clocked.event) :
  Clocked.controller cfg = None ->
  dispatch (Clocked.fire cfg)
    {| tid := id; due := d; period := Some (Clocked.cfg_interval cfg);
       job := Clocked.chosen_trigger cfg |}
    (Clocked.running cfg nx id begun this args d c j)
  = Clocked.running cfg nx id begun this args
      (d + Clocked.cfg_interval cfg) c
      (j ++ [ Clocked.Forwarded
                {| at_time := d; this_arg := this; arguments := args |} ]).
Proof.
  intros Hctl. unfold dispatch, expire, rearm, Clocked.running.
  unfold Clocked.chosen_trigger. rewrite Hctl.
  cbn [job period due tid svc st journal pending now map Clocked.fire].
  rewrite Z.eqb_refl. unfold Clocked.triggerProceed. clocked_fields.
  replace (Z.max (d - Clocked.cfg_interval cfg) d) with d by lia.
  do 2 f_equal. lia.
Qed.

(** One tick in which the controller only proceeds. *)
Lemma running_tick_controlled (ctl : Clocked.controller_fn)
  (nx id begun : Z) (this : value) (args : list value) (d c : Z)
  (j : list Clocked.event) :
  Clocked.controller cfg = Some ctl ->
  Clocked.only_proceeds
    (ctl (Clocked.data_at cfg begun this args (c + 1) d)) ->
  dispatch (Clocked.fire cfg)
    {| tid := id; due := d; period := Some (Clocked.cfg_interval cfg);
       job := Clocked.chosen_trigger cfg |}
    (Clocked.running cfg nx id begun this args d c j)
  = Clocked.running cfg nx id begun this args
      (d + Clocked.cfg_interval cfg) (c + 1)
      (j ++ Clocked.HandedOver
              (Clocked.data_at cfg begun this args (c + 1) d)
            :: Clocked.forwards d
                 (ctl (Clocked.data_at cfg begun this args (c + 1) d))).
Proof.
  intros Hctl Hquiet. unfold dispatch, expire, rearm, Clocked.running.
  unfold Clocked.chosen_trigger. rewrite Hctl.
  cbn [job period due tid svc st journal pending now map Clocked.fire].
  rewrite Z.eqb_refl. unfold Clocked.triggerController. rewrite Hctl.
  clocked_fields.
  replace (Z.max (d - Clocked.cfg_interval cfg) d) with d by lia.
  fold (Clocked.data_at cfg begun this args (c + 1) d).
  rewrite perform_proceeds by exact Hquiet.
  clocked_fields. rewrite <- app_assoc. cbn [app].
  do 2 f_equal. lia.
Qed.

(** The tick in which the controller calls [terminate], after which it
    only proceeds. *)
Lemma running_tick_terminates (ctl : Clocked.controller_fn)
  (nx id begun : Z) (this : value) (args : list value) (d c : Z)
  (j : list Clocked.event) (before after : list Clocked.action) :
  Clocked.controller cfg = Some ctl ->
  ctl (Clocked.data_at cfg begun this args (c + 1) d)
  = before ++ Clocked.Terminate :: after ->
  Clocked.only_proceeds before ->
  Clocked.only_proceeds after ->
  dispatch (Clocked.fire cfg)
    {| tid := id; due := d; period := Some (Clocked.cfg_interval cfg);
       job := Clocked.chosen_trigger cfg |}
    (Clocked.running cfg nx id begun this args d c j)
  = mkWorld
      {| now := d; next_id := nx; pending := [] |}
      {| Clocked.thisArg := this; Clocked.argsArr := args;
         Clocked.clockCount := None; Clocked.clockStart := None;
         Clocked.timerId := None |}
      (j ++ Clocked.HandedOver
              (Clocked.data_at cfg begun this args (c + 1) d)
            :: Clocked.forwards d (before ++ Clocked.Terminate :: after)).
Proof.
  intros Hctl Hacts Hbefore Hafter.
  unfold dispatch, expire, rearm, Clocked.running.
  unfold Clocked.chosen_trigger. rewrite Hctl.
  cbn [job period due tid svc st journal pending now map Clocked.fire].
  rewrite Z.eqb_refl. unfold Clocked.triggerController. rewrite Hctl.
  clocked_fields.
  replace (Z.max (d - Clocked.cfg_interval cfg) d) with d by lia.
  fold (Clocked.data_at cfg begun this args (c + 1) d).
  rewrite Hacts, fold_left_app. cbn [fold_left Clocked.perform].
  rewrite (perform_proceeds before) by exact Hbefore.
  unfold Clocked.terminate, clearInterval, clearTimeout, drop.
  clocked_fields. rewrite Z.eqb_refl. cbn [negb].
  rewrite (perform_proceeds after) by exact Hafter.
  clocked_fields.
  unfold Clocked.forwards. rewrite flat_map_app. cbn [flat_map].
  rewrite <- !app_assoc. cbn [app]. reflexivity.
Qed.

(** [k] ticks in a row without a controller. *)
Lemma running_ticks_proceed (nx id begun : Z) (this : value)
  (args : list value) (limit : Z) (fuel : nat) :
  Clocked.controller cfg = None ->
  forall (k : nat) (d c : Z) (j : list Clocked.event),
    (k = 0%nat \/ d + (Z.of_nat k - 1) * Clocked.cfg_interval cfg <= limit) ->
    drain (Clocked.fire cfg) (k + fuel) limit
      (Clocked.running cfg nx id begun this args d c j)
    = drain (Clocked.fire cfg) fuel limit
        (Clocked.running cfg nx id begun this args
           (d + Z.of_nat k * Clocked.cfg_interval cfg) c
           (j ++ Clocked.proceed_ticks cfg this args k d)).
Proof.
  intros Hctl. induction k as [| k IH]; intros d c j Hdue.
  - cbn [Nat.add Clocked.proceed_ticks Z.of_nat]. rewrite app_nil_r.
    replace (d + 0 * Clocked.cfg_interval cfg) with d by lia. reflexivity.
  - destruct Hdue as [Hk | Hdue]; [discriminate Hk | ].
    rewrite Nat2Z.inj_succ in Hdue.
    cbn [Nat.add].
    assert (Hd : d <= limit).
    { assert (0 <= Z.of_nat k * Clocked.cfg_interval cfg) by nia. lia. }
    rewrite (drain_step _ _ _ _ _ _ _ _
               (running_due nx id begun this args d c j limit Hd)).
    rewrite running_tick_proceeds by exact Hctl.
    rewrite IH.
    + rewrite Nat2Z.inj_succ. cbn [Clocked.proceed_ticks].
      rewrite <- app_assoc. cbn [app].
      replace (d + Clocked.cfg_interval cfg
               + Z.of_nat k * Clocked.cfg_interval cfg)
        with (d + Z.succ (Z.of_nat k) * Clocked.cfg_interval cfg) by lia.
      reflexivity.
    + destruct k as [| k']; [left; reflexivity | right].
      rewrite Nat2Z.inj_succ in *. lia.
Qed.

(** [k] ticks in a row in which the controller only proceeds. *)
Lemma running_ticks_controlled (ctl : Clocked.controller_fn)
  (nx id begun : Z) (this : value) (args : list value) (limit : Z)
  (fuel : nat) :
  Clocked.controller cfg = Some ctl ->
  forall (k : nat) (d c : Z) (j : list Clocked.event),
    (k = 0%nat \/ d + (Z.of_nat k - 1) * Clocked.cfg_interval cfg <= limit) ->
    Clocked.quiet_ticks cfg ctl begun this args k (c + 1) d ->
    drain (Clocked.fire cfg) (k + fuel) limit
      (Clocked.running cfg nx id begun this args d c j)
    = drain (Clocked.fire cfg) fuel limit
        (Clocked.running cfg nx id begun this args
           (d + Z.of_nat k * Clocked.cfg_interval cfg) (c + Z.of_nat k)
           (j ++ Clocked.controlled_ticks cfg ctl begun this args k
                   (c + 1) d)).
Proof.
  intros Hctl. induction k as [| k IH]; intros d c j Hdue Hquiet.
  - cbn [Nat.add Clocked.controlled_ticks Z.of_nat]. rewrite app_nil_r.
    replace (d + 0 * Clocked.cfg_interval cfg) with d by lia.
    replace (c + 0) with c by lia. reflexivity.
  - destruct Hdue as [Hk | Hdue]; [discriminate Hk | ].
    rewrite Nat2Z.inj_succ in Hdue.
    cbn [Clocked.quiet_ticks] in Hquiet. destruct Hquiet as [Hnow Hlater].
    cbn [Nat.add].
    assert (Hd : d <= limit).
    { assert (0 <= Z.of_nat k * Clocked.cfg_interval cfg) by nia. lia. }
    rewrite (drain_step _ _ _ _ _ _ _ _
               (running_due nx id begun this args d c j limit Hd)).
    rewrite (running_tick_controlled ctl) by assumption.
    rewrite IH.
    + rewrite Nat2Z.inj_succ. cbn [Clocked.controlled_ticks].
      rewrite <- app_assoc. cbn [app].
      replace (d + Clocked.cfg_interval cfg
               + Z.of_nat k * Clocked.cfg_interval cfg)
        with (d + Z.succ (Z.of_nat k) * Clocked.cfg_interval cfg) by lia.
      replace (c + 1 + Z.of_nat k) with (c + Z.succ (Z.of_nat k)) by lia.
      reflexivity.
    + destruct k as [| k']; [left; reflexivity | right].
      rewrite Nat2Z.inj_succ in *. lia.
    + exact Hlater.
Qed.

End ClockedCycle.

(** X15. Without a controller, a clocked callable that was invoked at clock
    reading [s] forwards one call per interval: when the clock has reached
    a reading from [s + k * interval] up to, but not including,
    [s + (k + 1) * interval], exactly [k] calls have been forwarded since
    the invocation, at [s + interval], [s + 2 * interval], ..., each on the
    captured context with the captured arguments; the governor is still
    active and its counter still 0. *)
Theorem clocked_forwards_once_per_interval
  (cfg : Clocked.config) (w : Clocked.World) (t : Z) (this : value)
  (args : list value) (k : nat) (horizon : Z) (fuel : nat) :
  Clocked.controller cfg = None ->
  0 < Clocked.cfg_interval cfg ->
  Clocked.invariant cfg w ->
  let w' := Clocked.clocked cfg this args (tick_clock t w) in
  let s := now (svc w') in
  s + Z.of_nat k * Clocked.cfg_interval cfg <= horizon
    < s + (Z.of_nat k + 1) * Clocked.cfg_interval cfg ->
  exists w'',
    advance (Clocked.fire cfg) (k + fuel) horizon w' = Some w''
    /\ journal w'' =
         journal w ++
           Clocked.proceed_ticks cfg
             (coalesce (getSanitizedTarget this) (Clocked.target cfg)) args
             k (s + Clocked.cfg_interval cfg)
    /\ Clocked.isActive w'' = true
    /\ Clocked.clockCount (st w'') = Some 0
    /\ Clocked.clockStart (st w'') = Some s.
Proof.
  intros Hctl Hpos Hinv w' s Hh.
  pose proof (clocked_inv_tick_clock cfg w t Hinv) as Hinv'.
  assert (Hs : s = now (svc (tick_clock t w))).
  { destruct (clocked_call_result cfg (tick_clock t w) this args Hinv')
      as (_ & _ & Hnow & _). exact Hnow. }
  clearbody s. subst s. unfold w'.
  rewrite (clocked_call_starts_a_cycle cfg _ this args Hinv').
  set (s := now (svc (tick_clock t w))) in *.
  unfold advance.
  rewrite (running_ticks_proceed cfg Hpos) by (try exact Hctl; right; lia).
  rewrite drain_quiet by (apply running_not_due; lia).
  eexists. split; [reflexivity | ].
  repeat split.
Qed.

Lemma clocked_forwards_once_per_interval_witness :
  let cfg :=
    {| Clocked.proceed := VFunction 0 true true;
       Clocked.cfg_interval := 2000;
       Clocked.target := VObject 1;
       Clocked.controller := None |} in
  let w' := Clocked.clocked cfg VUndefined
              [VString "quick"; VString "brown"; VString "fox"]
              (tick_clock 0 (Clocked.start 0)) in
  exists w'',
    advance (Clocked.fire cfg) (2 + 0) 5000 w' = Some w''
    /\ journal w'' =
         journal (Clocked.start 0) ++
           Clocked.proceed_ticks cfg
             (coalesce (getSanitizedTarget VUndefined) (Clocked.target cfg))
             [VString "quick"; VString "brown"; VString "fox"]
             2 (now (svc w') + Clocked.cfg_interval cfg)
    /\ Clocked.isActive w'' = true
    /\ Clocked.clockCount (st w'') = Some 0
    /\ Clocked.clockStart (st w'') = Some (now (svc w')).
Proof.
  intros cfg w'.
  apply (clocked_forwards_once_per_interval cfg (Clocked.start 0) 0 VUndefined
           [VString "quick"; VString "brown"; VString "fox"] 2 5000 0).
  - reflexivity.
  - cbn. lia.
  - apply clocked_inv_start.
  - cbn. lia.
Defined.

(** X16. After [terminate] nothing ever reaches the wrapped callable or the
    controller again, however far the clock advances: the journal stays as
    it is and the governor stays inactive (until it is invoked anew). *)
Theorem clocked_terminate_silences_the_governor
  (cfg : Clocked.config) (w : Clocked.World) (t : Z) (fuel : nat) :
  Clocked.invariant cfg w ->
  exists w',
    advance (Clocked.fire cfg) fuel t (Clocked.terminate w) = Some w'
    /\ journal w' = journal w
    /\ Clocked.isActive w' = false
    /\ pending (svc w') = [].
Proof.
  intros Hinv.
  destruct (clocked_terminate_clears cfg w Hinv) as (Hp & Hid & _).
  rewrite advance_quiet by (unfold next_due; rewrite Hp; reflexivity).
  eexists. split; [reflexivity | ].
  cbn [tick_clock journal svc st set_clock pending].
  split; [reflexivity | ]. split; [reflexivity | exact Hp].
Qed.

Lemma clocked_terminate_silences_the_governor_witness :
  let cfg :=
    {| Clocked.proceed := VFunction 0 true true;
       Clocked.cfg_interval := 1000;
       Clocked.target := VNull;
       Clocked.controller := None |} in
  let w := Clocked.clocked cfg (VObject 1) [VString "Mrs Smith"]
             (tick_clock 0 (Clocked.start 0)) in
  exists w',
    advance (Clocked.fire cfg) 0 3750 (Clocked.terminate w) = Some w'
    /\ journal w' = journal w
    /\ Clocked.isActive w' = false
    /\ pending (svc w') = [].
Proof.
  intros cfg w.
  apply (clocked_terminate_silences_the_governor cfg w 3750 0).
  apply clocked_inv_clocked, clocked_inv_tick_clock, clocked_inv_start.
Defined.

Lemma quiet_when_always_proceeding (cfg : Clocked.config)
  (ctl : Clocked.controller_fn) (begun : Z) (this : value)
  (args : list value) :
  (forall data, Clocked.only_proceeds (ctl data)) ->
  forall (k : nat) (c t : Z),
    Clocked.quiet_ticks cfg ctl begun this args k c t.
Proof.
  intros Hall. induction k as [| k IH]; intros c t;
    cbn [Clocked.quiet_ticks]; [exact I | ].
  split; [apply Hall | apply IH].
Qed.

(** X17. With a controller that does nothing but call [proceed] (with
    whatever context and arguments it chooses), the cycle goes on: when the
    clock has reached a reading from [s + k * interval] up to, but not
    including, [s + (k + 1) * interval], the controller has been handed the
    data object exactly [k] times, with the counts 1, 2, ..., [k], the
    start time [s] and the time stamps [s + interval], ...; each of its
    calls of [proceed] was forwarded at the time of its tick; the governor
    is active and its counter is [k]. *)
Theorem clocked_controller_is_handed_every_tick
  (cfg : Clocked.config) (ctl : Clocked.controller_fn)
  (w : Clocked.World) (t : Z) (this : value)
  (args : list value) (k : nat) (horizon : Z) (fuel : nat) :
  Clocked.controller cfg = Some ctl ->
  (forall data, Clocked.only_proceeds (ctl data)) ->
  0 < Clocked.cfg_interval cfg ->
  Clocked.invariant cfg w ->
  let w' := Clocked.clocked cfg this args (tick_clock t w) in
  let s := now (svc w') in
  s + Z.of_nat k * Clocked.cfg_interval cfg <= horizon
    < s + (Z.of_nat k + 1) * Clocked.cfg_interval cfg ->
  exists w'',
    advance (Clocked.fire cfg) (k + fuel) horizon w' = Some w''
    /\ journal w'' =
         journal w ++
           Clocked.controlled_ticks cfg ctl s
             (coalesce (getSanitizedTarget this) (Clocked.target cfg)) args
             k 1 (s + Clocked.cfg_interval cfg)
    /\ Clocked.isActive w'' = true
    /\ Clocked.clockCount (st w'') = Some (Z.of_nat k).
Proof.
  intros Hctl Hall Hpos Hinv w' s Hh.
  pose proof (clocked_inv_tick_clock cfg w t Hinv) as Hinv'.
  assert (Hs : s = now (svc (tick_clock t w))).
  { destruct (clocked_call_result cfg (tick_clock t w) this args Hinv')
      as (_ & _ & Hnow & _). exact Hnow. }
  clearbody s. subst s. unfold w'.
  rewrite (clocked_call_starts_a_cycle cfg _ this args Hinv').
  set (s := now (svc (tick_clock t w))) in *.
  unfold advance.
  rewrite (running_ticks_controlled cfg Hpos ctl)
    by (try exact Hctl; try (right; lia);
        apply quiet_when_always_proceeding; exact Hall).
  rewrite drain_quiet by (apply running_not_due; lia).
  eexists. split; [reflexivity | ].
  repeat split.
Qed.

Lemma clocked_controller_is_handed_every_tick_witness :
  let ctl : Clocked.controller_fn :=
    fun d => [Clocked.Proceed (Clocked.data_target d) (Clocked.data_args d)] in
  let cfg :=
    {| Clocked.proceed := VFunction 0 true true;
       Clocked.cfg_interval := 500;
       Clocked.target := VObject 1;
       Clocked.controller := Some ctl |} in
  let w' := Clocked.clocked cfg VUndefined [VString "Mr Snider"]
              (tick_clock 200 (Clocked.start 0)) in
  exists w'',
    advance (Clocked.fire cfg) (3 + 0) 1900 w' = Some w''
    /\ journal w'' =
         journal (Clocked.start 0) ++
           Clocked.controlled_ticks cfg ctl (now (svc w'))
             (coalesce (getSanitizedTarget VUndefined) (Clocked.target cfg))
             [VString "Mr Snider"] 3 1
             (now (svc w') + Clocked.cfg_interval cfg)
    /\ Clocked.isActive w'' = true
    /\ Clocked.clockCount (st w'') = Some (Z.of_nat 3).
Proof.
  intros ctl cfg w'.
  apply (clocked_controller_is_handed_every_tick cfg ctl (Clocked.start 0) 200
           VUndefined [VString "Mr Snider"] 3 1900 0).
  - reflexivity.
  - intros data a [<- | []]. eauto.
  - cbn. lia.
  - apply clocked_inv_start.
  - cbn. lia.
Defined.

(** *** Controllers that stop the cycle *)

Lemma count_limited_quiet (cfg : Clocked.config) (limit : Z)
  (proceeds : bool) (begun : Z) (this : value) (args : list value) :
  forall (k : nat) (c t : Z),
    c + Z.of_nat k - 1 <= limit ->
    Clocked.quiet_ticks cfg (Clocked.count_limited limit proceeds)
      begun this args k c t.
Proof.
  induction k as [| k IH]; intros c t Hc; cbn [Clocked.quiet_ticks];
    [exact I | ].
  rewrite Nat2Z.inj_succ in Hc. split.
  - unfold Clocked.count_limited, Clocked.data_at.
    cbn [Clocked.clock Clocked.count Clocked.data_target Clocked.data_args].
    replace (c >? limit) with false
      by (symmetry; rewrite Z.gtb_ltb; apply Z.ltb_ge; lia).
    destruct proceeds; intros a Hin.
    + destruct Hin as [<- | []]. eauto.
    + destruct Hin.
  - apply IH. lia.
Qed.

(** X18. The controllers of [controllerTest] and [originalProblemTest]
    ([terminate] once the count is above a bound, 5 in the source)
    stop the cycle by themselves.  With the bound [n], the first [n] ticks
    hand the data object over with the counts 1 to [n] (and, in
    [controllerTest], forward the call on the reported target and
    arguments); the tick after them hands over the count [n + 1] and
    terminates.  From then on the governor is inactive, nothing is pending,
    and nothing more is handed over or forwarded. *)
Theorem clocked_count_limited_controller_stops_the_cycle
  (cfg : Clocked.config) (n : nat) (proceeds : bool)
  (w : Clocked.World) (t : Z) (this : value) (args : list value)
  (horizon : Z) (fuel : nat) :
  Clocked.controller cfg
  = Some (Clocked.count_limited (Z.of_nat n) proceeds) ->
  0 < Clocked.cfg_interval cfg ->
  Clocked.invariant cfg w ->
  let ctl := Clocked.count_limited (Z.of_nat n) proceeds in
  let ctx := coalesce (getSanitizedTarget this) (Clocked.target cfg) in
  let w' := Clocked.clocked cfg this args (tick_clock t w) in
  let s := now (svc w') in
  s + (Z.of_nat n + 1) * Clocked.cfg_interval cfg <= horizon ->
  exists w'',
    advance (Clocked.fire cfg) (n + S fuel) horizon w' = Some w''
    /\ journal w'' =
         journal w ++
           Clocked.controlled_ticks cfg ctl s ctx args n 1
             (s + Clocked.cfg_interval cfg)
           ++ [ Clocked.HandedOver
                  (Clocked.data_at cfg s ctx args (Z.of_nat n + 1)
                     (s + (Z.of_nat n + 1) * Clocked.cfg_interval cfg)) ]
    /\ Clocked.isActive w'' = false
    /\ pending (svc w'') = []
    /\ Clocked.clockCount (st w'') = None.
Proof.
  intros Hctl Hpos Hinv ctl ctx w' s Hh.
  pose proof (clocked_inv_tick_clock cfg w t Hinv) as Hinv'.
  assert (Hs : s = now (svc (tick_clock t w))).
  { destruct (clocked_call_result cfg (tick_clock t w) this args Hinv')
      as (_ & _ & Hnow & _). exact Hnow. }
  clearbody s. subst s. unfold w'.
  rewrite (clocked_call_starts_a_cycle cfg _ this args Hinv').
  set (s := now (svc (tick_clock t w))) in *. fold ctx.
  unfold advance.
  assert (Hmul : 0 <= Z.of_nat n * Clocked.cfg_interval cfg) by nia.
  rewrite (running_ticks_controlled cfg Hpos ctl)
    by (try exact Hctl; try (right; lia);
        apply count_limited_quiet; lia).
  assert (Hd : s + Clocked.cfg_interval cfg
               + Z.of_nat n * Clocked.cfg_interval cfg <= horizon) by lia.
  rewrite (drain_step _ _ _ _ _ _ _ _
             (running_due cfg _ _ _ _ _ _ _ _ horizon Hd)).
  rewrite (running_tick_terminates cfg Hpos ctl _ _ _ _ _ _ _ _ [] [])
    by (try exact Hctl; try (intros a []);
        unfold ctl, Clocked.count_limited, Clocked.data_at;
        cbn [Clocked.clock Clocked.count app];
        replace (0 + Z.of_nat n + 1 >? Z.of_nat n) with true
          by (symmetry; rewrite Z.gtb_ltb; apply Z.ltb_lt; lia);
        reflexivity).
  rewrite drain_quiet by reflexivity.
  eexists. split; [reflexivity | ].
  cbn [tick_clock journal svc st pending set_clock Clocked.clockCount].
  split; [ | repeat split].
  rewrite <- app_assoc. do 2 f_equal.
  unfold Clocked.forwards. cbn [app flat_map].
  do 2 f_equal. unfold Clocked.data_at. do 2 f_equal; lia.
Qed.

Lemma clocked_count_limited_controller_stops_the_cycle_witness :
  let cfg :=
    {| Clocked.proceed := VFunction 0 true true;
       Clocked.cfg_interval := 500;
       Clocked.target := VObject 1;
       Clocked.controller := Some Clocked.controllerTest_controller |} in
  let w' := Clocked.clocked cfg VUndefined [VString "Mr Snider"]
              (tick_clock 200 (Clocked.start 0)) in
  exists w'',
    advance (Clocked.fire cfg) (5 + 1) 3500 w' = Some w''
    /\ Clocked.isActive w'' = false
    /\ pending (svc w'') = [].
Proof.
  intros cfg w'.
  destruct (clocked_count_limited_controller_stops_the_cycle cfg 5 true
              (Clocked.start 0) 200 VUndefined [VString "Mr Snider"] 3500 0)
    as (w'' & Hrun & _ & Hoff & Hp & _).
  - reflexivity.
  - cbn. lia.
  - apply clocked_inv_start.
  - cbn. lia.
  - exists w''. split; [exact Hrun | ]. split; assumption.
Defined.

Lemma clocked_inv_counted (cfg : Clocked.config) (w : Clocked.World)
  (j : list Clocked.event) :
  Clocked.invariant cfg w ->
  Clocked.isActive w = true ->
  Clocked.invariant cfg
    (mkWorld (svc w)
       {| Clocked.thisArg := Clocked.thisArg (st w);
          Clocked.argsArr := Clocked.argsArr (st w);
          Clocked.clockCount :=
            Some (Clocked.increment (Clocked.clockCount (st w)));
          Clocked.clockStart := Clocked.clockStart (st w);
          Clocked.timerId := Clocked.timerId (st w) |} j).
Proof.
  unfold Clocked.invariant, Clocked.isActive. cbn.
  destruct (Clocked.timerId (st w)); [ | discriminate].
  intros (Hp & Hi & _ & Hs) _. repeat split; try assumption. discriminate.
Qed.

(** X19. Whatever else a controller does in a tick, if it calls
    [terminate] and after that does no more than call [proceed], the tick
    leaves the governor inactive with its counter and start time cleared
    and nothing pending, and no later advance of the clock adds anything
    to the journal. *)
Theorem clocked_controller_terminate_ends_the_cycle
  (cfg : Clocked.config) (ctl : Clocked.controller_fn)
  (w : Clocked.World) (before after : list Clocked.action) :
  Clocked.invariant cfg w ->
  Clocked.isActive w = true ->
  Clocked.controller cfg = Some ctl ->
  ctl {| Clocked.clock :=
           {| Clocked.interval := Clocked.cfg_interval cfg;
              Clocked.startTime := Clocked.clockStart (st w);
              Clocked.timestamp := now (svc w);
              Clocked.count := Clocked.increment (Clocked.clockCount (st w)) |};
         Clocked.data_target := Clocked.thisArg (st w);
         Clocked.data_args := Clocked.argsArr (st w) |}
  = before ++ Clocked.Terminate :: after ->
  Clocked.only_proceeds after ->
  let w' := Clocked.triggerController cfg w in
  Clocked.isActive w' = false
  /\ pending (svc w') = []
  /\ Clocked.clockCount (st w') = None
  /\ Clocked.clockStart (st w') = None
  /\ forall (fuel : nat) (t : Z),
       exists w'',
         advance (Clocked.fire cfg) fuel t w' = Some w''
         /\ journal w'' = journal w'.
Proof.
  intros Hinv Hact Hctl Hacts Hafter w'.
  assert (Hw' : exists x j,
             Clocked.invariant cfg x
             /\ w' = mkWorld (svc (Clocked.terminate x))
                       (st (Clocked.terminate x)) j).
  { unfold w', Clocked.triggerController. rewrite Hctl, Hacts.
    rewrite fold_left_app. cbn [fold_left Clocked.perform].
    rewrite (perform_proceeds cfg after) by exact Hafter.
    do 2 eexists. split; [ | reflexivity].
    apply clocked_inv_actions, clocked_inv_counted; assumption. }
  destruct Hw' as (x & j & Hx & ->).
  destruct (clocked_terminate_clears cfg x Hx) as (Hp & Hid & Hc & Hs).
  cbn [svc st].
  split; [unfold Clocked.isActive; cbn [st]; rewrite Hid; reflexivity | ].
  split; [exact Hp | ]. split; [exact Hc | ]. split; [exact Hs | ].
  intros fuel t.
  rewrite advance_quiet by (unfold next_due; cbn [svc]; rewrite Hp; reflexivity).
  eexists. split; reflexivity.
Qed.

Lemma clocked_controller_terminate_ends_the_cycle_witness :
  let cfg :=
    {| Clocked.proceed := VFunction 0 true true;
       Clocked.cfg_interval := 50;
       Clocked.target := VNull;
       Clocked.controller := Some (fun _ => [Clocked.Terminate]) |} in
  let w := Clocked.clocked cfg VUndefined [] (Clocked.start 0) in
  Clocked.isActive (Clocked.triggerController cfg w) = false.
Proof.
  intros cfg w.
  apply (clocked_controller_terminate_ends_the_cycle cfg
           (fun _ => [Clocked.Terminate]) w [] []).
  - apply clocked_inv_clocked, clocked_inv_start.
  - reflexivity.
  - reflexivity.
  - reflexivity.
  - intros a [].
Defined.
